(** * gofindmyfonts: the discovery-and-conversion pipeline of
      [internal/app/preview.go]

    A shallow embedding of the font scanner ([findFonts]), the job planner
    and result assembly of [ProcessFonts], the two conversion executors
    ([convertToWoff2], [convertToTTF]) and the worker pool
    ([processConversions]), together with the properties of the pipeline
    that are stated about them, and of [getMIMEType] of [server.go] and
    the archive loop of [handleDownloadAll] of [download.go].

    Go strings are [string]; Go maps are [gmap]; a [*FontVariant] is the key
    of the variant in the shared map of variants (the scanner stores every
    variant under its own [Name]); [(T, error)] results are [result]. *)

From Stdlib Require Import ZArith Ascii String List.
From stdpp Require Import gmap strings list fin_maps.

Import ListNotations.
Local Open Scope string_scope.
Local Open Scope list_scope.

(** ** Results and errors *)

Inductive result (E A : Type) : Type :=
| Ok (a : A)
| Failed (e : E).
Arguments Ok {E A} a.
Arguments Failed {E A} e.

Definition is_ok {E A} (r : result E A) : bool :=
  match r with Ok _ => true | Failed _ => false end.

(** The errors of the [os] package that the pipeline tells apart:
    [os.IsPermission] holds of [EACCES] and [EPERM]. *)
Inductive oserr : Type :=
| EACCES
| EPERM
| ENOENT
| ENOTDIR
| EIO
| EOTHER (msg : string).

Definition IsPermission (e : oserr) : bool :=
  match e with
  | EACCES | EPERM => true
  | _ => false
  end.

(** What a [FontProcessError] wraps. *)
Inductive cause : Type :=
| OsCause (e : oserr)
| Errorf (msg : string)
| ExitStatus (code : Z) (output : string)
| Wrapped (op path : string) (inner : cause).

(** [type FontProcessError struct { Op; Path; Err }] *)
Record FontProcessError : Type := mkError {
  Op : string;
  Path : string;
  Err : cause
}.

(** ** Strings and paths

    The functions of [strings], [path/filepath] and [net/url] that the
    pipeline calls, on byte strings. *)

Module GoString.

(** [strings.TrimPrefix]: [Some rest] when [s = prefix ++ rest]. *)
Fixpoint cut_prefix (prefix s : string) : option string :=
  match prefix, s with
  | EmptyString, _ => Some s
  | String a p', String b s' =>
      if Ascii.eqb a b then cut_prefix p' s' else None
  | String _ _, EmptyString => None
  end.

Definition TrimPrefix (s prefix : string) : string :=
  default s (cut_prefix prefix s).

(** [strings.TrimSuffix]: [Some stem] when [s = stem ++ suffix]. *)
Fixpoint cut_suffix (s suffix : string) : option string :=
  if String.eqb s suffix then Some EmptyString
  else match s with
       | EmptyString => None
       | String c s' => String c <$> cut_suffix s' suffix
       end.

Definition TrimSuffix (s suffix : string) : string :=
  default s (cut_suffix s suffix).

Definition HasSuffix (s suffix : string) : bool :=
  bool_decide (is_Some (cut_suffix s suffix)).

(** [strings.ToLower] on the ASCII letters.  The scanner only compares
    the lowered extension with four ASCII literals and no code point
    outside [A-Z] lowers to one of their letters, so the other bytes are
    kept as they are. *)
Definition lower_byte (c : ascii) : ascii :=
  let n := nat_of_ascii c in
  if (65 <=? n)%nat && (n <=? 90)%nat then ascii_of_nat (n + 32) else c.

Fixpoint ToLower (s : string) : string :=
  match s with
  | EmptyString => EmptyString
  | String c s' => String (lower_byte c) (ToLower s')
  end.

End GoString.

Module Filepath.

Definition IsPathSeparator (c : ascii) : bool := Ascii.eqb c "/".

(** The loop of [filepath.Ext], from the last byte down: stop at a
    separator, return the suffix that starts at the first dot met. *)
Fixpoint ext_loop (rev_path : list ascii) (suffix : list ascii) : list ascii :=
  match rev_path with
  | [] => []
  | c :: r =>
      if IsPathSeparator c then []
      else if Ascii.eqb c "." then c :: suffix
      else ext_loop r (c :: suffix)
  end.

Definition Ext (path : string) : string :=
  string_of_list_ascii (ext_loop (rev (list_ascii_of_string path)) []).

(** [filepath.Base]: strip the trailing separators, keep what follows the
    last separator; the empty path gives ".", a path of separators "/". *)
Fixpoint strip_seps (rev_path : list ascii) : list ascii :=
  match rev_path with
  | c :: r => if IsPathSeparator c then strip_seps r else rev_path
  | [] => []
  end.

Fixpoint last_elem (rev_path : list ascii) (acc : list ascii) : list ascii :=
  match rev_path with
  | [] => acc
  | c :: r => if IsPathSeparator c then acc else last_elem r (c :: acc)
  end.

Definition Base (path : string) : string :=
  match path with
  | EmptyString => "."
  | _ =>
      match strip_seps (rev (list_ascii_of_string path)) with
      | [] => "/"
      | r => string_of_list_ascii (last_elem r [])
      end
  end.

(** [filepath.Join(dir, "converted", name+ext)] for the clean
    [StaticDir] of the configuration and a file name, which has no
    separator and is neither "." nor "..": nothing for [Clean] to
    rewrite. *)
Definition JoinConverted (staticDir file : string) : string :=
  staticDir +:+ "/converted/" +:+ file.

(** [filepath.Dir] of a path that has a separator before its last
    element: what precedes the last separator (the root for "/x"). *)
Fixpoint drop_last_elem (rev_path : list ascii) : list ascii :=
  match rev_path with
  | [] => []
  | c :: r => if IsPathSeparator c then strip_seps rev_path else drop_last_elem r
  end.

Definition Dir (path : string) : string :=
  let r := rev (list_ascii_of_string path) in
  if existsb IsPathSeparator r then
    match drop_last_elem r with
    | [] => "/"
    | d => string_of_list_ascii (rev d)
    end
  else ".".

End Filepath.

Module Url.

Definition is_alnum (c : ascii) : bool :=
  let n := nat_of_ascii c in
  ((48 <=? n) && (n <=? 57) || (65 <=? n) && (n <=? 90)
   || (97 <=? n) && (n <=? 122))%nat.

(** [shouldEscape(c, encodeQueryComponent)]: everything but the
    unreserved characters. *)
Definition shouldEscape (c : ascii) : bool :=
  negb (is_alnum c || Ascii.eqb c "-" || Ascii.eqb c "_"
        || Ascii.eqb c "." || Ascii.eqb c "~").

Definition upperhex (n : nat) : ascii :=
  nth n (list_ascii_of_string "0123456789ABCDEF") "0"%char.

Definition ishex (c : ascii) : bool :=
  let n := nat_of_ascii c in
  ((48 <=? n) && (n <=? 57) || (65 <=? n) && (n <=? 70)
   || (97 <=? n) && (n <=? 102))%nat.

Definition unhex (c : ascii) : nat :=
  let n := nat_of_ascii c in
  if ((48 <=? n) && (n <=? 57))%nat then n - 48
  else if ((97 <=? n) && (n <=? 102))%nat then n - 97 + 10
  else if ((65 <=? n) && (n <=? 70))%nat then n - 65 + 10
  else 0.

(** [url.QueryEscape] *)
Fixpoint QueryEscape (s : string) : string :=
  match s with
  | EmptyString => EmptyString
  | String c s' =>
      if Ascii.eqb c " " then String "+" (QueryEscape s')
      else if shouldEscape c then
        let n := nat_of_ascii c in
        String "%" (String (upperhex (n / 16)) (String (upperhex (n mod 16))
                                                        (QueryEscape s')))
      else String c (QueryEscape s')
  end.

(** [url.QueryUnescape]: [None] is the [EscapeError] of a "%" that is not
    followed by two hexadecimal digits. *)
Fixpoint QueryUnescape (s : string) : option string :=
  match s with
  | EmptyString => Some EmptyString
  | String c s' =>
      if Ascii.eqb c "%" then
        match s' with
        | String a (String b s'') =>
            if ishex a && ishex b then
              String (ascii_of_nat (unhex a * 16 + unhex b)) <$> QueryUnescape s''
            else None
        | _ => None
        end
      else if Ascii.eqb c "+" then String " " <$> QueryUnescape s'
      else String c <$> QueryUnescape s'
  end.

End Url.

(** ** The data model *)

(** [type FontVariant struct { Name; Location; PreviewPath }] *)
Record FontVariant : Type := mkVariant {
  Name : string;
  Location : gmap string string;
  PreviewPath : string
}.

(** [type FontPreview struct { Name; Preview; Formats }] *)
Record FontPreview : Type := mkPreview {
  preview_name : string;
  Preview : string;
  Formats : gmap string string
}.

(** [type ConversionJob struct]: [variant] is the pointer to the variant,
    that is, its key in the map of variants. *)
Record ConversionJob : Type := mkJob {
  variant : string;
  sourceFile : string;
  sourceFormat : string;
  outputPath : string
}.

(** [type ConversionProgress struct] *)
Record ConversionProgress : Type := mkProgress {
  Total : nat;
  Current : nat;
  CurrentFont : string;
  Stage : string
}.

(** The retrieval reference of a scanned file:
    ["/download?path=" + url.QueryEscape(path)]. *)
Definition downloadURL (path : string) : string :=
  "/download?path=" +:+ Url.QueryEscape path.

(** [decodeFilePath] *)
Definition decodeFilePath (encodedPath : string) : result cause string :=
  let path := GoString.TrimPrefix encodedPath "/download?path=" in
  match Url.QueryUnescape path with
  | Some decodedPath => Ok decodedPath
  | None => Failed (Errorf "failed to decode file path")
  end.

(** ** The directory walk

    What [filepath.Walk] sees of a tree: an entry whose [Lstat] fails, a
    file, or a directory with the error of reading its names (if any) and
    its entries in the lexical order in which [Walk] visits them.  Every
    entry carries the path that [Walk] passes to the callback. *)

#[warnings="-register-all"]
Inductive fsnode : Type :=
| LstatFail (path : string) (e : oserr)
| File (path : string)
| Directory (path : string) (readErr : option oserr) (entries : list fsnode).

(** What a [WalkFunc] returns. *)
Inductive walkret : Type :=
| WNil
| SkipDir
| SkipAll
| WErr (e : oserr).

Definition is_nil (r : walkret) : bool :=
  match r with WNil => true | _ => false end.
Definition is_SkipDir (r : walkret) : bool :=
  match r with SkipDir => true | _ => false end.

(** [os.FileInfo], as far as the callback reads it. *)
Record FileInfo : Type := mkInfo { IsDir : bool }.

Section Walk.
Context {S : Type}.
Variable walkFn : string -> option FileInfo -> option oserr -> S -> S * walkret.

(** Whether the loop over the entries of a directory returns the error
    [r] that entry [c] gave: the callback's [SkipDir] for an [Lstat]
    failure is ignored, the [SkipDir] of a directory skips that directory
    only, and a file's ends the loop. *)
Definition loop_returns (c : fsnode) (r : walkret) : bool :=
  match c with
  | File _ => negb (is_nil r)
  | LstatFail _ _ | Directory _ _ _ => negb (is_nil r || is_SkipDir r)
  end.

(** The loop [for _, name := range names] of [filepath.walk], over the
    entries, with [descend] for the entry itself. *)
Definition walk_entries (descend : fsnode -> S -> S * walkret)
  : list fsnode -> S -> S * walkret :=
  fix loop (ns : list fsnode) (st : S) {struct ns} : S * walkret :=
    match ns with
    | [] => (st, WNil)
    | c :: ns' =>
        let '(st', r) := descend c st in
        if loop_returns c r then (st', r) else loop ns' st'
    end.

(** [filepath.walk]: a file is passed to the callback; a directory has its
    names read, is passed to the callback with the error of the read, and
    is entered when neither failed.  An entry whose [Lstat] fails is
    passed to the callback with that error. *)
Fixpoint walk (n : fsnode) (st : S) {struct n} : S * walkret :=
  match n with
  | LstatFail path e => walkFn path None (Some e) st
  | File path => walkFn path (Some (mkInfo false)) None st
  | Directory path readErr entries =>
      let '(st1, err1) := walkFn path (Some (mkInfo true)) readErr st in
      match readErr, err1 with
      | None, WNil => walk_entries walk entries st1
      | _, _ => (st1, err1)
      end
  end.

(** [filepath.Walk]: [SkipDir] and [SkipAll] at the top are no error. *)
Definition Walk (root : fsnode) (st : S) : S * option oserr :=
  let '(st', r) := walk root st in
  (st', match r with WErr e => Some e | _ => None end).

End Walk.

(** ** The font scanner *)

(** The variables the callback of [findFonts] closes over. *)
Record scan : Type := mkScan {
  fonts : gmap string FontVariant;
  walkErr : option FontProcessError
}.

Definition isFontExt (ext : string) : bool :=
  bool_decide (ext = ".ttf") || bool_decide (ext = ".otf")
  || bool_decide (ext = ".woff") || bool_decide (ext = ".woff2").

Definition fontExt (path : string) : string :=
  GoString.ToLower (Filepath.Ext path).

Definition baseName (path : string) : string :=
  GoString.TrimSuffix (Filepath.Base path) (fontExt path).

(** Lines 319-335: the variant of [baseName] is created when missing, the
    reference of the file is stored under its extension, and the preview
    is set under the guard of line 330. *)
Definition record_font (path : string) (fs : gmap string FontVariant)
  : gmap string FontVariant :=
  let ext := fontExt path in
  let name := baseName path in
  let v := default (mkVariant name ∅ "") (fs !! name) in
  let url := downloadURL path in
  let loc := <[ext := url]> (Location v) in
  let prev :=
    if bool_decide (ext = ".woff2")
       || (bool_decide (ext = ".woff") && bool_decide (PreviewPath v = ""))
       || ((bool_decide (ext = ".ttf") || bool_decide (ext = ".otf"))
           && bool_decide (PreviewPath v = ""))
    then url else PreviewPath v in
  <[name := mkVariant (Name v) loc prev]> fs.

(** The callback passed to [filepath.Walk]. *)
Definition visit (path : string) (info : option FileInfo) (err : option oserr)
    (st : scan) : scan * walkret :=
  match err with
  | Some e =>
      if IsPermission e then (st, SkipDir)
      else
        (match walkErr st with
         | None => mkScan (fonts st) (Some (mkError "access" path (OsCause e)))
         | Some _ => st
         end, WNil)
  | None =>
      match info with
      | Some i =>
          if negb (IsDir i) && isFontExt (fontExt path)
          then (mkScan (record_font path (fonts st)) (walkErr st), WNil)
          else (st, WNil)
      | None => (st, WNil)
      end
  end.

Definition scan0 : scan := mkScan ∅ None.

(** [findFonts], on the tree under [root]; [rootPath] is the argument. *)
Definition findFonts (rootPath : string) (root : fsnode)
  : result FontProcessError (gmap string FontVariant) :=
  let '(st, err) := Walk visit root scan0 in
  match walkErr st with
  | Some e => Failed e
  | None =>
      match err with
      | Some e => Failed (mkError "walk" rootPath (OsCause e))
      | None =>
          if bool_decide (size (fonts st) = 0)
          then Failed (mkError "scan" rootPath (Errorf "no font files found in directory"))
          else Ok (fonts st)
      end
  end.

(** ** The walk as the list of what it meets *)

(** What the callback is called with, in the order of the calls: a file, a
    directory that was read, or an entry with its error. *)
Inductive seen : Type :=
| SeenFile (path : string)
| SeenDir (path : string)
| SeenError (path : string) (e : oserr).

Fixpoint seen_of (n : fsnode) : list seen :=
  match n with
  | LstatFail path e => [SeenError path e]
  | File path => [SeenFile path]
  | Directory path (Some e) _ => [SeenError path e]
  | Directory path None entries => SeenDir path :: flat_map seen_of entries
  end.

Definition see (st : scan) (s : seen) : scan :=
  match s with
  | SeenFile path => fst (visit path (Some (mkInfo false)) None st)
  | SeenDir path => fst (visit path (Some (mkInfo true)) None st)
  | SeenError path e => fst (visit path None (Some e) st)
  end.

(** The font files among them, in the order of the walk. *)
Definition font_paths (l : list seen) : list string :=
  flat_map (fun s => match s with
                     | SeenFile path => if isFontExt (fontExt path) then [path] else []
                     | _ => []
                     end) l.

(** The errors that are not permission errors, in the order of the walk. *)
Definition other_errors (l : list seen) : list (string * oserr) :=
  flat_map (fun s => match s with
                     | SeenError path e => if IsPermission e then [] else [(path, e)]
                     | _ => []
                     end) l.

(** The [walkErr] that the callback records for such an error. *)
Definition access_error (pe : string * oserr) : FontProcessError :=
  mkError "access" pe.1 (OsCause pe.2).

(** The tree without the entries that a permission error hides. *)
Fixpoint prune (n : fsnode) : option fsnode :=
  match n with
  | LstatFail _ e => if IsPermission e then None else Some n
  | File _ => Some n
  | Directory path (Some e) _ => if IsPermission e then None else Some n
  | Directory path None entries => Some (Directory path None (omap prune entries))
  end.

(** The map of variants after the font files [ps] were met in that order. *)
Definition scan_fonts (ps : list string) : gmap string FontVariant :=
  fold_left (fun fs p => record_font p fs) ps ∅.

(** The files of one stem among [ps], in order. *)
Definition files_of (name : string) (ps : list string) : list string :=
  filter (fun p => baseName p = name) ps.

(** The preview the guard of line 330 leaves for the files [mine] of one
    variant: the last [.woff2] file when there is one, else the first file
    of the variant. *)
Definition preview_choice (mine : list string) : string :=
  match last (filter (fun p => fontExt p = ".woff2") mine) with
  | Some p => downloadURL p
  | None => match head mine with
            | Some p => downloadURL p
            | None => ""
            end
  end.

(** What holds of every variant [v] stored under [name] by the scanner. *)
Record scanned_variant (name : string) (v : FontVariant) : Prop := {
  sv_name : Name v = name;
  sv_preview : PreviewPath v <> "";
  sv_location : forall ext ref, Location v !! ext = Some ref ->
      isFontExt ext = true
      /\ exists path, ref = downloadURL path /\ fontExt path = ext
                      /\ baseName path = name;
  sv_nonempty : Location v <> ∅
}.

Definition scanned (fs : gmap string FontVariant) : Prop :=
  forall name v, fs !! name = Some v -> scanned_variant name v.

(** ** The file system and the external tool, as the executors use them *)

Inductive fsentry : Type :=
| RegularFile (content : string)
| Folder (size : Z).

(** A call of the external tool: program, working directory, argument. *)
Record invocation : Type := mkInvocation {
  program : string;
  workdir : string;
  argument : string
}.

(** The files by path and the record of the subprocesses started.  A
    file is known by the path under which the program names it: two
    spellings of one path are two entries. *)
Record World : Type := mkWorld {
  files : gmap string fsentry;
  invocations : list invocation
}.

Section Executor.

(** The error [os.MkdirAll] gives for a directory that does not exist
    yet, if any. *)
Variable mkdir_denied : string -> gmap string fsentry -> option oserr.

(** What the external program does to the files when it is run, and the
    error of [cmd.CombinedOutput] ([None] for exit status zero). *)
Variable run_tool :
  invocation -> gmap string fsentry -> option cause * gmap string fsentry.

(** [os.MkdirAll]: nothing to do for a directory that exists. *)
Definition MkdirAll (dir : string) (w : World) : option oserr * World :=
  match files w !! dir with
  | Some (Folder _) => (None, w)
  | Some (RegularFile _) => (Some ENOTDIR, w)
  | None =>
      match mkdir_denied dir (files w) with
      | Some e => (Some e, w)
      | None => (None, mkWorld (<[dir := Folder 4096]> (files w)) (invocations w))
      end
  end.

(** [info, err := os.Stat(path); err == nil && info.Size() > 0] *)
Definition stat_nonempty (path : string) (w : World) : bool :=
  match files w !! path with
  | Some (RegularFile content) => bool_decide (0 < String.length content)%nat
  | Some (Folder size) => bool_decide (0 < size)%Z
  | None => false
  end.

Definition stat_ok (path : string) (w : World) : bool :=
  bool_decide (is_Some (files w !! path)).

(** [copyFile]: open the source, make the directory of the destination,
    create (truncate) the destination, copy. *)
Definition copyFile (src dst : string) (w : World) : option cause * World :=
  match files w !! src with
  | None => (Some (Errorf "failed to open source file"), w)
  | Some source =>
      match MkdirAll (Filepath.Dir dst) w with
      | (Some e, w1) =>
          (Some (Wrapped "failed to create destination directory" "" (OsCause e)), w1)
      | (None, w1) =>
          match files w1 !! dst with
          | Some (Folder _) => (Some (Errorf "failed to create destination file"), w1)
          | _ =>
              match source with
              | Folder _ =>
                  (Some (Errorf "failed to copy file"),
                   mkWorld (<[dst := RegularFile ""]> (files w1)) (invocations w1))
              | RegularFile content =>
                  let copied := if bool_decide (src = dst) then "" else content in
                  (None, mkWorld (<[dst := RegularFile copied]> (files w1))
                                 (invocations w1))
              end
          end
      end
  end.

(** [os.Remove] *)
Definition Remove (path : string) (w : World) : World :=
  mkWorld (delete path (files w)) (invocations w).

(** [exec.Command(program, argument)] with [cmd.Dir = dir], run by
    [cmd.CombinedOutput()]. *)
Definition run_command (prog arg dir : string) (w : World) : option cause * World :=
  let call := mkInvocation prog dir arg in
  let '(err, files') := run_tool call (files w) in
  (err, mkWorld files' (invocations w ++ [call])).

(** [convertToWoff2] *)
Definition convertToWoff2 (ttfPath outputPath : string) (w : World)
  : result FontProcessError string * World :=
  let outputDir := Filepath.Dir outputPath in
  match MkdirAll outputDir w with
  | (Some e, w1) => (Failed (mkError "create_dir" outputDir (OsCause e)), w1)
  | (None, w1) =>
      if stat_nonempty outputPath w1 then (Ok outputPath, w1)
      else
        let tmpFile :=
          GoString.TrimSuffix outputPath ".woff2" +:+ Filepath.Ext ttfPath in
        match copyFile ttfPath tmpFile w1 with
        | (Some c, w2) => (Failed (mkError "copy" ttfPath c), w2)
        | (None, w2) =>
            let '(err, w3) :=
              run_command "woff2_compress" (Filepath.Base tmpFile) outputDir w2 in
            let res :=
              match err with
              | Some c => Failed (mkError "woff2_compress" tmpFile c)
              | None =>
                  if stat_nonempty outputPath w3 then Ok outputPath
                  else Failed (mkError "verify" outputPath
                         (Errorf "file not created or empty after compression"))
              end in
            (res, Remove tmpFile w3)
        end
  end.

(** [convertToTTF] *)
Definition convertToTTF (woff2Path outputPath : string) (w : World)
  : option FontProcessError * World :=
  let outputDir := Filepath.Dir outputPath in
  match MkdirAll outputDir w with
  | (Some e, w1) => (Some (mkError "create_dir" outputDir (OsCause e)), w1)
  | (None, w1) =>
      if stat_nonempty outputPath w1 then (None, w1)
      else if negb (stat_ok woff2Path w1) then
        (Some (mkError "check_source" woff2Path
                 (Errorf "file not found or not accessible")), w1)
      else
        let tmpFile := outputDir +:+ "/" +:+ Filepath.Base woff2Path in
        match copyFile woff2Path tmpFile w1 with
        | (Some c, w2) => (Some (mkError "copy" woff2Path c), w2)
        | (None, w2) =>
            let '(err, w3) :=
              run_command "woff2_decompress" (Filepath.Base tmpFile) outputDir w2 in
            let res :=
              match err with
              | Some c => Some (mkError "woff2_decompress" tmpFile c)
              | None =>
                  if stat_nonempty outputPath w3 then None
                  else Some (mkError "verify" outputPath
                         (Errorf "file not created or empty after decompression"))
              end in
            (res, Remove tmpFile w3)
        end
  end.

(** The converter that [ProcessFonts] makes of [convertToTTF] for the
    pool (lines 580-586). *)
Definition convertToTTF_converter (src dst : string) (w : World)
  : result FontProcessError string * World :=
  match convertToTTF src dst w with
  | (Some e, w') => (Failed e, w')
  | (None, w') => (Ok dst, w')
  end.

End Executor.

(** ** The worker pool *)

(** [progressBufferSize] *)
Definition progressBufferSize : nat := 10.

(** [Config], as far as the pipeline reads it. *)
Record Config : Type := mkConfig {
  StaticDir : string;
  MaxConcurrent : Z
}.

(** [Config.Validate], the part on [MaxConcurrent]; [main] creates the
    generator from a validated configuration only. *)
Definition Validate (c : Config) : bool := negb (MaxConcurrent c <? 1)%Z.

(** Lines 387-393: half of the CPUs, at least one, at most
    [MaxConcurrent]. *)
Definition numWorkers (numCPU : Z) (c : Config) : Z :=
  let n := (numCPU ÷ 2)%Z in
  let n := if (n <? 1)%Z then 1%Z else n in
  if (n >? MaxConcurrent c)%Z then MaxConcurrent c else n.

(** Lines 410-413 *)
Definition conversionType (job : ConversionJob) : string :=
  if GoString.HasSuffix (outputPath job) ".ttf" then "TTF" else "WOFF2".

(** Lines 419-428: the reference of the converted file is stored under the
    extension of the output, and becomes the preview when the output is a
    [.woff2] and the variant has no preview. *)
Definition on_success (job : ConversionJob) (convertedPath : string)
    (vs : gmap string FontVariant) : gmap string FontVariant :=
  match vs !! variant job with
  | None => vs
  | Some v =>
      let ext := Filepath.Ext (outputPath job) in
      let url := "/download?path=" +:+ Url.QueryEscape convertedPath
                 +:+ "&filename=" +:+ Url.QueryEscape (Name v) +:+ ext in
      let prev := if bool_decide (ext = ".woff2") && bool_decide (PreviewPath v = "")
                  then url else PreviewPath v in
      <[variant job := mkVariant (Name v) (<[ext := url]> (Location v)) prev]> vs
  end.

(** Lines 417-432 *)
Definition on_result (job : ConversionJob) (r : result FontProcessError string)
    (vs : gmap string FontVariant) : gmap string FontVariant :=
  match r with
  | Ok convertedPath => on_success job convertedPath vs
  | Failed _ => vs
  end.

(** What the pool writes to the log. *)
Inductive logline : Type :=
| LogConverted (job : ConversionJob) (r : result FontProcessError string)
| LogCancelled (job : ConversionJob)
| LogProgress (p : ConversionProgress)
| LogSkipped (p : ConversionProgress).

(** Where a worker goroutine stands. *)
Inductive worker : Type :=
| Ranging
| Received (job : ConversionJob)
| Converting (job : ConversionJob)
| Reporting (job : ConversionJob) (current : nat)
| Returned.

(** The state that the goroutines of one call share: the closed channel of
    jobs, the workers, the counter, the variants the jobs point to, what
    the converter acts on, the progress channel, the context of the
    generator and the log. *)
Record pool {W : Type} : Type := mkPool {
  jobsChan : list ConversionJob;
  workers : list worker;
  completed : nat;
  variants : gmap string FontVariant;
  world : W;
  progressChan : list ConversionProgress;
  ctxDone : bool;
  logged : list logline
}.
Arguments pool W : clear implicits.
Arguments mkPool {W}.

Section Pool.
Context {W : Type}.
Variable converter : string -> string -> W -> result FontProcessError string * W.
Variable totalJobs : nat.

Definition progress_of (job : ConversionJob) (current : nat)
    (vs : gmap string FontVariant) : ConversionProgress :=
  mkProgress totalJobs current
             (default "" (Name <$> vs !! variant job))
             ("Converting to " +:+ conversionType job).

(** One step of one goroutine (worker [i]), of the forwarder that
    receives from the progress channel, or of whoever cancels the
    context. *)
Inductive step : pool W -> pool W -> Prop :=
| step_receive σ i job rest :
    workers σ !! i = Some Ranging ->
    jobsChan σ = job :: rest ->
    step σ (mkPool rest (<[i := Received job]> (workers σ)) (completed σ)
                   (variants σ) (world σ) (progressChan σ) (ctxDone σ) (logged σ))
| step_closed σ i :
    workers σ !! i = Some Ranging ->
    jobsChan σ = [] ->
    step σ (mkPool [] (<[i := Returned]> (workers σ)) (completed σ)
                   (variants σ) (world σ) (progressChan σ) (ctxDone σ) (logged σ))
| step_cancelled σ i job :
    workers σ !! i = Some (Received job) ->
    ctxDone σ = true ->
    step σ (mkPool (jobsChan σ) (<[i := Returned]> (workers σ)) (completed σ)
                   (variants σ) (world σ) (progressChan σ) (ctxDone σ)
                   (logged σ ++ [LogCancelled job]))
| step_proceed σ i job :
    workers σ !! i = Some (Received job) ->
    ctxDone σ = false ->
    step σ (mkPool (jobsChan σ) (<[i := Converting job]> (workers σ)) (completed σ)
                   (variants σ) (world σ) (progressChan σ) (ctxDone σ) (logged σ))
| step_convert σ i job r w' :
    workers σ !! i = Some (Converting job) ->
    converter (sourceFile job) (outputPath job) (world σ) = (r, w') ->
    step σ (mkPool (jobsChan σ)
                   (<[i := Reporting job (S (completed σ))]> (workers σ))
                   (S (completed σ))
                   (on_result job r (variants σ)) w' (progressChan σ) (ctxDone σ)
                   (logged σ ++ [LogConverted job r]))
| step_send σ i job current :
    workers σ !! i = Some (Reporting job current) ->
    length (progressChan σ) < progressBufferSize ->
    let p := progress_of job current (variants σ) in
    step σ (mkPool (jobsChan σ) (<[i := Ranging]> (workers σ)) (completed σ)
                   (variants σ) (world σ) (progressChan σ ++ [p]) (ctxDone σ)
                   (logged σ ++ [LogProgress p]))
| step_send_done σ i job current :
    workers σ !! i = Some (Reporting job current) ->
    ctxDone σ = true ->
    step σ (mkPool (jobsChan σ) (<[i := Returned]> (workers σ)) (completed σ)
                   (variants σ) (world σ) (progressChan σ) (ctxDone σ) (logged σ))
| step_send_skipped σ i job current :
    workers σ !! i = Some (Reporting job current) ->
    length (progressChan σ) = progressBufferSize ->
    ctxDone σ = false ->
    let p := progress_of job current (variants σ) in
    step σ (mkPool (jobsChan σ) (<[i := Ranging]> (workers σ)) (completed σ)
                   (variants σ) (world σ) (progressChan σ) (ctxDone σ)
                   (logged σ ++ [LogSkipped p]))
| step_forward σ p rest :
    progressChan σ = p :: rest ->
    step σ (mkPool (jobsChan σ) (workers σ) (completed σ)
                   (variants σ) (world σ) rest (ctxDone σ) (logged σ))
| step_cancel σ :
    ctxDone σ = false ->
    step σ (mkPool (jobsChan σ) (workers σ) (completed σ)
                   (variants σ) (world σ) (progressChan σ) true (logged σ)).

(** [wg.Wait()] returns: every worker has returned. *)
Definition returned (σ : pool W) : Prop := Forall (eq Returned) (workers σ).

End Pool.

(** The pool at the call of [processConversions jobs]: the channel filled
    with the jobs and closed, [n] workers started, the counter at zero. *)
Definition pool_start {W} (jobs : list ConversionJob) (n : nat)
    (vs : gmap string FontVariant) (w : W) (chan : list ConversionProgress)
    (done : bool) (log : list logline) : pool W :=
  mkPool jobs (replicate n Ranging) 0 vs w chan done log.

(** [processConversions]: a run of the pool from its start to the return
    of [wg.Wait()]. *)
Definition processConversions {W} (numCPU : Z) (cfg : Config)
    (jobs : list ConversionJob)
    (converter : string -> string -> W -> result FontProcessError string * W)
    (vs : gmap string FontVariant) (w : W) (chan : list ConversionProgress)
    (done : bool) (log : list logline) (σ : pool W) : Prop :=
  rtc (step converter (length jobs))
      (pool_start jobs (Z.to_nat (numWorkers numCPU cfg)) vs w chan done log) σ
  /\ returned σ.

(** The conversions that a log reports, in order, and their effect on the
    variants. *)
Definition conversions (log : list logline)
  : list (ConversionJob * result FontProcessError string) :=
  flat_map (fun l => match l with LogConverted job r => [(job, r)] | _ => [] end) log.

Definition cancelled_jobs (log : list logline) : list ConversionJob :=
  flat_map (fun l => match l with LogCancelled job => [job] | _ => [] end) log.

Definition replay (cs : list (ConversionJob * result FontProcessError string))
    (vs : gmap string FontVariant) : gmap string FontVariant :=
  fold_left (fun vs c => on_result c.1 c.2 vs) cs vs.

(** The jobs that workers hold and have not converted yet. *)
Definition in_flight (ws : list worker) : list ConversionJob :=
  flat_map (fun w => match w with
                     | Received job | Converting job => [job]
                     | _ => []
                     end) ws.

(** ** The job planner and [ProcessFonts] *)

(** The job appended at lines 505-512 and 514-521, when the reference
    decodes. *)
Definition compress_job (cfg : Config) (key : string) (v : FontVariant)
    (ref format : string) : list ConversionJob :=
  match decodeFilePath ref with
  | Ok decodedPath =>
      [mkJob key decodedPath format
             (Filepath.JoinConverted (StaticDir cfg) (Name v +:+ ".woff2"))]
  | Failed _ => []
  end.

(** Lines 503-523: what one variant adds to [woff2Jobs]; [key] is where
    the variant is stored, which is what the job points to. *)
Definition plan_woff2 (cfg : Config) (key : string) (v : FontVariant)
  : list ConversionJob :=
  match Location v !! ".woff2" with
  | Some _ => []
  | None =>
      match Location v !! ".ttf" with
      | Some ttfPath => compress_job cfg key v ttfPath ".ttf"
      | None =>
          match Location v !! ".otf" with
          | Some otfPath => compress_job cfg key v otfPath ".otf"
          | None => []
          end
      end
  end.

(** Lines 525-536: what one variant adds to [ttfJobs]. *)
Definition plan_ttf (cfg : Config) (key : string) (v : FontVariant)
  : list ConversionJob :=
  match Location v !! ".woff2" with
  | Some woff2Path =>
      match Location v !! ".ttf" with
      | None =>
          match decodeFilePath woff2Path with
          | Ok decodedPath =>
              [mkJob key decodedPath ".woff2"
                     (Filepath.JoinConverted (StaticDir cfg) (Name v +:+ ".ttf"))]
          | Failed _ => []
          end
      | Some _ => []
      end
  | None => []
  end.

(** The loop of lines 495-537 over the variants in the order [vs] of the
    map iteration; [done i] is whether the context is found done at the
    start of the iteration [i]. *)
Fixpoint planLoop (cfg : Config) (done : nat -> bool) (i : nat)
    (vs : list (string * FontVariant)) (woff2Jobs ttfJobs : list ConversionJob)
  : result FontProcessError (list ConversionJob * list ConversionJob) :=
  match vs with
  | [] => Ok (woff2Jobs, ttfJobs)
  | (key, v) :: vs' =>
      if done i then Failed (mkError "process" "" (Errorf "operation cancelled"))
      else planLoop cfg done (S i) vs'
                    (woff2Jobs ++ plan_woff2 cfg key v) (ttfJobs ++ plan_ttf cfg key v)
  end.

(** Lines 461-471, on what [os.Stat] finds at the root. *)
Definition validate (fontDir : string) (root : fsnode) : option FontProcessError :=
  match root with
  | LstatFail _ ENOENT =>
      Some (mkError "validate" fontDir (Errorf "directory does not exist"))
  | LstatFail _ e => Some (mkError "validate" fontDir (OsCause e))
  | File _ => Some (mkError "validate" fontDir (Errorf "path is not a directory"))
  | Directory _ _ _ => None
  end.

(** Lines 597-604 *)
Definition to_preview (v : FontVariant) : FontPreview :=
  mkPreview (Name v) (PreviewPath v) (Location v).

Section Pipeline.
Variable mkdir_denied : string -> gmap string fsentry -> option oserr.
Variable run_tool :
  invocation -> gmap string fsentry -> option cause * gmap string fsentry.
Variable numCPU : Z.
Variable cfg : Config.

(** [ensureConvertedDir] *)
Definition ensureConvertedDir (w : World) : option oserr * World :=
  MkdirAll mkdir_denied (StaticDir cfg +:+ "/converted") w.

(** Lines 570-574 and 577-587: a batch is run when it has a job. *)
Definition batch
    (converter : string -> string -> World -> result FontProcessError string * World)
    (jobs : list ConversionJob) (before after : pool World) : Prop :=
  match jobs with
  | [] => after = before
  | _ => processConversions numCPU cfg jobs converter (variants before)
           (world before) (progressChan before) (ctxDone before) (logged before)
           after
  end.

(** The runs of [ProcessFonts fontDir] on the tree [root], from the files
    [w] and the log [log]: what it returns, and the files, the log and
    the context it leaves. *)
Inductive ProcessFonts (fontDir : string) (root : fsnode) (w : World)
    (log : list logline)
  : result FontProcessError (list FontPreview) -> World -> list logline
    -> bool -> Prop :=
| ProcessFonts_invalid e done :
    validate fontDir root = Some e ->
    ProcessFonts fontDir root w log (Failed e) w log done
| ProcessFonts_no_dir e w1 done :
    validate fontDir root = None ->
    ensureConvertedDir w = (Some e, w1) ->
    ProcessFonts fontDir root w log
      (Failed (mkError "create_dirs" ""
                 (Wrapped "failed to create converted directory" "" (OsCause e))))
      w1 log done
| ProcessFonts_no_scan w1 e done :
    validate fontDir root = None ->
    ensureConvertedDir w = (None, w1) ->
    findFonts fontDir root = Failed e ->
    ProcessFonts fontDir root w log
      (Failed (mkError "scan" fontDir (Wrapped (Op e) (Path e) (Err e)))) w1 log done
| ProcessFonts_cancelled w1 fs order done e :
    validate fontDir root = None ->
    ensureConvertedDir w = (None, w1) ->
    findFonts fontDir root = Ok fs ->
    order ≡ₚ map_to_list fs ->
    planLoop cfg done 0 order [] [] = Failed e ->
    ProcessFonts fontDir root w log (Failed e) w1 log true
| ProcessFonts_done w1 fs order done woff2Jobs ttfJobs done1 σ1 σ2 order' :
    validate fontDir root = None ->
    ensureConvertedDir w = (None, w1) ->
    findFonts fontDir root = Ok fs ->
    order ≡ₚ map_to_list fs ->
    planLoop cfg done 0 order [] [] = Ok (woff2Jobs, ttfJobs) ->
    batch (convertToWoff2 mkdir_denied run_tool) woff2Jobs
          (mkPool [] [] 0 fs w1 [] done1 log) σ1 ->
    batch (convertToTTF_converter mkdir_denied run_tool) ttfJobs σ1 σ2 ->
    order' ≡ₚ map_to_list (variants σ2) ->
    ProcessFonts fontDir root w log
      (Ok (to_preview <$> order'.*2)) (world σ2) (logged σ2) (ctxDone σ2).

End Pipeline.


(** The schedule in which one worker takes every job in turn and the
    forwarder empties the progress channel before each send: the counter,
    the variants, what the converter acts on, the progress channel and the
    log that it leaves. *)
Fixpoint serve_jobs {W}
    (converter : string -> string -> W -> result FontProcessError string * W)
    (total : nat) (queue : list ConversionJob) (count : nat)
    (vs : gmap string FontVariant) (w : W) (chan : list ConversionProgress)
    (log : list logline)
  : nat * gmap string FontVariant * W * list ConversionProgress * list logline :=
  match queue with
  | [] => (count, vs, w, chan, log)
  | job :: rest =>
      let '(r, w') := converter (sourceFile job) (outputPath job) w in
      let vs' := on_result job r vs in
      let p := progress_of total job (S count) vs' in
      serve_jobs converter total rest (S count) vs' w' [p]
                 ((log ++ [LogConverted job r]) ++ [LogProgress p])
  end.

(** The state in which that schedule returns. *)
Definition served {W}
    (converter : string -> string -> W -> result FontProcessError string * W)
    (jobs : list ConversionJob) (n : nat) (vs : gmap string FontVariant) (w : W)
    (chan : list ConversionProgress) (log : list logline) : pool W :=
  let '(count, vs', w', chan', log') :=
    serve_jobs converter (length jobs) jobs 0 vs w chan log in
  mkPool [] (replicate n Returned) count vs' w' chan' false log'.

(** What a worker has left to do before it ranges over the channel again
    or returns, and what the whole pool has left: five steps for a job in
    the channel, one for every progress event to forward and one for the
    cancellation that can still come. *)
Definition worker_weight (w : worker) : nat :=
  match w with
  | Returned => 0
  | Ranging => 1
  | Reporting _ _ => 3
  | Converting _ => 4
  | Received _ => 5
  end.

Definition pool_measure {W} (σ : pool W) : nat :=
  5 * length (jobsChan σ) + sum_list (worker_weight <$> workers σ)
  + length (progressChan σ) + (if ctxDone σ then 0 else 1).

(** What holds of the pool after any number of steps from its start with
    [jobs], [n] workers, the variants [vs0] and the log [log0]: the
    variants are the replay of the conversions logged since, the counter
    counts them, every job is in the channel, held by a worker, converted or
    cancelled, and as long as the context is not done no job was cancelled
    and no worker returned before the channel was empty. *)
Definition pool_inv {W} (jobs : list ConversionJob) (n : nat)
    (vs0 : gmap string FontVariant) (log0 : list logline) (σ : pool W) : Prop :=
  exists new,
    logged σ = log0 ++ new
    /\ variants σ = replay (conversions new) vs0
    /\ completed σ = length (conversions new)
    /\ jobs ≡ₚ jobsChan σ ++ in_flight (workers σ)
                ++ (conversions new).*1 ++ cancelled_jobs new
    /\ length (workers σ) = n
    /\ (ctxDone σ = false ->
        cancelled_jobs new = [] /\ (Returned ∈ workers σ -> jobsChan σ = [])).

(** ** The pipeline under the one-worker schedule, as a function *)

Section Sequential.
Variable mkdir_denied : string -> gmap string fsentry -> option oserr.
Variable run_tool :
  invocation -> gmap string fsentry -> option cause * gmap string fsentry.
Variable numCPU : Z.
Variable cfg : Config.

Definition sequential_batch
    (converter : string -> string -> World -> result FontProcessError string * World)
    (jobs : list ConversionJob) (before : pool World) : pool World :=
  match jobs with
  | [] => before
  | _ => served converter jobs (Z.to_nat (numWorkers numCPU cfg))
                (variants before) (world before) (progressChan before)
                (logged before)
  end.

(** [ProcessFonts] when the context is never cancelled, the maps are
    iterated in the order of [map_to_list] and each batch runs under the
    schedule of [served]. *)
Definition ProcessFonts_sequential (fontDir : string) (root : fsnode)
    (w : World) (log : list logline)
  : result FontProcessError (list FontPreview) * World * list logline :=
  match validate fontDir root with
  | Some e => (Failed e, w, log)
  | None =>
      match ensureConvertedDir mkdir_denied cfg w with
      | (Some e, w1) =>
          (Failed (mkError "create_dirs" ""
                     (Wrapped "failed to create converted directory" "" (OsCause e))),
           w1, log)
      | (None, w1) =>
          match findFonts fontDir root with
          | Failed e =>
              (Failed (mkError "scan" fontDir (Wrapped (Op e) (Path e) (Err e))),
               w1, log)
          | Ok fs =>
              match planLoop cfg (fun _ => false) 0 (map_to_list fs) [] [] with
              | Failed e => (Failed e, w1, log)
              | Ok (woff2Jobs, ttfJobs) =>
                  let σ1 := sequential_batch
                              (convertToWoff2 mkdir_denied run_tool) woff2Jobs
                              (mkPool [] [] 0 fs w1 [] false log) in
                  let σ2 := sequential_batch
                              (convertToTTF_converter mkdir_denied run_tool)
                              ttfJobs σ1 in
                  (Ok (to_preview <$> (map_to_list (variants σ2)).*2),
                   world σ2, logged σ2)
              end
          end
      end
  end.

End Sequential.

(** ** A directory and a tool to run the pipeline on

    Four fonts: [Arial.ttf], [Broken.otf], [Old.woff] and [Web.woff2].  The
    tool compresses [Arial.ttf], exits with status 1 on [Broken.otf] and
    decompresses [Web.woff2]. *)

Definition demo_root : fsnode :=
  Directory "fonts" None
    [File "fonts/Arial.ttf"; File "fonts/Broken.otf"; File "fonts/Old.woff";
     File "fonts/Web.woff2"].

Definition demo_world : World :=
  mkWorld (list_to_map [("fonts/Arial.ttf", RegularFile "ttf-data");
                        ("fonts/Broken.otf", RegularFile "otf-data");
                        ("fonts/Old.woff", RegularFile "woff-data");
                        ("fonts/Web.woff2", RegularFile "woff2-data")]) [].

Definition demo_tool (call : invocation) (fs : gmap string fsentry)
  : option cause * gmap string fsentry :=
  if bool_decide (program call = "woff2_compress")
     && bool_decide (workdir call = "static/converted")
     && bool_decide (argument call = "Arial.ttf")
  then (None, <["static/converted/Arial.woff2" := RegularFile "wOF2"]> fs)
  else if bool_decide (program call = "woff2_decompress")
          && bool_decide (workdir call = "static/converted")
          && bool_decide (argument call = "Web.woff2")
  then (None, <["static/converted/Web.ttf" := RegularFile "ttf-data"]> fs)
  else (Some (ExitStatus 1 "failed"), fs).

Definition demo_cfg : Config := mkConfig "static" 4.

Definition demo_run
  : result FontProcessError (list FontPreview) * World * list logline :=
  ProcessFonts_sequential (fun _ _ => None) demo_tool 8 demo_cfg
                          "fonts" demo_root demo_world [].

(** The results that the run gives. *)
Definition demo_results : list FontPreview :=
  [mkPreview "Old" (downloadURL "fonts/Old.woff")
             {[ ".woff" := downloadURL "fonts/Old.woff" ]};
   mkPreview "Web" (downloadURL "fonts/Web.woff2")
             (<[ ".ttf" := "/download?path=static%2Fconverted%2FWeb.ttf&filename=Web.ttf" ]>
                {[ ".woff2" := downloadURL "fonts/Web.woff2" ]});
   mkPreview "Arial" (downloadURL "fonts/Arial.ttf")
             (<[ ".woff2" :=
                   "/download?path=static%2Fconverted%2FArial.woff2&filename=Arial.woff2" ]>
                {[ ".ttf" := downloadURL "fonts/Arial.ttf" ]});
   mkPreview "Broken" (downloadURL "fonts/Broken.otf")
             {[ ".otf" := downloadURL "fonts/Broken.otf" ]}].

Definition demo_fonts : gmap string FontVariant :=
  scan_fonts (font_paths (seen_of demo_root)).




(** ** What the pool reports

    The progress events that a log reports, sent or skipped, in order. *)
Definition progress_events (log : list logline) : list ConversionProgress :=
  flat_map (fun l => match l with
                     | LogProgress p | LogSkipped p => [p]
                     | _ => []
                     end) log.

(** The counts that workers hold between the increment of line 434 and
    the [select] of line 435. *)
Definition reporting (ws : list worker) : list nat :=
  flat_map (fun w => match w with Reporting _ current => [current] | _ => [] end) ws.

(** A worker that is not between the call of the converter and the
    report of its count. *)
Definition idle (w : worker) : bool :=
  match w with
  | Converting _ | Reporting _ _ => false
  | _ => true
  end.

Definition returned_count (ws : list worker) : nat :=
  sum_list ((fun w => match w with Returned => 1 | _ => 0 end) <$> ws).

(** The two stages that a progress event can name. *)
Definition conversion_stage (stage : string) : Prop :=
  stage = "Converting to WOFF2" \/ stage = "Converting to TTF".

(** What holds of the pool at any time when it was started with the
    context done, the variants [vs0], the files [w0] and the log
    [log0]. *)
Definition cancelled_inv {W} (vs0 : gmap string FontVariant) (w0 : W)
    (log0 : list logline) (σ : pool W) : Prop :=
  ctxDone σ = true
  /\ Forall (fun w => idle w = true) (workers σ)
  /\ completed σ = 0 /\ variants σ = vs0 /\ world σ = w0
  /\ exists new,
       logged σ = log0 ++ new
       /\ conversions new = []
       /\ progress_events new = []
       /\ length (cancelled_jobs new) <= returned_count (workers σ).

(** What holds of the progress events at any time: they carry the total
    of the batch and one of the two stages, the counts that are held or
    reported are pairwise distinct and between one and the counter, and
    as long as the context is not done every count was reported or is
    held. *)
Definition progress_inv {W} (log0 : list logline) (total : nat) (σ : pool W)
  : Prop :=
  exists new,
    logged σ = log0 ++ new
    /\ Forall (fun p => Total p = total /\ conversion_stage (Stage p))
              (progress_events new)
    /\ NoDup (reporting (workers σ) ++ (Current <$> progress_events new))
    /\ Forall (fun c => 1 <= c <= completed σ)
              (reporting (workers σ) ++ (Current <$> progress_events new))
    /\ (ctxDone σ = false ->
        length (reporting (workers σ)) + length (progress_events new)
        = completed σ).

(** ** The download handlers *)

(** [getMIMEType] of [server.go]. *)
Definition getMIMEType (ext : string) : string :=
  let lowered := GoString.ToLower ext in
  if bool_decide (lowered = ".ttf") then "font/ttf"
  else if bool_decide (lowered = ".otf") then "font/otf"
  else if bool_decide (lowered = ".woff") then "font/woff"
  else if bool_decide (lowered = ".woff2") then "font/woff2"
  else "application/octet-stream".

(** [strings.ReplaceAll(name, " ", "_")] *)
Fixpoint sanitize (name : string) : string :=
  match name with
  | EmptyString => EmptyString
  | String c rest =>
      String (if Ascii.eqb c " " then "_"%char else c) (sanitize rest)
  end.

(** The fonts of the request body of [handleDownloadAll]: a name and the
    formats with their references, in the order in which the map of
    formats is iterated. *)
Record RequestFont : Type := mkRequestFont {
  request_name : string;
  request_formats : list (string * string)
}.

(** What the loop of [handleDownloadAll] keeps: the names it has seen
    and the entries it has created in the archive, each with the file it
    was filled from. *)
Record Archive : Type := mkArchive {
  existingFiles : gset string;
  zip_entries : list (string * string)
}.

Section DownloadAll.

(** Lines 67-112: the file that is opened for a reference, when the
    reference parses, has a [path] parameter that decodes and one of the
    five candidate paths opens. *)
Variable locate : string -> option string.

(** Whether [zipWriter.Create] fails for a name. *)
Variable create_fails : string -> bool.

(** Lines 66-139, one iteration of the inner loop. *)
Definition add_format (name : string) (a : Archive) (entry : string * string)
  : Archive :=
  let '(format, encodedPath) := entry in
  match locate encodedPath with
  | None => a
  | Some foundPath =>
      let zipEntryName := sanitize name +:+ format in
      if bool_decide (zipEntryName ∈ existingFiles a) then a
      else
        let seen := {[ zipEntryName ]} ∪ existingFiles a in
        if create_fails zipEntryName then mkArchive seen (zip_entries a)
        else mkArchive seen (zip_entries a ++ [(zipEntryName, foundPath)])
  end.

(** The inner loop, for one font of the request. *)
Definition add_font (a : Archive) (font : RequestFont) : Archive :=
  fold_left (add_format (request_name font)) (request_formats font) a.

(** Lines 59-140: the archive after the loop over the fonts. *)
Definition add_fonts (fonts : list RequestFont) : Archive :=
  fold_left add_font fonts (mkArchive ∅ []).

End DownloadAll.

(** ** Runs in a row *)








(** ** Programs that may not exit

    What the external program does when it is started: [None] when it
    never exits ([cmd.CombinedOutput] has no timeout, lines 202 and
    267), else its error and the files that it leaves. *)
Definition tool_behaviour : Type :=
  invocation -> gmap string fsentry
  -> option (option cause * gmap string fsentry).

(** The program exits on every invocation, with the outcomes that
    [run_tool] gives. *)
Definition always_exits (tool : tool_behaviour)
    (run_tool : invocation -> gmap string fsentry
                -> option cause * gmap string fsentry) : Prop :=
  forall call fs, tool call fs = Some (run_tool call fs).

(** * Properties *)

(** ** The scanner *)

(** Induction on trees, with the hypothesis for every entry of a
    directory. *)
Lemma fsnode_ind_entries (P : fsnode -> Prop) :
  (forall path e, P (LstatFail path e)) ->
  (forall path, P (File path)) ->
  (forall path readErr entries,
      Forall P entries -> P (Directory path readErr entries)) ->
  forall n, P n.
Proof.
  intros Hl Hf Hd. fix IH 1. intros [path e|path|path readErr entries].
  - apply Hl.
  - apply Hf.
  - apply Hd. induction entries as [|c cs IHcs]; constructor.
    + apply IH.
    + exact IHcs.
Qed.

Lemma visit_ret path info err st :
  snd (visit path info err st) = WNil
  \/ (snd (visit path info err st) = SkipDir /\ is_Some err).
Proof.
  unfold visit. destruct err as [e|].
  - destruct (IsPermission e); simpl; eauto.
  - left. destruct info as [i|]; [|done].
    by destruct (negb (IsDir i) && isFontExt (fontExt path)).
Qed.

Lemma walk_entries_visit (ns : list fsnode) :
  Forall (fun n => forall st, exists r,
              walk visit n st = (fold_left see (seen_of n) st, r)
              /\ loop_returns n r = false) ns ->
  forall st, walk_entries (walk visit) ns st
             = (fold_left see (flat_map seen_of ns) st, WNil).
Proof.
  induction 1 as [|c cs Hc _ IH]; intros st; simpl; [done|].
  destruct (Hc st) as (r & -> & ->).
  rewrite fold_left_app. apply IH.
Qed.

Lemma walk_visit (n : fsnode) :
  forall st, exists r,
    walk visit n st = (fold_left see (seen_of n) st, r)
    /\ loop_returns n r = false.
Proof.
  induction n as [path e|path|path readErr entries IH] using fsnode_ind_entries;
    intros st.
  - exists (snd (visit path None (Some e) st)). split.
    + apply surjective_pairing.
    + unfold loop_returns.
      by destruct (visit_ret path None (Some e) st) as [->|[-> _]].
  - exists (snd (visit path (Some (mkInfo false)) None st)). split.
    + apply surjective_pairing.
    + unfold loop_returns.
      destruct (visit_ret path (Some (mkInfo false)) None st) as [->|[_ [? ?]]];
        done.
  - destruct readErr as [e|].
    + exists (snd (visit path (Some (mkInfo true)) (Some e) st)). split.
      * simpl. unfold visit. destruct (IsPermission e); [done|].
        by destruct (walkErr st).
      * unfold loop_returns.
        by destruct (visit_ret path (Some (mkInfo true)) (Some e) st) as [->|[-> _]].
    + exists WNil. split; [|done].
      simpl. rewrite (walk_entries_visit _ IH). done.
Qed.

Lemma Walk_visit (root : fsnode) (st : scan) :
  Walk visit root st = (fold_left see (seen_of root) st, None).
Proof.
  unfold Walk. destruct (walk_visit root st) as (r & -> & Hr). f_equal.
  destruct r; try done. by destruct root.
Qed.

Lemma see_fonts st s :
  fonts (see st s)
  = fold_left (fun fs p => record_font p fs) (font_paths [s]) (fonts st).
Proof.
  destruct s as [path|path|path e]; unfold see, visit, font_paths; simpl.
  - by destruct (isFontExt (fontExt path)).
  - done.
  - destruct (IsPermission e); [done|]. by destruct (walkErr st).
Qed.

Lemma font_paths_app l1 l2 : font_paths (l1 ++ l2) = font_paths l1 ++ font_paths l2.
Proof. apply flat_map_app. Qed.

Lemma other_errors_app l1 l2 :
  other_errors (l1 ++ l2) = other_errors l1 ++ other_errors l2.
Proof. apply flat_map_app. Qed.

Lemma fold_see_fonts l st :
  fonts (fold_left see l st)
  = fold_left (fun fs p => record_font p fs) (font_paths l) (fonts st).
Proof.
  revert st. induction l as [|s l IH]; intros st; [done|].
  change (s :: l) with ([s] ++ l). rewrite font_paths_app, !fold_left_app.
  rewrite IH. f_equal. apply see_fonts.
Qed.

Lemma fold_see_walkErr l st :
  walkErr (fold_left see l st)
  = match walkErr st with
    | Some e => Some e
    | None => access_error <$> head (other_errors l)
    end.
Proof.
  revert st. induction l as [|s l IH]; intros st; simpl.
  - by destruct (walkErr st).
  - rewrite IH. destruct s as [path|path|path e]; unfold see, visit; simpl.
    + by destruct (isFontExt (fontExt path)).
    + done.
    + destruct (IsPermission e); simpl; [done|].
      destruct (walkErr st) eqn:E; simpl; by rewrite ?E.
Qed.

(** [findFonts] in terms of what the walk meets. *)
Lemma findFonts_seen rootPath root :
  findFonts rootPath root
  = match head (other_errors (seen_of root)) with
    | Some pe => Failed (access_error pe)
    | None =>
        let fs := scan_fonts (font_paths (seen_of root)) in
        if bool_decide (size fs = 0)
        then Failed (mkError "scan" rootPath
                             (Errorf "no font files found in directory"))
        else Ok fs
    end.
Proof.
  unfold findFonts. rewrite Walk_visit, fold_see_walkErr, fold_see_fonts. simpl.
  by destruct (head _).
Qed.

(** Pruning the entries hidden by a permission error changes neither the
    font files met nor the other errors. *)
Lemma prune_seen (n : fsnode) :
  match prune n with
  | Some n' => font_paths (seen_of n') = font_paths (seen_of n)
               /\ other_errors (seen_of n') = other_errors (seen_of n)
  | None => font_paths (seen_of n) = [] /\ other_errors (seen_of n) = []
  end.
Proof.
  induction n as [path e|path|path readErr entries IH] using fsnode_ind_entries.
  - simpl. unfold other_errors. simpl. by destruct (IsPermission e) eqn:E; simpl; rewrite ?E.
  - done.
  - destruct readErr as [e|].
    + simpl. unfold other_errors. simpl.
      by destruct (IsPermission e) eqn:E; simpl; rewrite ?E.
    + cbn [prune seen_of].
      enough (font_paths (flat_map seen_of (omap prune entries))
              = font_paths (flat_map seen_of entries)
              /\ other_errors (flat_map seen_of (omap prune entries))
                 = other_errors (flat_map seen_of entries)) as [E1 E2].
      { split.
        - change (font_paths (SeenDir path :: ?l)) with (font_paths l). apply E1.
        - change (other_errors (SeenDir path :: ?l)) with (other_errors l). apply E2. }
      induction IH as [|c cs Hc _ IHcs]; [done|].
      cbn [omap list_omap flat_map]. rewrite font_paths_app, other_errors_app.
      destruct IHcs as [IH1 IH2]. destruct (prune c) as [c'|]; cbn [flat_map].
      * rewrite font_paths_app, other_errors_app.
        destruct Hc as [-> ->]. by rewrite IH1, IH2.
      * destruct Hc as [-> ->]. by rewrite IH1, IH2.
Qed.

(** C6. During the walk a permission error on an entry only hides that
    entry and what is below it: the scan returns what it returns on the tree
    without the hidden entries (and the "no font files" failure when the
    root itself is hidden).  Any other error makes the scan fail with the
    [access] error of the first such entry in the order of the walk,
    whatever errors follow it. *)
Theorem findFonts_walk_errors (rootPath : string) (root : fsnode) :
  (forall root', prune root = Some root' ->
                 findFonts rootPath root = findFonts rootPath root')
  /\ (prune root = None ->
      findFonts rootPath root
      = Failed (mkError "scan" rootPath (Errorf "no font files found in directory")))
  /\ (forall path e rest,
        other_errors (seen_of root) = (path, e) :: rest ->
        IsPermission e = false
        /\ findFonts rootPath root = Failed (mkError "access" path (OsCause e))).
Proof.
  split; [|split].
  - intros root' Hp. pose proof (prune_seen root) as H. rewrite Hp in H.
    destruct H as [H1 H2]. by rewrite !findFonts_seen, H1, H2.
  - intros Hp. pose proof (prune_seen root) as H. rewrite Hp in H.
    destruct H as [H1 H2]. by rewrite findFonts_seen, H1, H2.
  - intros path e rest He. split.
    + assert (Hin : In (path, e) (other_errors (seen_of root)))
        by (rewrite He; left; done).
      unfold other_errors in Hin. apply in_flat_map in Hin as (s & _ & Hs).
      destruct s as [?|?|p' e']; try done.
      destruct (IsPermission e') eqn:E; [done|].
      destruct Hs as [[= <- <-]|[]]. done.
    + by rewrite findFonts_seen, He.
Qed.

Lemma findFonts_walk_errors_witness :
  let denied := Directory "fonts/b" (Some EACCES) [File "fonts/b/Hidden.ttf"] in
  let before := File "fonts/a.ttf" in
  let after := Directory "fonts/c" None [File "fonts/c/Late.woff2"] in
  findFonts "fonts" (Directory "fonts" None [before; denied; after])
  = findFonts "fonts" (Directory "fonts" None [before; after])
  /\ findFonts "fonts" (LstatFail "fonts" EPERM)
     = Failed (mkError "scan" "fonts" (Errorf "no font files found in directory"))
  /\ findFonts "fonts" (Directory "fonts" None
                          [before; LstatFail "fonts/x" EACCES; LstatFail "fonts/y" EIO;
                           Directory "fonts/z" (Some ENOENT) []; after])
     = Failed (mkError "access" "fonts/y" (OsCause EIO)).
Proof.
  intros denied before after. split; [|split].
  - by apply (proj1 (findFonts_walk_errors "fonts"
                       (Directory "fonts" None [before; denied; after]))).
  - by apply (proj1 (proj2 (findFonts_walk_errors "fonts" (LstatFail "fonts" EPERM)))).
  - by apply (proj2 (proj2 (findFonts_walk_errors "fonts" _))
                    "fonts/y" EIO [("fonts/z", ENOENT)]).
Defined.

(** ** What the scanner records *)

Lemma downloadURL_nonempty path : downloadURL path <> "".
Proof. done. Qed.

Lemma scan_fonts_snoc ps p : scan_fonts (ps ++ [p]) = record_font p (scan_fonts ps).
Proof. unfold scan_fonts. by rewrite fold_left_app. Qed.

Lemma record_font_same p fs :
  exists v, record_font p fs !! baseName p = Some v
    /\ Name v = Name (default (mkVariant (baseName p) ∅ "") (fs !! baseName p))
    /\ Location v
       = <[fontExt p := downloadURL p]>
           (Location (default (mkVariant (baseName p) ∅ "") (fs !! baseName p)))
    /\ PreviewPath v
       = let old := PreviewPath (default (mkVariant (baseName p) ∅ "")
                                         (fs !! baseName p)) in
         if bool_decide (fontExt p = ".woff2") then downloadURL p
         else if isFontExt (fontExt p) && bool_decide (old = "")
              then downloadURL p else old.
Proof.
  unfold record_font. rewrite lookup_insert_eq. eexists. split; [done|].
  simpl. repeat split. unfold isFontExt.
  destruct (bool_decide (fontExt p = ".woff2")) eqn:E2; [done|].
  destruct (bool_decide (fontExt p = ".woff")), (bool_decide (fontExt p = ".ttf")),
    (bool_decide (fontExt p = ".otf")), (bool_decide (PreviewPath _ = "")); done.
Qed.

Lemma record_font_other p fs name :
  name <> baseName p -> record_font p fs !! name = fs !! name.
Proof. intros Hne. unfold record_font. by rewrite lookup_insert_ne. Qed.

Lemma font_paths_ext l : Forall (fun p => isFontExt (fontExt p) = true) (font_paths l).
Proof.
  induction l as [|s l IH]; [constructor|].
  change (s :: l) with ([s] ++ l). rewrite font_paths_app.
  apply Forall_app. split; [|done].
  destruct s as [path| |]; unfold font_paths; simpl; try constructor.
  destruct (isFontExt (fontExt path)) eqn:E; repeat constructor. done.
Qed.

Lemma files_of_snoc name ps p :
  files_of name (ps ++ [p])
  = files_of name ps ++ (if decide (baseName p = name) then [p] else []).
Proof.
  unfold files_of. by rewrite filter_app.
Qed.

Lemma preview_choice_empty mine : preview_choice mine = "" <-> mine = [].
Proof.
  unfold preview_choice. split.
  - destruct (last _); [done|]. by destruct mine.
  - by intros ->.
Qed.

Lemma preview_choice_snoc mine p :
  preview_choice (mine ++ [p])
  = if bool_decide (fontExt p = ".woff2") then downloadURL p
    else if bool_decide (preview_choice mine = "") then downloadURL p
         else preview_choice mine.
Proof.
  case_bool_decide as E2.
  - unfold preview_choice. rewrite filter_app, filter_cons_True, filter_nil by done.
    by rewrite last_snoc.
  - case_bool_decide as E.
    + apply preview_choice_empty in E as ->. unfold preview_choice. simpl.
      by rewrite filter_cons_False.
    + unfold preview_choice.
      rewrite filter_app, filter_cons_False, filter_nil, app_nil_r by done.
      destruct (last _); [done|].
      rewrite head_snoc. destruct mine; [|done].
      by destruct E.
Qed.

(** The preview of every scanned variant is the choice of line 330 among
    its files, and a variant exists exactly when it has a file. *)
Lemma scan_fonts_preview ps :
  Forall (fun p => isFontExt (fontExt p) = true) ps ->
  forall name,
    match scan_fonts ps !! name with
    | Some v => PreviewPath v = preview_choice (files_of name ps)
                /\ files_of name ps <> []
    | None => files_of name ps = []
    end.
Proof.
  induction ps as [|p ps IH] using rev_ind; intros Hext name.
  - change (scan_fonts []) with (∅ : gmap string FontVariant).
    by rewrite lookup_empty.
  - apply Forall_app in Hext as [Hps Hp]. apply Forall_inv in Hp.
    specialize (IH Hps). rewrite scan_fonts_snoc, files_of_snoc.
    destruct (decide (baseName p = name)) as [<-|Hne].
    + destruct (record_font_same p (scan_fonts ps)) as (v & -> & _ & _ & Hprev).
      split; [|by destruct (files_of _ ps)].
      rewrite Hprev, preview_choice_snoc, Hp. simpl.
      specialize (IH (baseName p)).
      destruct (scan_fonts ps !! baseName p) as [v0|]; simpl.
      * destruct IH as [-> _]. done.
      * by rewrite IH.
    + rewrite record_font_other by done. rewrite app_nil_r. apply IH.
Qed.

Lemma scan_fonts_scanned ps :
  Forall (fun p => isFontExt (fontExt p) = true) ps -> scanned (scan_fonts ps).
Proof.
  induction ps as [|p ps IH] using rev_ind; intros Hext name v Hv.
  - change (scan_fonts []) with (∅ : gmap string FontVariant) in Hv.
    by rewrite lookup_empty in Hv.
  - apply Forall_app in Hext as [Hps Hp]. apply Forall_inv in Hp.
    specialize (IH Hps). rewrite scan_fonts_snoc in Hv.
    destruct (decide (name = baseName p)) as [->|Hne].
    + destruct (record_font_same p (scan_fonts ps)) as (v' & Hv' & Hn & Hl & Hprev).
      rewrite Hv' in Hv. injection Hv as <-.
      assert (Hold : scan_fonts ps !! baseName p = None
                     \/ exists v0, scan_fonts ps !! baseName p = Some v0
                                   /\ scanned_variant (baseName p) v0).
      { destruct (scan_fonts ps !! baseName p) as [v0|] eqn:E; [right|by left].
        exists v0. split; [done|]. by apply IH. }
      split.
      * rewrite Hn. destruct Hold as [->|(v0 & -> & [? _ _ _])]; done.
      * rewrite Hprev. simpl. case_bool_decide; [done|]. rewrite Hp. simpl.
        case_bool_decide as E; [done|].
        destruct Hold as [E0|(v0 & E0 & [_ ? _ _])]; rewrite E0 in E |- *; done.
      * intros ext ref. rewrite Hl.
        destruct (decide (fontExt p = ext)) as [<-|Hne].
        -- rewrite lookup_insert_eq. intros [= <-]. eauto.
        -- rewrite lookup_insert_ne by done.
           destruct Hold as [->|(v0 & -> & [_ _ Hloc _])]; simpl; [done|].
           apply Hloc.
      * rewrite Hl. apply insert_non_empty.
    + rewrite record_font_other in Hv by done. by apply IH.
Qed.

Lemma findFonts_Ok rootPath root fs :
  findFonts rootPath root = Ok fs ->
  fs = scan_fonts (font_paths (seen_of root)) /\ scanned fs.
Proof.
  rewrite findFonts_seen. destruct (head _); [done|]. simpl.
  case_bool_decide; [done|]. intros [= <-]. split; [done|].
  apply scan_fonts_scanned, font_paths_ext.
Qed.

(** The reference that [p] left under its extension survives the files
    that have another stem or another extension. *)
Lemma scan_fonts_location l1 p l2 :
  Forall (fun q => ~ (baseName q = baseName p /\ fontExt q = fontExt p)) l2 ->
  exists v, scan_fonts (l1 ++ p :: l2) !! baseName p = Some v
            /\ Location v !! fontExt p = Some (downloadURL p).
Proof.
  induction l2 as [|q l2 IH] using rev_ind; intros Hl2.
  - rewrite scan_fonts_snoc.
    destruct (record_font_same p (scan_fonts l1)) as (v & Hv & _ & Hl & _).
    exists v. split; [done|]. by rewrite Hl, lookup_insert_eq.
  - apply Forall_app in Hl2 as [Hl2 Hq]. apply Forall_inv in Hq.
    destruct (IH Hl2) as (v & Hv & Hloc).
    replace (l1 ++ p :: l2 ++ [q]) with ((l1 ++ p :: l2) ++ [q])
      by (by rewrite <- app_assoc).
    rewrite scan_fonts_snoc.
    destruct (decide (baseName p = baseName q)) as [E|Hne].
    + destruct (record_font_same q (scan_fonts (l1 ++ p :: l2)))
        as (v' & Hv' & _ & Hl & _).
      rewrite E. exists v'. split; [done|].
      rewrite Hl, <- E, Hv. simpl. rewrite lookup_insert_ne; [done|].
      intros E'. apply Hq. by split.
    + rewrite record_font_other by done. eauto.
Qed.

(** C2 (as stated, refuted).  Two files of the same stem and extension in
    two directories: the reference kept for the extension is the one of the
    file met last, not of the file met first. *)
Lemma first_seen_reference_overwritten :
  let first := "fonts/a/Arial.ttf" in
  let second := "fonts/b/Arial.ttf" in
  let root := Directory "fonts" None
                [Directory "fonts/a" None [File first];
                 Directory "fonts/b" None [File second]] in
  font_paths (seen_of root) = [first; second]
  /\ baseName first = baseName second
  /\ fontExt first = fontExt second
  /\ exists fs v,
      findFonts "fonts" root = Ok fs
      /\ fs !! "Arial" = Some v
      /\ Location v !! ".ttf" = Some (downloadURL second)
      /\ Location v !! ".ttf" <> Some (downloadURL first).
Proof.
  intros first second root.
  split; [reflexivity|]. split; [reflexivity|]. split; [reflexivity|].
  exists (scan_fonts [first; second]),
    (mkVariant "Arial" {[ ".ttf" := downloadURL second ]} (downloadURL first)).
  split; [vm_compute; reflexivity|]. split; [vm_compute; reflexivity|].
  split; [vm_compute; reflexivity|]. vm_compute. discriminate.
Qed.

(** C2 (amended).  After a successful scan the reference recorded under the
    extension of a font file is its own whenever no file with the same stem
    and the same lowered extension is met after it: the last file met wins
    and overwrites the references of the earlier ones. *)
Theorem last_seen_reference_wins rootPath root fs before p after :
  findFonts rootPath root = Ok fs ->
  font_paths (seen_of root) = before ++ p :: after ->
  Forall (fun q => ~ (baseName q = baseName p /\ fontExt q = fontExt p)) after ->
  exists v, fs !! baseName p = Some v
            /\ Location v !! fontExt p = Some (downloadURL p).
Proof.
  intros Hscan Hpaths Hafter. apply findFonts_Ok in Hscan as [-> _].
  rewrite Hpaths. by apply scan_fonts_location.
Qed.

Lemma last_seen_reference_wins_witness :
  exists v,
    scan_fonts ["fonts/a/Arial.ttf"; "fonts/b/Arial.ttf"; "fonts/b/Arial.woff"]
      !! "Arial" = Some v
    /\ Location v !! ".ttf" = Some (downloadURL "fonts/b/Arial.ttf").
Proof.
  apply (last_seen_reference_wins "fonts"
           (Directory "fonts" None
              [Directory "fonts/a" None [File "fonts/a/Arial.ttf"];
               Directory "fonts/b" None [File "fonts/b/Arial.ttf";
                                         File "fonts/b/Arial.woff"]])
           _ ["fonts/a/Arial.ttf"] "fonts/b/Arial.ttf" ["fonts/b/Arial.woff"]).
  - vm_compute. reflexivity.
  - vm_compute. reflexivity.
  - repeat constructor. intros [_ E]. vm_compute in E. discriminate.
Defined.

(** C3 (as stated, refuted).  A directory with [Arial.ttf] and [Arial.woff]
    and no [.woff2]: the walk meets the [.ttf] first and the preview is its
    reference, not the reference of the [.woff]. *)
Lemma woff_does_not_outrank_ttf :
  let root := Directory "fonts" None
                [File "fonts/Arial.ttf"; File "fonts/Arial.woff"] in
  exists fs v,
    findFonts "fonts" root = Ok fs
    /\ fs !! "Arial" = Some v
    /\ Location v !! ".woff" = Some (downloadURL "fonts/Arial.woff")
    /\ Location v !! ".ttf" = Some (downloadURL "fonts/Arial.ttf")
    /\ Location v !! ".woff2" = None
    /\ PreviewPath v = downloadURL "fonts/Arial.ttf"
    /\ PreviewPath v <> downloadURL "fonts/Arial.woff".
Proof.
  intros root.
  exists (scan_fonts ["fonts/Arial.ttf"; "fonts/Arial.woff"]),
    (mkVariant "Arial"
       (<[ ".woff" := downloadURL "fonts/Arial.woff" ]>
          {[ ".ttf" := downloadURL "fonts/Arial.ttf" ]})
       (downloadURL "fonts/Arial.ttf")).
  split; [vm_compute; reflexivity|]. split; [vm_compute; reflexivity|].
  split; [vm_compute; reflexivity|]. split; [vm_compute; reflexivity|].
  split; [vm_compute; reflexivity|]. split; [vm_compute; reflexivity|].
  vm_compute. discriminate.
Qed.

(** C3 (amended).  At discovery the preview of a variant is the reference
    of its last-met [.woff2] file when it has one; otherwise it is the
    reference of the first file met for the variant, whichever of [.woff],
    [.ttf] and [.otf] that file is. *)
Theorem preview_chosen_at_discovery rootPath root fs name v :
  findFonts rootPath root = Ok fs ->
  fs !! name = Some v ->
  let mine := files_of name (font_paths (seen_of root)) in
  (forall p, last (filter (fun q => fontExt q = ".woff2") mine) = Some p ->
             PreviewPath v = downloadURL p)
  /\ (filter (fun q => fontExt q = ".woff2") mine = [] ->
      exists p, head mine = Some p /\ PreviewPath v = downloadURL p).
Proof.
  intros Hscan Hv mine. apply findFonts_Ok in Hscan as [-> _].
  pose proof (scan_fonts_preview _ (font_paths_ext (seen_of root)) name) as H.
  rewrite Hv in H. destruct H as [Hprev Hne]. fold mine in Hprev, Hne.
  unfold preview_choice in Hprev. split.
  - intros p Hp. by rewrite Hp in Hprev.
  - intros Hnone. rewrite Hnone in Hprev. simpl in Hprev.
    destruct mine as [|p rest]; [done|]. by exists p.
Qed.

Lemma preview_chosen_at_discovery_witness :
  let root := Directory "fonts" None
                [File "fonts/Arial.otf"; File "fonts/Arial.woff";
                 File "fonts/Bold.WOFF2"; File "fonts/Bold.ttf"] in
  exists v, scan_fonts (font_paths (seen_of root)) !! "Arial" = Some v
            /\ PreviewPath v = downloadURL "fonts/Arial.otf".
Proof.
  intros root. eexists. split; [vm_compute; reflexivity|].
  destruct (preview_chosen_at_discovery "fonts" root
              (scan_fonts (font_paths (seen_of root))) "Arial"
              _ ltac:(vm_compute; reflexivity) ltac:(vm_compute; reflexivity))
    as [_ H].
  destruct (H ltac:(vm_compute; reflexivity)) as (p & Hp & ->).
  vm_compute in Hp. by injection Hp as <-.
Defined.

(** ** The worker pool *)

Lemma in_flight_app ws1 ws2 : in_flight (ws1 ++ ws2) = in_flight ws1 ++ in_flight ws2.
Proof. apply flat_map_app. Qed.

Lemma in_flight_insert (ws : list worker) (i : nat) w w' :
  ws !! i = Some w ->
  in_flight [w] ++ in_flight (<[i := w']> ws) ≡ₚ in_flight [w'] ++ in_flight ws.
Proof.
  intros Hi. pose proof (lookup_lt_Some _ _ _ Hi) as Hlt.
  rewrite insert_take_drop by done.
  rewrite <- (take_drop_middle ws i w Hi) at 3.
  change (w' :: drop (S i) ws) with ([w'] ++ drop (S i) ws).
  change (w :: drop (S i) ws) with ([w] ++ drop (S i) ws).
  rewrite !in_flight_app. solve_Permutation.
Qed.

Lemma in_flight_replicate_Ranging n : in_flight (replicate n Ranging) = [].
Proof. induction n; [done|]. simpl. done. Qed.

Lemma in_flight_returned ws : Forall (eq Returned) ws -> in_flight ws = [].
Proof. induction 1 as [|w ws <- _ IH]; [done|]. done. Qed.

Lemma conversions_snoc log l :
  conversions (log ++ [l])
  = conversions log ++ match l with LogConverted job r => [(job, r)] | _ => [] end.
Proof. unfold conversions. rewrite flat_map_app. simpl. by rewrite app_nil_r. Qed.

Lemma cancelled_jobs_snoc log l :
  cancelled_jobs (log ++ [l])
  = cancelled_jobs log ++ match l with LogCancelled job => [job] | _ => [] end.
Proof. unfold cancelled_jobs. rewrite flat_map_app. simpl. by rewrite app_nil_r. Qed.

Lemma replay_snoc cs job r vs :
  replay (cs ++ [(job, r)]) vs = on_result job r (replay cs vs).
Proof. unfold replay. by rewrite fold_left_app. Qed.

Lemma Returned_insert (ws : list worker) (i : nat) (w : worker) :
  Returned ∈ <[i := w]> ws -> w = Returned \/ Returned ∈ ws.
Proof.
  intros [j Hj]%list_elem_of_lookup.
  apply list_lookup_insert_Some in Hj as [(-> & <- & _)|(_ & Hj)]; [by left|].
  right. apply list_elem_of_lookup. eauto.
Qed.

Lemma weight_insert (ws : list worker) (i : nat) w w' :
  ws !! i = Some w ->
  sum_list (worker_weight <$> <[i := w']> ws) + worker_weight w
  = sum_list (worker_weight <$> ws) + worker_weight w'.
Proof.
  revert i. induction ws as [|x ws IH]; intros [|i] Hi; try done.
  - injection Hi as ->. csimpl. lia.
  - csimpl in *. specialize (IH i Hi). lia.
Qed.

(** Either every worker has returned or one has not. *)
Lemma busy_worker (ws : list worker) :
  Forall (eq Returned) ws \/ exists i w, ws !! i = Some w /\ w <> Returned.
Proof.
  induction ws as [|x ws [IH|(i & w & Hi & Hw)]].
  - left. constructor.
  - destruct x; try (right; by eexists 0, _). left. by constructor.
  - right. by exists (S i), w.
Qed.

Section PoolRuns.
Context {W : Type}.
Variable converter : string -> string -> W -> result FontProcessError string * W.
Variable jobs : list ConversionJob.
Variable n : nat.
Variable vs0 : gmap string FontVariant.
Variable w0 : W.
Variable chan0 : list ConversionProgress.
Variable done0 : bool.
Variable log0 : list logline.

Lemma pool_inv_start :
  pool_inv jobs n vs0 log0 (pool_start jobs n vs0 w0 chan0 done0 log0).
Proof.
  exists []. simpl. rewrite in_flight_replicate_Ranging, length_replicate, !app_nil_r.
  repeat split; try done.
  intros [j Hj]%list_elem_of_lookup. by apply lookup_replicate in Hj as [? _].
Qed.

Lemma pool_inv_step total σ σ' :
  step converter total σ σ' -> pool_inv jobs n vs0 log0 σ -> pool_inv jobs n vs0 log0 σ'.
Proof.
  intros Hstep (new & Hlog & Hvs & Hc & Hjobs & Hn & Hun).
  destruct Hstep as [σ i job rest Hi Hq|σ i Hi Hq|σ i job Hi Hd|σ i job Hi Hd
                    |σ i job r w' Hi Hconv|σ i job cur Hi Hroom p|σ i job cur Hi Hd
                    |σ i job cur Hi Hfull Hd p|σ p rest Hq|σ Hd]; simpl in *.
  - exists new. simpl. rewrite length_insert. repeat split; try done.
    + rewrite Hjobs, Hq.
      pose proof (in_flight_insert _ i _ (Received job) Hi) as Hp. simpl in Hp.
      rewrite Hp. solve_Permutation.
    + by apply Hun.
    + intros [?|Hr]%Returned_insert; [done|].
      destruct (Hun H) as [_ Hq']. specialize (Hq' Hr). congruence.
  - exists new. simpl. rewrite length_insert. repeat split; try done.
    + rewrite Hjobs, Hq.
      pose proof (in_flight_insert _ i _ Returned Hi) as Hp. simpl in Hp.
      by rewrite Hp.
    + by apply Hun.
  - exists (new ++ [LogCancelled job]). simpl.
    rewrite length_insert, conversions_snoc, cancelled_jobs_snoc, app_nil_r, Hlog.
    repeat split; try done; try congruence.
    + by rewrite app_assoc.
    + rewrite Hjobs.
      pose proof (in_flight_insert _ i _ Returned Hi) as Hp. simpl in Hp.
      rewrite <- Hp. solve_Permutation.
  - exists new. simpl. rewrite length_insert. repeat split; try done.
    + rewrite Hjobs.
      pose proof (in_flight_insert _ i _ (Converting job) Hi) as Hp. simpl in Hp.
      apply Permutation_cons_inv in Hp. by rewrite Hp.
    + by apply Hun.
    + intros [?|Hr]%Returned_insert; [done|]. by apply Hun.
  - exists (new ++ [LogConverted job r]). simpl.
    rewrite length_insert, conversions_snoc, cancelled_jobs_snoc, app_nil_r, Hlog.
    rewrite replay_snoc, length_app, fmap_app, Hvs. simpl.
    repeat split; try done.
    + by rewrite app_assoc.
    + lia.
    + rewrite Hjobs.
      pose proof (in_flight_insert _ i _ (Reporting job (S (completed σ))) Hi) as Hp.
      simpl in Hp. rewrite <- Hp. solve_Permutation.
    + by apply Hun.
    + intros [?|Hr]%Returned_insert; [done|]. by apply Hun.
  - exists (new ++ [LogProgress p]). simpl.
    rewrite length_insert, conversions_snoc, cancelled_jobs_snoc, !app_nil_r, Hlog.
    repeat split; try done.
    + by rewrite app_assoc.
    + rewrite Hjobs.
      pose proof (in_flight_insert _ i _ Ranging Hi) as Hp. simpl in Hp.
      by rewrite Hp.
    + by apply Hun.
    + intros [?|Hr]%Returned_insert; [done|]. by apply Hun.
  - exists new. simpl. rewrite length_insert. repeat split; try done; try congruence.
    rewrite Hjobs.
    pose proof (in_flight_insert _ i _ Returned Hi) as Hp. simpl in Hp.
    by rewrite Hp.
  - exists (new ++ [LogSkipped p]). simpl.
    rewrite length_insert, conversions_snoc, cancelled_jobs_snoc, !app_nil_r, Hlog.
    repeat split; try done.
    + by rewrite app_assoc.
    + rewrite Hjobs.
      pose proof (in_flight_insert _ i _ Ranging Hi) as Hp. simpl in Hp.
      by rewrite Hp.
    + by apply Hun.
    + intros [?|Hr]%Returned_insert; [done|]. by apply Hun.
  - exists new. simpl. repeat split; try done; by apply Hun.
  - exists new. simpl. repeat split; try done.
Qed.

Lemma pool_inv_run total σ :
  rtc (step converter total) (pool_start jobs n vs0 w0 chan0 done0 log0) σ ->
  pool_inv jobs n vs0 log0 σ.
Proof.
  intros Hrun.
  eapply (rtc_ind_r (pool_inv jobs n vs0 log0)); [apply pool_inv_start| |exact Hrun].
  intros σ1 σ2 _ Hstep IH. by eapply pool_inv_step.
Qed.

(** The counter only moves in the step that ends a conversion, and then
    by one, whatever the result. *)
Lemma step_completed total σ σ' :
  step converter total σ σ' ->
  (completed σ' = completed σ
   /\ conversions (logged σ') = conversions (logged σ))
  \/ (completed σ' = S (completed σ)
      /\ exists job r, logged σ' = logged σ ++ [LogConverted job r]).
Proof.
  destruct 1; simpl; rewrite ?conversions_snoc, ?app_nil_r; eauto.
Qed.

(** When [wg.Wait()] returns and the context is not done, every job was
    converted once and counted. *)
Lemma pool_returned total σ :
  rtc (step converter total) (pool_start jobs n vs0 w0 chan0 done0 log0) σ ->
  returned σ -> ctxDone σ = false -> 0 < n ->
  exists new,
    logged σ = log0 ++ new
    /\ (conversions new).*1 ≡ₚ jobs
    /\ variants σ = replay (conversions new) vs0
    /\ completed σ = length jobs.
Proof.
  intros Hrun Hret Hd Hn.
  destruct (pool_inv_run _ _ Hrun) as (new & Hlog & Hvs & Hc & Hjobs & Hlen & Hun).
  destruct (Hun Hd) as [Hcanc Hq]. exists new.
  rewrite Hcanc, app_nil_r, (in_flight_returned _ Hret) in Hjobs. simpl in Hjobs.
  rewrite Hq in Hjobs.
  - repeat split; try done. rewrite Hc, Hjobs. simpl. by rewrite length_fmap.
  - unfold returned in Hret.
    destruct (workers σ) as [|w ws] eqn:E; [simpl in Hlen; lia|].
    apply Forall_inv in Hret as <-. left.
Qed.

(** Every step uses up some of what the pool has left to do: no run goes
    on for ever. *)
Lemma step_measure total σ σ' :
  step converter total σ σ' -> pool_measure σ' < pool_measure σ.
Proof.
  unfold pool_measure.
  destruct 1 as [σ i job rest Hi Hq|σ i Hi Hq|σ i job Hi Hd|σ i job Hi Hd
                |σ i job r w' Hi Hconv|σ i job cur Hi Hroom p|σ i job cur Hi Hd
                |σ i job cur Hi Hfull Hd p|σ p rest Hq|σ Hd]; simpl;
    try (pose proof (weight_insert _ i _ Returned Hi) as Hw);
    try (pose proof (weight_insert _ i _ Ranging Hi) as Hw');
    try (pose proof (weight_insert _ i _ (Received job) Hi) as Hw'');
    try (pose proof (weight_insert _ i _ (Converting job) Hi) as Hw3);
    try (pose proof (weight_insert _ i _ (Reporting job (S (completed σ))) Hi) as Hw4);
    simpl in *; rewrite ?Hq, ?Hd, ?length_app; simpl; try lia.
Qed.

Lemma nsteps_measure total k σ σ' :
  nsteps (step converter total) k σ σ' -> k + pool_measure σ' <= pool_measure σ.
Proof.
  induction 1 as [|k σ1 σ2 σ3 Hstep _ IH]; [lia|].
  apply step_measure in Hstep. lia.
Qed.

(** As long as a worker has not returned, the pool can take a step that is
    not the cancellation of the context: no worker ever waits for
    another. *)
Lemma step_available total σ :
  ~ returned σ ->
  exists σ', step converter total σ σ' /\ ctxDone σ' = ctxDone σ.
Proof.
  intros Hnot. destruct (busy_worker (workers σ)) as [Hall|(i & w & Hi & Hw)];
    [done|].
  destruct w as [|job|job|job cur|]; [| | | |done].
  - destruct (jobsChan σ) as [|job rest] eqn:Hq.
    + eexists. split; [by apply (step_closed converter total σ i)|done].
    + eexists. split; [by apply (step_receive converter total σ i job rest)|done].
  - destruct (ctxDone σ) eqn:Hd.
    + eexists. split; [by apply (step_cancelled converter total σ i job)|done].
    + eexists. split; [by apply (step_proceed converter total σ i job)|done].
  - destruct (converter (sourceFile job) (outputPath job) (world σ)) as [r w'] eqn:Hc.
    eexists. split; [by apply (step_convert converter total σ i job r w')|done].
  - destruct (ctxDone σ) eqn:Hd.
    { eexists. split; [by apply (step_send_done converter total σ i job cur)|done]. }
    destruct (lt_eq_lt_dec (length (progressChan σ)) progressBufferSize)
      as [[Hlt|Heq]|Hgt].
    + eexists. split; [by apply (step_send converter total σ i job cur)|done].
    + eexists. split; [by apply (step_send_skipped converter total σ i job cur)|done].
    + destruct (progressChan σ) as [|p rest] eqn:Hp; [simpl in Hgt; lia|].
      eexists. split; [by apply (step_forward converter total σ p rest)|done].
Qed.

(** The forwarder can empty the progress channel. *)
Lemma run_forward total q ws c vs w chan d lg :
  rtc (step converter total) (mkPool q ws c vs w chan d lg)
                             (mkPool q ws c vs w [] d lg).
Proof.
  induction chan as [|p rest IH]; [done|].
  eapply rtc_l; [|exact IH].
  by apply (step_forward converter total (mkPool q ws c vs w (p :: rest) d lg) p rest).
Qed.

(** One worker can take and convert every job of the channel. *)
Lemma run_first_worker total q : forall ws c vs w chan lg,
  ws !! 0 = Some Ranging ->
  rtc (step converter total) (mkPool q ws c vs w chan false lg)
      (let '(c', vs', w', chan', lg') := serve_jobs converter total q c vs w chan lg in
       mkPool [] ws c' vs' w' chan' false lg').
Proof.
  induction q as [|job rest IH]; intros ws c vs w chan lg H0; [done|].
  cbn [serve_jobs].
  destruct (converter (sourceFile job) (outputPath job) w) as [r w'] eqn:Hconv.
  eapply rtc_l.
  { by apply (step_receive converter total
                (mkPool (job :: rest) ws c vs w chan false lg) 0 job rest). }
  simpl. eapply rtc_l.
  { apply (step_proceed converter total _ 0 job); [|done].
    simpl. apply list_lookup_insert_eq. by eapply lookup_lt_Some. }
  simpl. rewrite list_insert_insert_eq. eapply rtc_l.
  { apply (step_convert converter total _ 0 job r w'); [|done].
    simpl. apply list_lookup_insert_eq. by eapply lookup_lt_Some. }
  simpl. rewrite list_insert_insert_eq. etrans; [apply run_forward|].
  eapply rtc_l.
  { apply (step_send converter total _ 0 job (S c)).
    - simpl. apply list_lookup_insert_eq. by eapply lookup_lt_Some.
    - simpl. unfold progressBufferSize. lia. }
  simpl. rewrite list_insert_insert_eq, list_insert_id by done.
  by apply IH.
Qed.

(** Once the channel is empty every worker still ranging returns. *)
Lemma run_close total m : forall k c vs w chan d lg,
  rtc (step converter total)
      (mkPool [] (replicate k Returned ++ replicate m Ranging) c vs w chan d lg)
      (mkPool [] (replicate (k + m) Returned) c vs w chan d lg).
Proof.
  induction m as [|m IH]; intros k c vs w chan d lg.
  - simpl. by rewrite app_nil_r, Nat.add_0_r.
  - eapply rtc_l.
    { apply (step_closed converter total _ k); [|done]. simpl.
      rewrite lookup_app_r by (by rewrite length_replicate).
      by rewrite length_replicate, Nat.sub_diag. }
    simpl.
    replace (<[k:=Returned]> (replicate k Returned ++ Ranging :: replicate m Ranging))
      with (replicate (S k) Returned ++ replicate m Ranging).
    + replace (k + S m) with (S k + m) by lia. apply IH.
    + rewrite replicate_S_end, <- app_assoc.
      rewrite insert_app_r_alt by (by rewrite length_replicate).
      by rewrite length_replicate, Nat.sub_diag.
Qed.

(** The schedule of [served] is a run of the pool up to the return. *)
Lemma run_served total :
  0 < n -> total = length jobs ->
  rtc (step converter total) (pool_start jobs n vs0 w0 chan0 false log0)
      (served converter jobs n vs0 w0 chan0 log0)
  /\ returned (served converter jobs n vs0 w0 chan0 log0)
  /\ ctxDone (served converter jobs n vs0 w0 chan0 log0) = false.
Proof.
  intros Hn ->. unfold pool_start, served.
  pose proof (run_first_worker (length jobs) jobs (replicate n Ranging)
                0 vs0 w0 chan0 log0) as Hrun.
  destruct (serve_jobs converter (length jobs) jobs 0 vs0 w0 chan0 log0)
    as [[[[c vs] w] chan] lg].
  split; [|split].
  - etrans; [apply Hrun|apply (run_close (length jobs) n 0)].
    apply lookup_replicate. split; [done|lia].
  - apply Forall_forall. intros x [-> _]%elem_of_replicate. done.
  - done.
Qed.

(** The call can return without the context being done. *)
Lemma run_returns total :
  0 < n -> total = length jobs ->
  exists σ,
    rtc (step converter total) (pool_start jobs n vs0 w0 chan0 false log0) σ
    /\ returned σ /\ ctxDone σ = false.
Proof. intros Hn Ht. eexists. by apply run_served. Qed.

End PoolRuns.

Lemma numWorkers_positive numCPU cfg :
  Validate cfg = true -> 0 < Z.to_nat (numWorkers numCPU cfg).
Proof.
  unfold Validate, numWorkers. intros Hv.
  assert (1 <= MaxConcurrent cfg)%Z by (destruct (Z.ltb_spec (MaxConcurrent cfg) 1); [done|lia]).
  destruct (Z.ltb_spec (numCPU ÷ 2) 1);
    match goal with |- context [(?a >? ?b)%Z] => destruct (Z.gtb_spec a b) end; lia.
Qed.

(** C7. In a run of the pool for a validated configuration, every step
    leaves the completed-count as it is or adds one to it, and it adds one
    exactly in the step that ends a conversion, whether the conversion
    succeeded or failed.  When the call returns and the context was not
    cancelled, each job of the batch was converted exactly once and the
    count is the number of jobs, whatever progress events were skipped.
    The call does return: as long as a worker has not returned the pool
    can move without a cancellation, no run has more steps than the
    measure of the start, and one run returns without cancellation. *)
Theorem completed_count_reaches_total {W} (numCPU : Z) (cfg : Config)
    (jobs : list ConversionJob)
    (converter : string -> string -> W -> result FontProcessError string * W)
    (vs : gmap string FontVariant) (w : W) (chan : list ConversionProgress)
    (log : list logline) :
  Validate cfg = true ->
  let start := pool_start jobs (Z.to_nat (numWorkers numCPU cfg)) vs w chan false log in
  (forall σ σ',
      rtc (step converter (length jobs)) start σ ->
      step converter (length jobs) σ σ' ->
      completed σ <= completed σ'
      /\ (completed σ' = S (completed σ)
          <-> exists job r, logged σ' = logged σ ++ [LogConverted job r]))
  /\ (forall σ,
        processConversions numCPU cfg jobs converter vs w chan false log σ ->
        ctxDone σ = false ->
        completed σ = length jobs
        /\ exists new, logged σ = log ++ new /\ (conversions new).*1 ≡ₚ jobs)
  /\ (forall σ,
        rtc (step converter (length jobs)) start σ -> ~ returned σ ->
        exists σ', step converter (length jobs) σ σ' /\ ctxDone σ' = ctxDone σ)
  /\ (forall k σ,
        nsteps (step converter (length jobs)) k start σ -> k <= pool_measure start)
  /\ (exists σ,
        processConversions numCPU cfg jobs converter vs w chan false log σ
        /\ ctxDone σ = false).
Proof.
  intros Hv start. pose proof (numWorkers_positive numCPU cfg Hv) as Hn.
  split; [|split; [|split; [|split]]].
  - intros σ σ' _ Hstep.
    destruct (step_completed converter _ _ _ Hstep) as [[Hc Hl]|[Hc Hl]].
    + split; [lia|]. split; [lia|]. intros (job & r & Hlog).
      rewrite Hlog, conversions_snoc in Hl.
      apply (f_equal length) in Hl. rewrite length_app in Hl. simpl in Hl. lia.
    + split; [lia|]. done.
  - intros σ [Hrun Hret] Hd.
    destruct (pool_returned converter jobs _ vs w chan false log _ σ Hrun Hret Hd Hn)
      as (new & Hlog & Hperm & _ & Hc).
    split; [done|]. by exists new.
  - intros σ _ Hnot. by apply step_available.
  - intros k σ Hrun. apply nsteps_measure in Hrun. lia.
  - destruct (run_returns converter jobs _ vs w chan log (length jobs) Hn eq_refl)
      as (σ & Hrun & Hret & Hd).
    exists σ. by repeat split.
Qed.

Lemma completed_count_reaches_total_witness :
  let cfg := mkConfig "static" 4 in
  let jobs := [mkJob "Arial" "fonts/Arial.ttf" ".ttf" "static/converted/Arial.woff2";
               mkJob "Bold" "fonts/Bold.otf" ".otf" "static/converted/Bold.woff2"] in
  let converter (src dst : string) (w : nat) : result FontProcessError string * nat :=
    (if bool_decide (src = "fonts/Arial.ttf") then Ok dst
     else Failed (mkError "woff2_compress" dst (ExitStatus 1 "")), S w) in
  exists σ, processConversions 8 cfg jobs converter ∅ 0 [] false [] σ
            /\ completed σ = 2.
Proof.
  intros cfg jobs converter.
  destruct (completed_count_reaches_total 8 cfg jobs converter ∅ 0 [] []
              ltac:(reflexivity)) as (_ & Hall & _ & _ & σ & Hrun & Hd).
  exists σ. split; [exact Hrun|]. exact (proj1 (Hall σ Hrun Hd)).
Defined.

(** ** References decode to the path they were made from *)

Lemma QueryUnescape_escaped_byte (c : ascii) (rest : string) :
  Url.QueryUnescape
    (if Ascii.eqb c " " then String "+" rest
     else if Url.shouldEscape c then
       String "%" (String (Url.upperhex (nat_of_ascii c / 16))
                          (String (Url.upperhex (nat_of_ascii c mod 16)) rest))
     else String c rest)
  = String c <$> Url.QueryUnescape rest.
Proof.
  destruct c as [[] [] [] [] [] [] [] []]; reflexivity.
Qed.

Lemma QueryUnescape_QueryEscape (s : string) :
  Url.QueryUnescape (Url.QueryEscape s) = Some s.
Proof.
  induction s as [|c s IH]; [done|].
  cbn [Url.QueryEscape]. rewrite QueryUnescape_escaped_byte, IH. done.
Qed.

Lemma decodeFilePath_downloadURL (path : string) :
  decodeFilePath (downloadURL path) = Ok path.
Proof.
  unfold decodeFilePath, downloadURL.
  change (GoString.TrimPrefix ("/download?path=" +:+ Url.QueryEscape path)
                              "/download?path=")
    with (Url.QueryEscape path).
  by rewrite QueryUnescape_QueryEscape.
Qed.

(** ** The planner *)

Lemma planLoop_not_cancelled cfg i vs woff2Jobs ttfJobs :
  planLoop cfg (fun _ => false) i vs woff2Jobs ttfJobs
  = Ok (woff2Jobs ++ flat_map (fun kv => plan_woff2 cfg kv.1 kv.2) vs,
        ttfJobs ++ flat_map (fun kv => plan_ttf cfg kv.1 kv.2) vs).
Proof.
  revert i woff2Jobs ttfJobs.
  induction vs as [|[key v] vs IH]; intros i woff2Jobs ttfJobs; simpl.
  - by rewrite !app_nil_r.
  - by rewrite IH, <- !app_assoc.
Qed.

(** A plan that was not cancelled is the plan of every variant in turn. *)
Lemma planLoop_Ok cfg done : forall vs i woff2Jobs ttfJobs jobsA jobsB,
  planLoop cfg done i vs woff2Jobs ttfJobs = Ok (jobsA, jobsB) ->
  jobsA = woff2Jobs ++ flat_map (fun kv => plan_woff2 cfg kv.1 kv.2) vs
  /\ jobsB = ttfJobs ++ flat_map (fun kv => plan_ttf cfg kv.1 kv.2) vs.
Proof.
  induction vs as [|[key v] vs IH]; intros i woff2Jobs ttfJobs jobsA jobsB; simpl.
  - intros [= <- <-]. by rewrite !app_nil_r.
  - destruct (done i); [done|]. intros [-> ->]%IH. by rewrite <- !app_assoc.
Qed.

Lemma compress_job_variant cfg key v ref format job :
  job ∈ compress_job cfg key v ref format -> variant job = key.
Proof.
  unfold compress_job. destruct (decodeFilePath ref); [|by intros ?%elem_of_nil].
  by intros ->%list_elem_of_singleton.
Qed.

Lemma plan_woff2_variant cfg key v job :
  job ∈ plan_woff2 cfg key v -> variant job = key.
Proof.
  unfold plan_woff2.
  destruct (Location v !! ".woff2"); [by intros ?%elem_of_nil|].
  destruct (Location v !! ".ttf"); [apply compress_job_variant|].
  destruct (Location v !! ".otf"); [apply compress_job_variant|].
  by intros ?%elem_of_nil.
Qed.

Lemma plan_ttf_variant cfg key v job :
  job ∈ plan_ttf cfg key v -> variant job = key.
Proof.
  unfold plan_ttf.
  destruct (Location v !! ".woff2"); [|by intros ?%elem_of_nil].
  destruct (Location v !! ".ttf"); [by intros ?%elem_of_nil|].
  destruct (decodeFilePath _); [|by intros ?%elem_of_nil].
  by intros ->%list_elem_of_singleton.
Qed.

Lemma filter_all {A} (P : A -> Prop) `{forall x, Decision (P x)} (l : list A) :
  (forall x, x ∈ l -> P x) -> filter P l = l.
Proof.
  induction l as [|x l IH]; intros Hl; [done|].
  rewrite filter_cons_True by (apply Hl; left).
  rewrite IH; [done|]. intros y Hy. apply Hl. by right.
Qed.

Lemma filter_none {A} (P : A -> Prop) `{forall x, Decision (P x)} (l : list A) :
  (forall x, x ∈ l -> ~ P x) -> filter P l = [].
Proof.
  induction l as [|x l IH]; intros Hl; [done|].
  rewrite filter_cons_False by (apply Hl; left).
  apply IH. intros y Hy. apply Hl. by right.
Qed.

(** The jobs of one key in the plan of a list with distinct keys. *)
Lemma filter_plan_key (f : string -> FontVariant -> list ConversionJob)
    (vs : list (string * FontVariant)) (key : string) :
  (forall k v job, job ∈ f k v -> variant job = k) ->
  NoDup vs.*1 ->
  filter (fun job => variant job = key) (flat_map (fun kv => f kv.1 kv.2) vs)
  = match list_to_map (M := gmap string FontVariant) vs !! key with
    | Some v => f key v
    | None => []
    end.
Proof.
  intros Hf. induction vs as [|[k v] vs IH]; intros Hnd; simpl.
  - by rewrite lookup_empty.
  - apply NoDup_cons in Hnd as [Hk Hnd]. rewrite filter_app, IH by done.
    destruct (decide (k = key)) as [->|Hne].
    + rewrite lookup_insert_eq.
      rewrite (not_elem_of_list_to_map_1 vs key) by done.
      rewrite app_nil_r. apply filter_all. intros job. apply Hf.
    + rewrite lookup_insert_ne by done.
      rewrite filter_none; [done|]. intros job Hjob E. apply Hne.
      by rewrite <- (Hf _ _ _ Hjob).
Qed.

Lemma append_assoc (a b c : string) : (a +:+ b) +:+ c = a +:+ (b +:+ c).
Proof.
  induction a as [|x a IH]; [done|].
  change (String x ((a +:+ b) +:+ c) = String x (a +:+ (b +:+ c))). by f_equal.
Qed.

Lemma list_ascii_of_string_app (a b : string) :
  list_ascii_of_string (a +:+ b) = list_ascii_of_string a ++ list_ascii_of_string b.
Proof.
  induction a as [|x a IH]; [done|].
  change (x :: list_ascii_of_string (a +:+ b)
          = x :: (list_ascii_of_string a ++ list_ascii_of_string b)).
  by f_equal.
Qed.

(** The extension of a path that ends in [.woff2] or in [.ttf]. *)
Lemma Ext_woff2 (a : string) : Filepath.Ext (a +:+ ".woff2") = ".woff2".
Proof.
  unfold Filepath.Ext. rewrite list_ascii_of_string_app, rev_app_distr. done.
Qed.

Lemma Ext_ttf (a : string) : Filepath.Ext (a +:+ ".ttf") = ".ttf".
Proof.
  unfold Filepath.Ext. rewrite list_ascii_of_string_app, rev_app_distr. done.
Qed.

Lemma Ext_converted staticDir name suffix :
  Filepath.Ext (Filepath.JoinConverted staticDir (name +:+ suffix))
  = Filepath.Ext ((staticDir +:+ "/converted/" +:+ name) +:+ suffix).
Proof. unfold Filepath.JoinConverted. by rewrite !append_assoc. Qed.

(** What the planner emits for one scanned variant. *)
Lemma plan_scanned_variant cfg key v :
  scanned_variant key v ->
  match Location v !! ".woff2", Location v !! ".ttf", Location v !! ".otf" with
  | None, Some ref, _ =>
      exists path, ref = downloadURL path
        /\ plan_woff2 cfg key v
           = [mkJob key path ".ttf"
                    (Filepath.JoinConverted (StaticDir cfg) (key +:+ ".woff2"))]
        /\ plan_ttf cfg key v = []
  | None, None, Some ref =>
      exists path, ref = downloadURL path
        /\ plan_woff2 cfg key v
           = [mkJob key path ".otf"
                    (Filepath.JoinConverted (StaticDir cfg) (key +:+ ".woff2"))]
        /\ plan_ttf cfg key v = []
  | None, None, None => plan_woff2 cfg key v = [] /\ plan_ttf cfg key v = []
  | Some ref, None, _ =>
      exists path, ref = downloadURL path
        /\ plan_woff2 cfg key v = []
        /\ plan_ttf cfg key v
           = [mkJob key path ".woff2"
                    (Filepath.JoinConverted (StaticDir cfg) (key +:+ ".ttf"))]
  | Some _, Some _, _ => plan_woff2 cfg key v = [] /\ plan_ttf cfg key v = []
  end.
Proof.
  intros [Hname _ Hloc _]. unfold plan_woff2, plan_ttf, compress_job.
  destruct (Location v !! ".woff2") as [r2|] eqn:E2;
    destruct (Location v !! ".ttf") as [rt|] eqn:Et;
    try destruct (Location v !! ".otf") as [ro|] eqn:Eo; try done.
  - destruct (Hloc _ _ E2) as (_ & path & -> & _). exists path.
    by rewrite decodeFilePath_downloadURL, Hname.
  - destruct (Hloc _ _ E2) as (_ & path & -> & _). exists path.
    by rewrite decodeFilePath_downloadURL, Hname.
  - destruct (Hloc _ _ Et) as (_ & path & -> & _). exists path.
    by rewrite decodeFilePath_downloadURL, Hname.
  - destruct (Hloc _ _ Et) as (_ & path & -> & _). exists path.
    by rewrite decodeFilePath_downloadURL, Hname.
  - destruct (Hloc _ _ Eo) as (_ & path & -> & _). exists path.
    by rewrite decodeFilePath_downloadURL, Hname.
Qed.

Lemma order_of_map (fs : gmap string FontVariant) (order : list (string * FontVariant)) :
  order ≡ₚ map_to_list fs ->
  NoDup order.*1 /\ list_to_map order = fs
  /\ (forall key v, (key, v) ∈ order <-> fs !! key = Some v).
Proof.
  intros Hperm. split; [|split].
  - rewrite Hperm. apply NoDup_fst_map_to_list.
  - symmetry. by apply list_to_map_flip.
  - intros key v. rewrite Hperm. apply elem_of_map_to_list.
Qed.

(** The jobs of the variant stored under [key] in the two batches of a
    plan over scanned variants. *)
Lemma plan_of_key cfg fs order done woff2Jobs ttfJobs key :
  order ≡ₚ map_to_list fs ->
  planLoop cfg done 0 order [] [] = Ok (woff2Jobs, ttfJobs) ->
  filter (fun job => variant job = key) woff2Jobs
  = match fs !! key with Some v => plan_woff2 cfg key v | None => [] end
  /\ filter (fun job => variant job = key) ttfJobs
     = match fs !! key with Some v => plan_ttf cfg key v | None => [] end.
Proof.
  intros (Hnd & Hmap & _)%order_of_map [-> ->]%planLoop_Ok. simpl.
  rewrite !filter_plan_key; [by rewrite Hmap|..]; try done.
  - intros k v. apply plan_ttf_variant.
  - intros k v. apply plan_woff2_variant.
Qed.

(** C4. For every variant of the scan output, the jobs of the variant in
    the two batches are: one compress job to [<name>.woff2] from the
    [.ttf] file when there is no [.woff2] and there is a [.ttf]; one from
    the [.otf] file when there is no [.woff2], no [.ttf] and there is an
    [.otf]; one decompress job from the [.woff2] file to [<name>.ttf]
    when there is a [.woff2] and no [.ttf]; and nothing else.  Every job
    belongs to a scanned variant, and planning succeeds when the context
    is not cancelled. *)
Theorem planner_jobs_per_variant cfg rootPath root fs order :
  findFonts rootPath root = Ok fs ->
  order ≡ₚ map_to_list fs ->
  (exists plan, planLoop cfg (fun _ => false) 0 order [] [] = Ok plan)
  /\ forall done woff2Jobs ttfJobs,
      planLoop cfg done 0 order [] [] = Ok (woff2Jobs, ttfJobs) ->
      (forall job, job ∈ woff2Jobs ++ ttfJobs -> is_Some (fs !! variant job))
      /\ forall key v,
          fs !! key = Some v ->
          let compress := filter (fun job => variant job = key) woff2Jobs in
          let decompress := filter (fun job => variant job = key) ttfJobs in
          let output ext := Filepath.JoinConverted (StaticDir cfg) (key +:+ ext) in
          match Location v !! ".woff2", Location v !! ".ttf", Location v !! ".otf" with
          | None, Some ref, _ =>
              exists path, ref = downloadURL path
                /\ compress = [mkJob key path ".ttf" (output ".woff2")]
                /\ decompress = []
          | None, None, Some ref =>
              exists path, ref = downloadURL path
                /\ compress = [mkJob key path ".otf" (output ".woff2")]
                /\ decompress = []
          | None, None, None => compress = [] /\ decompress = []
          | Some ref, None, _ =>
              exists path, ref = downloadURL path
                /\ compress = []
                /\ decompress = [mkJob key path ".woff2" (output ".ttf")]
          | Some _, Some _, _ => compress = [] /\ decompress = []
          end.
Proof.
  intros [_ Hscanned]%findFonts_Ok Horder. split.
  - rewrite planLoop_not_cancelled. eauto.
  - intros done woff2Jobs ttfJobs Hplan. split.
    + intros job Hjob.
      destruct (plan_of_key cfg fs order done _ _ (variant job) Horder Hplan)
        as [HA HB].
      destruct (fs !! variant job); [done|].
      apply elem_of_app in Hjob as [Hjob|Hjob].
      * eapply (filter_nil_not_elem_of _ _ job) in HA; done.
      * eapply (filter_nil_not_elem_of _ _ job) in HB; done.
    + intros key v Hv compress decompress output.
      destruct (plan_of_key cfg fs order done _ _ key Horder Hplan) as [HA HB].
      rewrite Hv in HA, HB. subst compress decompress. rewrite HA, HB.
      apply plan_scanned_variant. by apply Hscanned.
Qed.

Lemma planner_jobs_per_variant_witness :
  let root := Directory "fonts" None
                [File "fonts/Arial.otf"; File "fonts/Arial.ttf";
                 File "fonts/Custom.woff2"; File "fonts/Old.woff"] in
  let fs := scan_fonts (font_paths (seen_of root)) in
  let compress :=
    mkJob "Arial" "fonts/Arial.ttf" ".ttf" "static/converted/Arial.woff2" in
  let decompress :=
    mkJob "Custom" "fonts/Custom.woff2" ".woff2" "static/converted/Custom.ttf" in
  planLoop (mkConfig "static" 4) (fun _ => false) 0 (map_to_list fs) [] []
  = Ok ([compress], [decompress])
  /\ is_Some (fs !! variant compress).
Proof.
  intros root fs compress decompress.
  assert (Hplan : planLoop (mkConfig "static" 4) (fun _ => false) 0
                           (map_to_list fs) [] []
                  = Ok ([compress], [decompress])) by (vm_compute; reflexivity).
  split; [exact Hplan|].
  destruct (planner_jobs_per_variant (mkConfig "static" 4) "fonts" root fs
              (map_to_list fs) ltac:(vm_compute; reflexivity) ltac:(reflexivity))
    as [_ H].
  apply (proj1 (H _ _ _ Hplan) compress). left.
Defined.

(** ** The executors *)

Section ExecutorFacts.
Variable mkdir_denied : string -> gmap string fsentry -> option oserr.
Variable run_tool :
  invocation -> gmap string fsentry -> option cause * gmap string fsentry.



(** [os.MkdirAll] starts no subprocess and keeps every entry there is. *)
Lemma MkdirAll_keeps dir w err w' :
  MkdirAll mkdir_denied dir w = (err, w') ->
  invocations w' = invocations w
  /\ forall path entry, files w !! path = Some entry -> files w' !! path = Some entry.
Proof.
  unfold MkdirAll. destruct (files w !! dir) as [[c|sz]|] eqn:E.
  - by intros [= <- <-].
  - by intros [= <- <-].
  - destruct (mkdir_denied dir (files w)); intros [= <- <-]; [done|].
    split; [done|]. simpl. intros path entry Hp.
    rewrite lookup_insert_ne; [done|]. congruence.
Qed.



End ExecutorFacts.

(** A pool whose converter leaves the files [w0] as they are for every job
    of the batch never changes them. *)
Lemma pool_world_fixed {W}
    (converter : string -> string -> W -> result FontProcessError string * W)
    jobs n vs0 (w0 : W) chan0 done0 log0 total σ :
  (forall job, job ∈ jobs ->
               (converter (sourceFile job) (outputPath job) w0).2 = w0) ->
  rtc (step converter total) (pool_start jobs n vs0 w0 chan0 done0 log0) σ ->
  world σ = w0.
Proof.
  intros Hfix Hrun.
  enough (rtc (step converter total) (pool_start jobs n vs0 w0 chan0 done0 log0) σ
          /\ world σ = w0) as [_ ?]; [done|].
  eapply (rtc_ind_r (fun σ => rtc (step converter total)
                                  (pool_start jobs n vs0 w0 chan0 done0 log0) σ
                              /\ world σ = w0));
    [split; [apply rtc_refl|done]| |exact Hrun].
  clear σ Hrun. intros σ σ' _ Hstep [Hrun Hw]. split; [by eapply rtc_r|].
  destruct Hstep as [| | | |σ i job r w' Hi Hconv| | | | |]; simpl; try done.
  destruct (pool_inv_run _ _ _ _ _ _ _ _ _ _ Hrun) as (new & _ & _ & _ & Hjobs & _).
  assert (Hin : job ∈ jobs).
  { rewrite Hjobs. apply elem_of_app. right. apply elem_of_app. left.
    unfold in_flight. apply list_elem_of_In, in_flat_map.
    exists (Converting job). split; [|by left].
    apply list_elem_of_In, list_elem_of_lookup. eauto. }
  specialize (Hfix job Hin). rewrite Hw in Hconv. by rewrite Hconv in Hfix.
Qed.

Lemma planned_job_origin cfg fs order done woff2Jobs ttfJobs job :
  order ≡ₚ map_to_list fs ->
  planLoop cfg done 0 order [] [] = Ok (woff2Jobs, ttfJobs) ->
  job ∈ woff2Jobs ++ ttfJobs ->
  exists key v, fs !! key = Some v
                /\ job ∈ plan_woff2 cfg key v ++ plan_ttf cfg key v.
Proof.
  intros (_ & _ & Hin)%order_of_map [-> ->]%planLoop_Ok. simpl.
  intros [Hjob|Hjob]%elem_of_app;
    apply list_elem_of_In, in_flat_map in Hjob as ([key v] & Hkv & Hjob);
    exists key, v; (split; [by apply Hin, list_elem_of_In|]);
    apply elem_of_app; [left|right]; by apply list_elem_of_In.
Qed.

(** ** The variants through a run *)

Lemma on_result_other job r vs key :
  variant job <> key -> on_result job r vs !! key = vs !! key.
Proof.
  intros Hne. destruct r as [path|e]; [|done]. simpl. unfold on_success.
  destruct (vs !! variant job); [|done]. by rewrite lookup_insert_ne.
Qed.

Lemma on_result_agree job r (vs1 vs2 : gmap string FontVariant) key :
  vs1 !! key = vs2 !! key -> on_result job r vs1 !! key = on_result job r vs2 !! key.
Proof.
  intros Heq. destruct (decide (variant job = key)) as [<-|Hne].
  - destruct r as [path|e]; [|exact Heq]. simpl. unfold on_success. rewrite Heq.
    destruct (vs2 !! variant job) eqn:E2; [|by rewrite Heq, E2].
    by rewrite !lookup_insert_eq.
  - by rewrite !on_result_other.
Qed.

Lemma replay_agree cs : forall (vs1 vs2 : gmap string FontVariant) key,
  vs1 !! key = vs2 !! key -> replay cs vs1 !! key = replay cs vs2 !! key.
Proof.
  induction cs as [|[job r] cs IH]; intros vs1 vs2 key Heq; [done|].
  apply IH. by apply on_result_agree.
Qed.

(** Only the conversions of the jobs that point to a variant matter to
    it. *)
Lemma replay_key cs : forall (vs : gmap string FontVariant) key,
  replay cs vs !! key
  = replay (filter (fun c => variant c.1 = key) cs) vs !! key.
Proof.
  induction cs as [|[job r] cs IH]; intros vs key; [done|].
  rewrite filter_cons. simpl. destruct (decide (variant job = key)) as [E|Hne].
  - apply IH.
  - change (replay ((job, r) :: cs) vs) with (replay cs (on_result job r vs)).
    rewrite IH. apply replay_agree. by apply on_result_other.
Qed.

Lemma replay_app cs1 cs2 (vs : gmap string FontVariant) :
  replay (cs1 ++ cs2) vs = replay cs2 (replay cs1 vs).
Proof. unfold replay. by rewrite fold_left_app. Qed.

Lemma conversions_app log1 log2 :
  conversions (log1 ++ log2) = conversions log1 ++ conversions log2.
Proof. apply flat_map_app. Qed.

Lemma conversions_elem job r log :
  (job, r) ∈ conversions log <-> LogConverted job r ∈ log.
Proof.
  unfold conversions. rewrite !list_elem_of_In, in_flat_map. split.
  - intros (l & Hl & Hin). destruct l; try done.
    destruct Hin as [[= <- <-]|[]]. done.
  - intros Hin. exists (LogConverted job r). split; [done|by left].
Qed.

Lemma step_ctxDone {W}
    (converter : string -> string -> W -> result FontProcessError string * W)
    total σ σ' :
  rtc (step converter total) σ σ' -> ctxDone σ' = false -> ctxDone σ = false.
Proof.
  induction 1 as [|σ1 σ2 σ3 Hstep _ IH]; [done|].
  intros Hd. specialize (IH Hd). by destruct Hstep.
Qed.

(** What a batch does to the variants and the log. *)
Lemma batch_summary numCPU cfg
    (converter : string -> string -> World -> result FontProcessError string * World)
    jobs (before after : pool World) :
  batch numCPU cfg converter jobs before after ->
  exists new rest,
    logged after = logged before ++ new
    /\ variants after = replay (conversions new) (variants before)
    /\ jobs ≡ₚ (conversions new).*1 ++ rest
    /\ (ctxDone after = false ->
        ctxDone before = false /\ (Validate cfg = true -> rest = [])).
Proof.
  unfold batch. destruct jobs as [|j js] eqn:E.
  - intros ->. exists [], []. by rewrite app_nil_r.
  - rewrite <- E. clear E j js. intros [Hrun Hret].
    destruct (pool_inv_run _ _ _ _ _ _ _ _ _ _ Hrun)
      as (new & Hlog & Hvs & _ & Hjobs & Hlen & Hun).
    exists new, (jobsChan after ++ in_flight (workers after) ++ cancelled_jobs new).
    split; [done|]. split; [done|].
    split; [rewrite Hjobs; solve_Permutation|]. intros Hd. split.
    + by apply (step_ctxDone _ _ _ _ Hrun) in Hd.
    + intros Hv. destruct (Hun Hd) as [-> Hq].
      rewrite (in_flight_returned _ Hret), Hq; [done|].
      pose proof (numWorkers_positive numCPU cfg Hv) as Hn.
      unfold returned in Hret.
      destruct (workers after) as [|x ws]; [simpl in Hlen; lia|].
      apply Forall_inv in Hret as <-. left.
Qed.

(** ** Runs of [ProcessFonts] *)

Section PipelineFacts.
Variable mkdir_denied : string -> gmap string fsentry -> option oserr.
Variable run_tool :
  invocation -> gmap string fsentry -> option cause * gmap string fsentry.
Variable numCPU : Z.
Variable cfg : Config.

Lemma sequential_batch_run converter jobs before :
  Validate cfg = true -> ctxDone before = false ->
  batch numCPU cfg converter jobs before
        (sequential_batch numCPU cfg converter jobs before)
  /\ ctxDone (sequential_batch numCPU cfg converter jobs before) = false.
Proof.
  intros Hv Hd. unfold batch, sequential_batch.
  destruct jobs as [|j js] eqn:E; [done|]. rewrite <- E. clear E j js.
  pose proof (numWorkers_positive numCPU cfg Hv) as Hn.
  destruct (run_served converter jobs _ (variants before) (world before)
              (progressChan before) (logged before) (length jobs) Hn eq_refl)
    as (Hrun & Hret & Hdone).
  split; [|done]. split; [|done]. by rewrite Hd.
Qed.

(** What [ProcessFonts_sequential] computes is a run of [ProcessFonts]. *)
Lemma ProcessFonts_sequential_run fontDir root w log res w' log' :
  Validate cfg = true ->
  ProcessFonts_sequential mkdir_denied run_tool numCPU cfg fontDir root w log
  = (res, w', log') ->
  ProcessFonts mkdir_denied run_tool numCPU cfg fontDir root w log
               res w' log' false.
Proof.
  intros Hv. unfold ProcessFonts_sequential.
  destruct (validate fontDir root) as [e|] eqn:Hval.
  { intros [= <- <- <-]. by constructor. }
  destruct (ensureConvertedDir mkdir_denied cfg w) as [[e|] w1] eqn:Hdir.
  { intros [= <- <- <-]. by apply ProcessFonts_no_dir. }
  destruct (findFonts fontDir root) as [fs|e] eqn:Hscan.
  2:{ intros [= <- <- <-]. by apply ProcessFonts_no_scan. }
  rewrite planLoop_not_cancelled. simpl.
  set (woff2Jobs := flat_map (fun kv => plan_woff2 cfg kv.1 kv.2) (map_to_list fs)).
  set (ttfJobs := flat_map (fun kv => plan_ttf cfg kv.1 kv.2) (map_to_list fs)).
  set (start := mkPool [] [] 0 fs w1 [] false log).
  destruct (sequential_batch_run (convertToWoff2 mkdir_denied run_tool)
              woff2Jobs start Hv eq_refl) as [HA HdA].
  destruct (sequential_batch_run (convertToTTF_converter mkdir_denied run_tool)
              ttfJobs _ Hv HdA) as [HB HdB].
  intros [= <- <- <-]. rewrite <- HdB.
  eapply (ProcessFonts_done _ _ _ _ _ _ _ _ w1 fs (map_to_list fs) (fun _ => false));
    try done.
  apply planLoop_not_cancelled.
Qed.

Lemma filter_fmap_fst {B} (P : ConversionJob -> Prop) `{forall x, Decision (P x)}
    (cs : list (ConversionJob * B)) :
  filter P cs.*1 = (filter (fun c => P c.1) cs).*1.
Proof.
  induction cs as [|c cs IH]; [done|]. rewrite fmap_cons, !filter_cons. simpl.
  destruct (decide (P c.1)); by rewrite IH.
Qed.

(** A run that returns results: the variants at the end are the scanned
    ones with the logged conversions replayed, the converted jobs are
    planned jobs (all of them when the context is not cancelled), and the
    results are the variants at the end. *)
Lemma ProcessFonts_Ok fontDir root w log results w' log' done fs :
  ProcessFonts mkdir_denied run_tool numCPU cfg fontDir root w log
               (Ok results) w' log' done ->
  findFonts fontDir root = Ok fs ->
  exists order doneP woff2Jobs ttfJobs new rest,
    order ≡ₚ map_to_list fs
    /\ planLoop cfg doneP 0 order [] [] = Ok (woff2Jobs, ttfJobs)
    /\ log' = log ++ new
    /\ woff2Jobs ++ ttfJobs ≡ₚ (conversions new).*1 ++ rest
    /\ (done = false -> Validate cfg = true -> rest = [])
    /\ (forall key v, replay (conversions new) fs !! key = Some v ->
                      to_preview v ∈ results)
    /\ (forall entry, entry ∈ results ->
          exists key v, replay (conversions new) fs !! key = Some v
                        /\ entry = to_preview v).
Proof.
  intros Hrun Hscan. inversion Hrun as [| | | |w1 fs' order doneP woff2Jobs ttfJobs
      done1 σ1 σ2 order' _ _ Hscan' Horder Hplan HA HB Horder' Hres Hw Hlog Hd].
  rewrite Hscan in Hscan'. injection Hscan' as <-.
  destruct (batch_summary _ _ _ _ _ _ HA) as (newA & restA & HlA & HvA & HpA & HdA).
  destruct (batch_summary _ _ _ _ _ _ HB) as (newB & restB & HlB & HvB & HpB & HdB).
  simpl in HlA, HvA, HdA.
  assert (Hfinal : variants σ2 = replay (conversions (newA ++ newB)) fs).
  { by rewrite conversions_app, replay_app, <- HvA, <- HvB. }
  exists order, doneP, woff2Jobs, ttfJobs, (newA ++ newB), (restA ++ restB).
  rewrite <- Hfinal. repeat split; try done.
  - by rewrite HlB, HlA, app_assoc.
  - rewrite conversions_app, fmap_app, HpA, HpB. solve_Permutation.
  - intros Hdone Hv.
    destruct (HdB Hdone) as [Hd1 HrB]. destruct (HdA Hd1) as [_ HrA].
    by rewrite HrA, HrB.
  - intros key v Hv. apply list_elem_of_fmap. exists v. split; [done|].
    apply list_elem_of_fmap. exists (key, v). split; [done|].
    rewrite Horder'. by apply elem_of_map_to_list.
  - intros entry (v & -> & ([key v'] & -> & Hin)%list_elem_of_fmap)%list_elem_of_fmap.
    exists key, v'. split; [|done].
    rewrite Horder' in Hin. by apply elem_of_map_to_list in Hin.
Qed.

(** The conversions logged for the jobs of one scanned variant: none, or
    the one of the only job planned for it. *)
Lemma conversions_of_key fs order doneP woff2Jobs ttfJobs
    (cs : list (ConversionJob * result FontProcessError string)) rest key v :
  scanned fs ->
  order ≡ₚ map_to_list fs ->
  planLoop cfg doneP 0 order [] [] = Ok (woff2Jobs, ttfJobs) ->
  woff2Jobs ++ ttfJobs ≡ₚ cs.*1 ++ rest ->
  fs !! key = Some v ->
  filter (fun c => variant c.1 = key) cs = []
  \/ exists job r, filter (fun c => variant c.1 = key) cs = [(job, r)]
                   /\ plan_woff2 cfg key v ++ plan_ttf cfg key v = [job].
Proof.
  intros Hsc Horder Hplan Hperm Hv.
  destruct (plan_of_key cfg fs order doneP _ _ key Horder Hplan) as [HA HB].
  rewrite Hv in HA, HB.
  apply (filter_Permutation (fun job => variant job = key)) in Hperm.
  rewrite !filter_app, HA, HB, filter_fmap_fst in Hperm.
  destruct (filter (fun c => variant c.1 = key) cs) as [|[job r] l]; [by left|].
  right. exists job, r.
  pose proof (plan_scanned_variant cfg key v (Hsc _ _ Hv)) as Hcase.
  assert (Hlen : length (plan_woff2 cfg key v ++ plan_ttf cfg key v) <= 1).
  { destruct (Location v !! ".woff2"), (Location v !! ".ttf"),
      (Location v !! ".otf"); 
      repeat match goal with
             | H : exists _, _ |- _ => destruct H as (? & ? & ? & ?)
             | H : _ /\ _ |- _ => destruct H
             end;
      repeat match goal with H : _ = _ |- _ => rewrite H end; simpl; lia. }
  pose proof (Permutation_length Hperm) as Hl. rewrite fmap_cons, !length_app in *.
  simpl in Hl. destruct l; [|simpl in Hl; lia].
  split; [done|]. simpl in Hperm.
  destruct (filter _ rest); [|simpl in Hl; lia].
  by apply Permutation_singleton_r in Hperm.
Qed.

End PipelineFacts.

(** The preview of a variant that has one is not touched by the pool. *)
Lemma replay_previews (vs0 : gmap string FontVariant) cs :
  (forall key v, vs0 !! key = Some v -> PreviewPath v <> "") ->
  forall key v', replay cs vs0 !! key = Some v' ->
                 exists v, vs0 !! key = Some v /\ PreviewPath v' = PreviewPath v.
Proof.
  intros Hset. induction cs as [|[job r] cs IH] using rev_ind; intros key v'.
  - intros Hv. by exists v'.
  - rewrite replay_snoc. destruct r as [path|e]; [|apply IH]. simpl.
    unfold on_success.
    destruct (replay cs vs0 !! variant job) as [u|] eqn:Hu; [|apply IH].
    destruct (decide (variant job = key)) as [<-|Hne].
    + rewrite lookup_insert_eq. intros [= <-]. simpl.
      destruct (IH _ _ Hu) as (v & Hv & Hprev). exists v. split; [done|].
      rewrite Hprev, (bool_decide_eq_false_2 (PreviewPath v = "")), andb_false_r;
        [done|]. by eapply Hset.
    + rewrite lookup_insert_ne by done. apply IH.
Qed.

(** C9. Every variant of a successful scan has a preview reference, and in
    every state that a pool started on the scanned variants reaches, for
    any jobs and any converter, every variant still has the preview that
    the scanner gave it: the guard [PreviewPath == ""] of line 426 is
    false for every variant, so the branch that sets the preview is never
    taken. *)
Theorem scanned_variants_have_a_preview rootPath root fs :
  findFonts rootPath root = Ok fs ->
  (forall key v, fs !! key = Some v -> PreviewPath v <> "")
  /\ forall (W : Type)
       (converter : string -> string -> W -> result FontProcessError string * W)
       total jobs n w chan done log σ,
      rtc (step converter total) (pool_start jobs n fs w chan done log) σ ->
      forall key v', variants σ !! key = Some v' ->
        PreviewPath v' <> ""
        /\ exists v, fs !! key = Some v /\ PreviewPath v' = PreviewPath v.
Proof.
  intros [_ Hsc]%findFonts_Ok.
  assert (Hset : forall key v, fs !! key = Some v -> PreviewPath v <> "")
    by (intros key v Hv; by destruct (Hsc _ _ Hv)).
  split; [done|].
  intros W converter total jobs n w chan done log σ Hrun key v' Hv'.
  destruct (pool_inv_run _ _ _ _ _ _ _ _ _ _ Hrun) as (new & _ & Hvs & _).
  rewrite Hvs in Hv'. destruct (replay_previews fs _ Hset _ _ Hv') as (v & Hv & Hp).
  split; [|by exists v]. rewrite Hp. by eapply Hset.
Qed.

Lemma scanned_variants_have_a_preview_witness :
  exists v, scan_fonts (font_paths (seen_of demo_root)) !! "Arial" = Some v
            /\ PreviewPath v <> "".
Proof.
  eexists. split; [vm_compute; reflexivity|].
  apply (proj1 (scanned_variants_have_a_preview "fonts" demo_root
                  (scan_fonts (font_paths (seen_of demo_root)))
                  ltac:(vm_compute; reflexivity)) "Arial").
  vm_compute. reflexivity.
Defined.

(** The run of the pipeline on the four fonts. *)
Lemma demo_run_is_a_run :
  ProcessFonts (fun _ _ => None) demo_tool 8 demo_cfg "fonts" demo_root demo_world []
               demo_run.1.1 demo_run.1.2 demo_run.2 false.
Proof.
  apply ProcessFonts_sequential_run; [reflexivity|].
  unfold demo_run. by destruct (ProcessFonts_sequential _ _ _ _ _ _ _ _) as [[? ?] ?].
Qed.

Section Claims.
Variable mkdir_denied : string -> gmap string fsentry -> option oserr.
Variable run_tool :
  invocation -> gmap string fsentry -> option cause * gmap string fsentry.
Variable numCPU : Z.
Variable cfg : Config.

(** C10. A variant whose only format is [.woff] gets no job from the
    planner, in either batch; in every run that returns results no
    conversion is logged for it and it is in the results with its
    [.woff] entry only. *)
Theorem woff_only_variant_is_left_alone
    fontDir root w log results w' log' done fs key v ref :
  ProcessFonts mkdir_denied run_tool numCPU cfg fontDir root w log
               (Ok results) w' log' done ->
  findFonts fontDir root = Ok fs ->
  fs !! key = Some v ->
  Location v = {[ ".woff" := ref ]} ->
  plan_woff2 cfg key v = [] /\ plan_ttf cfg key v = []
  /\ (forall new job r,
        log' = log ++ new -> LogConverted job r ∈ new -> variant job <> key)
  /\ mkPreview key (PreviewPath v) {[ ".woff" := ref ]} ∈ results.
Proof.
  intros Hrun Hscan Hv Hloc.
  assert (HA : plan_woff2 cfg key v = [])
    by (unfold plan_woff2; rewrite Hloc; done).
  assert (HB : plan_ttf cfg key v = [])
    by (unfold plan_ttf; rewrite Hloc; done).
  destruct (findFonts_Ok _ _ _ Hscan) as [_ Hsc].
  destruct (ProcessFonts_Ok _ _ _ _ _ _ _ _ _ _ _ _ _ Hrun Hscan)
    as (order & doneP & woff2Jobs & ttfJobs & new & rest
        & Horder & Hplan & Hlog & Hperm & _ & Hin & _).
  assert (Hnone : filter (fun c => variant c.1 = key) (conversions new) = []).
  { destruct (conversions_of_key cfg fs order doneP _ _ _ rest key v
                Hsc Horder Hplan Hperm Hv) as [?|(job & r & _ & Hone)]; [done|].
    by rewrite HA, HB in Hone. }
  repeat split; try done.
  - intros new' job r Hlog' Hjob E. rewrite Hlog in Hlog'.
    apply app_inv_head in Hlog' as <-.
    apply conversions_elem in Hjob.
    eapply (filter_nil_not_elem_of _ _ (job, r)) in Hnone; done.
  - destruct (Hsc _ _ Hv) as [Hname _ _ _].
    specialize (Hin key v). rewrite replay_key, Hnone in Hin.
    specialize (Hin Hv). unfold to_preview in Hin. by rewrite Hname, Hloc in Hin.
Qed.

(** C8. When the converter fails for a job, the step that handles the
    failure leaves every variant as it is; the run returns a result list
    in which the variant of the job has the preview and exactly the
    formats that the scan found; and, in a run whose context is not
    cancelled (validated configuration), every planned job is
    converted. *)
Theorem failed_conversion_keeps_the_variant
    fontDir root w log res w' log' done fs new job e :
  ProcessFonts mkdir_denied run_tool numCPU cfg fontDir root w log
               res w' log' done ->
  findFonts fontDir root = Ok fs ->
  log' = log ++ new ->
  LogConverted job (Failed e) ∈ new ->
  (forall vs, on_result job (Failed e) vs = vs)
  /\ (exists results v,
        res = Ok results /\ fs !! variant job = Some v
        /\ mkPreview (variant job) (PreviewPath v) (Location v) ∈ results)
  /\ (done = false -> Validate cfg = true ->
      forall key v planned,
        fs !! key = Some v ->
        planned ∈ plan_woff2 cfg key v ++ plan_ttf cfg key v ->
        exists r, LogConverted planned r ∈ new).
Proof.
  intros Hrun Hscan Hlog Hfail. split; [done|].
  assert (exists results, res = Ok results) as [results ->].
  { destruct Hrun; eauto; apply (f_equal length) in Hlog;
      rewrite length_app in Hlog; destruct new; try (simpl in Hlog; lia);
      by apply elem_of_nil in Hfail. }
  destruct (findFonts_Ok _ _ _ Hscan) as [_ Hsc].
  destruct (ProcessFonts_Ok _ _ _ _ _ _ _ _ _ _ _ _ _ Hrun Hscan)
    as (order & doneP & woff2Jobs & ttfJobs & new' & rest
        & Horder & Hplan & Hlog' & Hperm & Hall & Hin & _).
  rewrite Hlog in Hlog'. apply app_inv_head in Hlog' as <-.
  apply conversions_elem in Hfail. split.
  - assert (Hjob : job ∈ woff2Jobs ++ ttfJobs).
    { rewrite Hperm. apply elem_of_app. left.
      apply list_elem_of_fmap. by exists (job, Failed e). }
    destruct (planned_job_origin _ _ _ _ _ _ _ Horder Hplan Hjob)
      as (key & v & Hv & Hfrom).
    assert (variant job = key) as <-.
    { apply elem_of_app in Hfrom as [?|?];
        eauto using plan_woff2_variant, plan_ttf_variant. }
    exists results, v. repeat split; try done.
    destruct (conversions_of_key cfg fs order doneP _ _ _ rest _ v
                Hsc Horder Hplan Hperm Hv) as [Hnone|(j & r & Hone & _)].
    + eapply (filter_nil_not_elem_of _ _ (job, Failed e)) in Hnone; done.
    + assert (Hmem : (job, Failed e) ∈ filter (fun c => variant c.1 = variant job)
                                             (conversions new))
        by (by apply list_elem_of_filter).
      rewrite Hone in Hmem. apply list_elem_of_singleton in Hmem as [= <- <-].
      specialize (Hin (variant job) v). rewrite replay_key, Hone in Hin.
      specialize (Hin Hv). unfold to_preview in Hin.
      destruct (Hsc _ _ Hv) as [Hname _ _ _]. by rewrite Hname in Hin.
  - intros Hd Hval key v planned Hv Hpl.
    rewrite (Hall Hd Hval), app_nil_r in Hperm.
    assert (Hjob : planned ∈ woff2Jobs ++ ttfJobs).
    { destruct (planLoop_Ok _ _ _ _ _ _ _ _ Hplan) as [-> ->]. simpl.
      apply order_of_map in Horder as (_ & _ & Hmem).
      apply Hmem, list_elem_of_In in Hv.
      apply elem_of_app. apply elem_of_app in Hpl as [Hpl|Hpl]; [left|right];
        apply list_elem_of_In, in_flat_map; exists (key, v);
        (split; [done|]); by apply list_elem_of_In. }
    rewrite Hperm in Hjob.
    apply list_elem_of_fmap in Hjob as ([j r] & -> & Hjr).
    exists r. by apply conversions_elem.
Qed.

(** C1 (amended).  For a variant that the scan found with a [.ttf] file
    and no [.woff2] file, when the web-compressed batch converts it
    successfully, the job is the one planned from its [.ttf] file and
    the variant is in the results with the [.woff2] reference added to
    its formats and with the preview that the scan chose, unchanged. *)
Theorem converted_variant_gains_woff2_and_keeps_preview
    fontDir root w log results w' log' done fs key v ref new job path :
  ProcessFonts mkdir_denied run_tool numCPU cfg fontDir root w log
               (Ok results) w' log' done ->
  findFonts fontDir root = Ok fs ->
  fs !! key = Some v ->
  Location v !! ".ttf" = Some ref ->
  Location v !! ".woff2" = None ->
  log' = log ++ new ->
  LogConverted job (Ok path) ∈ new ->
  variant job = key ->
  let url := "/download?path=" +:+ Url.QueryEscape path
             +:+ "&filename=" +:+ Url.QueryEscape key +:+ ".woff2" in
  (exists src, ref = downloadURL src
     /\ job = mkJob key src ".ttf"
                    (Filepath.JoinConverted (StaticDir cfg) (key +:+ ".woff2")))
  /\ mkPreview key (PreviewPath v) (<[ ".woff2" := url ]> (Location v)) ∈ results.
Proof.
  intros Hrun Hscan Hv Httf Hwoff2 Hlog Hconv Hkey url.
  destruct (findFonts_Ok _ _ _ Hscan) as [_ Hsc].
  destruct (ProcessFonts_Ok _ _ _ _ _ _ _ _ _ _ _ _ _ Hrun Hscan)
    as (order & doneP & woff2Jobs & ttfJobs & new' & rest
        & Horder & Hplan & Hlog' & Hperm & _ & Hin & _).
  rewrite Hlog in Hlog'. apply app_inv_head in Hlog' as <-.
  apply conversions_elem in Hconv.
  pose proof (plan_scanned_variant cfg key v (Hsc _ _ Hv)) as Hcase.
  rewrite Hwoff2, Httf in Hcase. destruct Hcase as (src & -> & HA & HB).
  destruct (conversions_of_key cfg fs order doneP _ _ _ rest key v
              Hsc Horder Hplan Hperm Hv) as [Hnone|(j & r & Hone & Hj)].
  { eapply (filter_nil_not_elem_of _ _ (job, Ok path)) in Hnone; done. }
  assert (Hmem : (job, Ok path) ∈ filter (fun c => variant c.1 = key)
                                        (conversions new))
    by (by apply list_elem_of_filter).
  rewrite Hone in Hmem. apply list_elem_of_singleton in Hmem as [= <- <-].
  rewrite HA, HB in Hj. injection Hj as Hj. split; [by exists src|].
  destruct (Hsc _ _ Hv) as [Hname Hprev _ _].
  specialize (Hin key). rewrite replay_key, Hone in Hin.
  change (replay [(job, Ok path)] fs) with (on_success job path fs) in Hin.
  unfold on_success in Hin. rewrite Hkey, Hv, lookup_insert_eq in Hin.
  rewrite <- Hj in Hin. simpl in Hin.
  rewrite Ext_converted, Ext_woff2, Hname in Hin.
  rewrite (bool_decide_eq_false_2 (PreviewPath v = "")), andb_false_r in Hin
    by done.
  by apply (Hin _ eq_refl).
Qed.

End Claims.

(** The run on the four fonts returns [demo_results]. *)
Lemma demo_run_results :
  ProcessFonts (fun _ _ => None) demo_tool 8 demo_cfg "fonts" demo_root demo_world []
               (Ok demo_results) demo_run.1.2 demo_run.2 false.
Proof.
  assert (demo_run.1.1 = Ok demo_results) as <- by (vm_compute; reflexivity).
  apply demo_run_is_a_run.
Qed.

Lemma demo_scan : findFonts "fonts" demo_root = Ok demo_fonts.
Proof. vm_compute. reflexivity. Qed.

(** C1 (as stated, refuted).  In the run on the four fonts [Arial.ttf] is
    converted successfully; the results have the new [.woff2] reference
    among the formats of "Arial", and its preview is still the [.ttf]
    reference, not the [.woff2] one. *)
Lemma preview_stays_on_ttf_after_conversion :
  let url := "/download?path=static%2Fconverted%2FArial.woff2&filename=Arial.woff2" in
  let job := mkJob "Arial" "fonts/Arial.ttf" ".ttf" "static/converted/Arial.woff2" in
  exists w' log' v,
    ProcessFonts (fun _ _ => None) demo_tool 8 demo_cfg "fonts" demo_root demo_world []
                 (Ok demo_results) w' log' false
    /\ findFonts "fonts" demo_root = Ok demo_fonts
    /\ demo_fonts !! "Arial" = Some v
    /\ Location v = {[ ".ttf" := downloadURL "fonts/Arial.ttf" ]}
    /\ PreviewPath v = downloadURL "fonts/Arial.ttf"
    /\ LogConverted job (Ok "static/converted/Arial.woff2") ∈ log'
    /\ forall entry,
        entry ∈ demo_results -> preview_name entry = "Arial" ->
        Formats entry !! ".woff2" = Some url
        /\ Preview entry = downloadURL "fonts/Arial.ttf"
        /\ Preview entry <> url.
Proof.
  intros url job.
  exists demo_run.1.2, demo_run.2,
    (mkVariant "Arial" {[ ".ttf" := downloadURL "fonts/Arial.ttf" ]}
               (downloadURL "fonts/Arial.ttf")).
  split; [apply demo_run_results|]. split; [apply demo_scan|].
  split; [vm_compute; reflexivity|]. split; [reflexivity|]. split; [reflexivity|].
  split.
  - apply list_elem_of_In. vm_compute. tauto.
  - intros entry Hin Hname. unfold demo_results in Hin.
    repeat (apply elem_of_cons in Hin as [->|Hin]); try discriminate Hname.
    + split; [vm_compute; reflexivity|]. split; [reflexivity|]. vm_compute. discriminate.
    + by apply elem_of_nil in Hin.
Qed.

Lemma converted_variant_gains_woff2_and_keeps_preview_witness :
  mkPreview "Arial" (downloadURL "fonts/Arial.ttf")
    (<[ ".woff2" := "/download?path=" +:+ Url.QueryEscape "static/converted/Arial.woff2"
                    +:+ "&filename=" +:+ Url.QueryEscape "Arial" +:+ ".woff2" ]>
       {[ ".ttf" := downloadURL "fonts/Arial.ttf" ]})
  ∈ demo_results.
Proof.
  set (v := mkVariant "Arial" {[ ".ttf" := downloadURL "fonts/Arial.ttf" ]}
                      (downloadURL "fonts/Arial.ttf")).
  set (job := mkJob "Arial" "fonts/Arial.ttf" ".ttf" "static/converted/Arial.woff2").
  assert (Hv : demo_fonts !! "Arial" = Some v) by (vm_compute; reflexivity).
  assert (Hlog : LogConverted job (Ok "static/converted/Arial.woff2") ∈ demo_run.2)
    by (apply list_elem_of_In; vm_compute; tauto).
  exact (proj2 (converted_variant_gains_woff2_and_keeps_preview
                  (fun _ _ => None) demo_tool 8 demo_cfg "fonts" demo_root demo_world []
                  demo_results demo_run.1.2 demo_run.2 false demo_fonts "Arial" v
                  (downloadURL "fonts/Arial.ttf") demo_run.2 job
                  "static/converted/Arial.woff2"
                  demo_run_results demo_scan Hv eq_refl eq_refl eq_refl Hlog eq_refl)).
Defined.

Lemma failed_conversion_keeps_the_variant_witness :
  exists results v,
    (Ok demo_results : result FontProcessError (list FontPreview)) = Ok results
    /\ demo_fonts !! "Broken" = Some v
    /\ mkPreview "Broken" (PreviewPath v) (Location v) ∈ results.
Proof.
  set (job := mkJob "Broken" "fonts/Broken.otf" ".otf" "static/converted/Broken.woff2").
  set (e := mkError "woff2_compress" "static/converted/Broken.otf"
                    (ExitStatus 1 "failed")).
  assert (Hlog : LogConverted job (Failed e) ∈ demo_run.2)
    by (apply list_elem_of_In; vm_compute; tauto).
  exact (proj1 (proj2 (failed_conversion_keeps_the_variant
                  (fun _ _ => None) demo_tool 8 demo_cfg "fonts" demo_root demo_world []
                  (Ok demo_results) demo_run.1.2 demo_run.2 false demo_fonts
                  demo_run.2 job e demo_run_results demo_scan eq_refl Hlog))).
Defined.

Lemma woff_only_variant_is_left_alone_witness :
  mkPreview "Old" (downloadURL "fonts/Old.woff")
            {[ ".woff" := downloadURL "fonts/Old.woff" ]}
  ∈ demo_results.
Proof.
  set (v := mkVariant "Old" {[ ".woff" := downloadURL "fonts/Old.woff" ]}
                      (downloadURL "fonts/Old.woff")).
  assert (Hv : demo_fonts !! "Old" = Some v) by (vm_compute; reflexivity).
  exact (proj2 (proj2 (proj2 (woff_only_variant_is_left_alone
                  (fun _ _ => None) demo_tool 8 demo_cfg "fonts" demo_root demo_world []
                  demo_results demo_run.1.2 demo_run.2 false demo_fonts "Old" v
                  (downloadURL "fonts/Old.woff")
                  demo_run_results demo_scan Hv eq_refl)))).
Defined.

(** * Further properties *)

(** ** The scanner and the references *)

(** X1. A reference made by the scanner decodes to the path it was made
    from: [url.QueryUnescape] inverts [url.QueryEscape] on every byte
    string, so [decodeFilePath] returns the scanned path, whatever bytes
    the path has. *)
Theorem scanned_reference_decodes_to_its_path (path : string) :
  Url.QueryUnescape (Url.QueryEscape path) = Some path
  /\ decodeFilePath (downloadURL path) = Ok path.
Proof.
  split; [apply QueryUnescape_QueryEscape|apply decodeFilePath_downloadURL].
Qed.

Lemma scan_fonts_lookup_None ps name :
  scan_fonts ps !! name = None <-> files_of name ps = [].
Proof.
  induction ps as [|p ps IH] using rev_ind.
  - change (scan_fonts []) with (∅ : gmap string FontVariant).
    by rewrite lookup_empty.
  - rewrite scan_fonts_snoc, files_of_snoc.
    destruct (decide (baseName p = name)) as [<-|Hne].
    + destruct (record_font_same p (scan_fonts ps)) as (v' & -> & _).
      split; [done|]. by destruct (files_of _ ps).
    + rewrite record_font_other by done. by rewrite app_nil_r.
Qed.

(** The extensions recorded for a stem are the extensions of its files. *)
Lemma scan_fonts_location_keys ps :
  forall name v,
    scan_fonts ps !! name = Some v ->
    Name v = name
    /\ forall ext, is_Some (Location v !! ext)
                   <-> exists p, p ∈ files_of name ps /\ fontExt p = ext.
Proof.
  induction ps as [|p ps IH] using rev_ind; intros name v.
  - change (scan_fonts []) with (∅ : gmap string FontVariant).
    by rewrite lookup_empty.
  - rewrite scan_fonts_snoc, files_of_snoc.
    destruct (decide (baseName p = name)) as [<-|Hne].
    + destruct (record_font_same p (scan_fonts ps)) as (v' & -> & Hn & Hl & _).
      intros [= <-]. specialize (IH (baseName p)).
      destruct (scan_fonts ps !! baseName p) as [v0|] eqn:E0; simpl in Hn, Hl.
      * destruct (IH v0 eq_refl) as [Hn0 Hk0]. split; [congruence|].
        intros ext. rewrite Hl. destruct (decide (fontExt p = ext)) as [<-|Hx].
        -- rewrite lookup_insert_eq. split; [|by eauto].
           intros _. exists p. split; [|done]. apply elem_of_app. right. left.
        -- rewrite lookup_insert_ne, Hk0 by done. split.
           ++ intros (q & Hq & Hqe). exists q. split; [|done].
              apply elem_of_app. by left.
           ++ intros (q & [Hq|Hq]%elem_of_app & Hqe); [by eauto|].
              apply list_elem_of_singleton in Hq as ->. done.
      * split; [done|]. intros ext. rewrite Hl.
        pose proof (proj1 (scan_fonts_lookup_None ps (baseName p)) E0) as Hnone.
        rewrite Hnone. simpl.
        destruct (decide (fontExt p = ext)) as [<-|Hx].
        -- rewrite lookup_insert_eq. split; [|by eauto].
           intros _. exists p. split; [left|done].
        -- rewrite lookup_insert_ne, lookup_empty by done. split.
           ++ by intros [? ?].
           ++ intros (q & Hq & Hqe). apply list_elem_of_singleton in Hq as ->. done.
    + rewrite record_font_other by done. rewrite app_nil_r. apply IH.
Qed.

(** X2. A successful scan groups the font files by stem: there is a
    variant under a name exactly when a font file with that stem was met,
    the variant carries that name, and it has a reference under an
    extension exactly when a file of the stem with that (lowered)
    extension was met. *)
Theorem scan_groups_files_by_stem rootPath root fs :
  findFonts rootPath root = Ok fs ->
  let paths := font_paths (seen_of root) in
  (forall name, is_Some (fs !! name) <-> exists p, p ∈ paths /\ baseName p = name)
  /\ (forall name v,
        fs !! name = Some v ->
        Name v = name
        /\ forall ext, is_Some (Location v !! ext)
                       <-> exists p, p ∈ paths /\ baseName p = name /\ fontExt p = ext).
Proof.
  intros [-> _]%findFonts_Ok paths. subst paths. split.
  - intros name. rewrite <- not_eq_None_Some, scan_fonts_lookup_None. split.
    + intros Hne. destruct (files_of name _) as [|p l] eqn:E; [done|].
      assert (Hp : p ∈ files_of name (font_paths (seen_of root))) by (rewrite E; left).
      apply list_elem_of_filter in Hp as [? ?]. eauto.
    + intros (p & Hp & Hname) E.
      assert (Hin : p ∈ files_of name (font_paths (seen_of root)))
        by (by apply list_elem_of_filter).
      rewrite E in Hin. by apply elem_of_nil in Hin.
  - intros name v Hv. destruct (scan_fonts_location_keys _ _ _ Hv) as [Hn Hk].
    split; [done|]. intros ext. rewrite Hk. split.
    + intros (p & [? ?]%list_elem_of_filter & ?). eauto.
    + intros (p & ? & ? & ?). exists p. split; [|done]. by apply list_elem_of_filter.
Qed.

Lemma scan_groups_files_by_stem_witness :
  exists fs v,
    findFonts "fonts" demo_root = Ok fs
    /\ fs !! "Arial" = Some v /\ Name v = "Arial"
    /\ is_Some (fs !! baseName "fonts/Web.woff2").
Proof.
  exists demo_fonts. eexists. split; [apply demo_scan|].
  split; [vm_compute; reflexivity|]. split; [reflexivity|].
  apply (proj1 (scan_groups_files_by_stem "fonts" demo_root demo_fonts demo_scan)).
  exists "fonts/Web.woff2". split; [|reflexivity].
  apply list_elem_of_In. vm_compute. tauto.
Defined.

Lemma scan_fonts_empty ps : scan_fonts ps = ∅ <-> ps = [].
Proof.
  split; [|by intros ->].
  intros Hempty. destruct ps as [|p ps]; [done|]. exfalso.
  assert (Hnone : scan_fonts (p :: ps) !! baseName p = None)
    by (by rewrite Hempty, lookup_empty).
  apply scan_fonts_lookup_None in Hnone. unfold files_of in Hnone.
  by rewrite filter_cons_True in Hnone.
Qed.

(** X3. The scan succeeds exactly when the walk meets no error other than
    a permission error and meets at least one font file; with no such
    error and no font file it fails with the [scan] error "no font files
    found"; the map it returns is never empty; and its only errors are
    [access] and that [scan] error: the [walk] error of lines 348-355
    is never returned, because the callback returns no error to the walk. *)
Theorem findFonts_succeeds_iff rootPath root :
  ((exists fs, findFonts rootPath root = Ok fs)
   <-> other_errors (seen_of root) = [] /\ font_paths (seen_of root) <> [])
  /\ (other_errors (seen_of root) = [] -> font_paths (seen_of root) = [] ->
      findFonts rootPath root
      = Failed (mkError "scan" rootPath (Errorf "no font files found in directory")))
  /\ (forall fs, findFonts rootPath root = Ok fs -> fs <> ∅)
  /\ (forall e, findFonts rootPath root = Failed e ->
        (exists path oe, IsPermission oe = false
                         /\ e = mkError "access" path (OsCause oe))
        \/ e = mkError "scan" rootPath (Errorf "no font files found in directory")).
Proof.
  rewrite findFonts_seen.
  destruct (other_errors (seen_of root)) as [|pe rest] eqn:E; simpl.
  - assert (Hsize : size (scan_fonts (font_paths (seen_of root))) = 0
                    <-> font_paths (seen_of root) = [])
      by (by rewrite map_size_empty_iff, scan_fonts_empty).
    case_bool_decide as Hz; (split; [|split; [|split]]).
    + split; [by intros [? ?]|]. intros [_ Hne]. by apply Hsize in Hz.
    + done.
    + done.
    + intros e [= <-]. by right.
    + split; [|by eauto]. intros _. split; [done|]. by rewrite <- Hsize.
    + intros _ Hnone. by apply Hsize in Hnone.
    + intros fs [= <-] Hempty. apply Hz. by rewrite Hempty.
    + done.
  - split; [|split; [|split]]; try done.
    + split; [by intros [? ?]|by intros [? _]].
    + intros e [= <-]. left. exists pe.1, pe.2. split; [|done].
      assert (Hin : pe ∈ other_errors (seen_of root)) by (rewrite E; left).
      unfold other_errors in Hin.
      apply list_elem_of_In, in_flat_map in Hin as (s & _ & Hin).
      destruct s as [p|p|p oe]; try done.
      destruct (IsPermission oe) eqn:Hperm; [done|].
      apply list_elem_of_In, list_elem_of_singleton in Hin. by subst.
Qed.

Lemma findFonts_succeeds_iff_witness :
  findFonts "fonts" (Directory "fonts" None
                       [File "fonts/readme.txt"; LstatFail "fonts/x" EACCES;
                        Directory "fonts/sub" None []])
  = Failed (mkError "scan" "fonts" (Errorf "no font files found in directory")).
Proof.
  apply (proj1 (proj2 (findFonts_succeeds_iff "fonts" _))); reflexivity.
Defined.

(** ** The planner *)

Lemma plan_at_most_one cfg key v :
  length (plan_woff2 cfg key v ++ plan_ttf cfg key v) <= 1.
Proof.
  unfold plan_woff2, plan_ttf, compress_job.
  destruct (Location v !! ".woff2"), (Location v !! ".ttf"), (Location v !! ".otf");
    simpl; repeat (match goal with |- context [decodeFilePath ?r] =>
                                     destruct (decodeFilePath r) end; simpl); lia.
Qed.

Lemma flat_map_app_perm {A B} (g h : A -> list B) (l : list A) :
  flat_map (fun x => g x ++ h x) l ≡ₚ flat_map g l ++ flat_map h l.
Proof.
  induction l as [|x l IH]; [done|]. simpl. rewrite IH. solve_Permutation.
Qed.

Lemma NoDup_flat_map_variant (f : string -> FontVariant -> list ConversionJob)
    (vs : list (string * FontVariant)) :
  (forall k v job, job ∈ f k v -> variant job = k) ->
  (forall k v, length (f k v) <= 1) ->
  NoDup vs.*1 ->
  NoDup (variant <$> flat_map (fun kv => f kv.1 kv.2) vs).
Proof.
  intros Hvar Hone. induction vs as [|[k v] vs IH]; [constructor|].
  simpl. intros [Hk Hnd]%NoDup_cons. rewrite fmap_app. apply NoDup_app.
  split; [|split; [|by apply IH]].
  - specialize (Hone k v). destruct (f k v) as [|j [|j' l]]; simpl in *;
      [constructor|apply NoDup_singleton|lia].
  - intros x (j & -> & Hj)%list_elem_of_fmap (j' & E & Hj')%list_elem_of_fmap.
    apply Hvar in Hj. apply Hk.
    apply list_elem_of_In, in_flat_map in Hj' as ([k' v'] & Hin & Hj').
    apply list_elem_of_In, Hvar in Hj'. simpl in *.
    apply list_elem_of_fmap. exists (k', v'). split; [simpl; congruence|].
    by apply list_elem_of_In.
Qed.

Lemma append_inv_tail (a b c : string) : a +:+ c = b +:+ c -> a = b.
Proof.
  intros E. apply (f_equal list_ascii_of_string) in E.
  rewrite !list_ascii_of_string_app in E. apply app_inv_tail in E.
  apply (f_equal string_of_list_ascii) in E.
  by rewrite !string_of_list_ascii_of_string in E.
Qed.

Lemma append_inv_head (a b c : string) : a +:+ b = a +:+ c -> b = c.
Proof.
  intros E. apply (f_equal list_ascii_of_string) in E.
  rewrite !list_ascii_of_string_app in E. apply app_inv_head in E.
  apply (f_equal string_of_list_ascii) in E.
  by rewrite !string_of_list_ascii_of_string in E.
Qed.

(** The output of a planned job tells its variant. *)
Lemma planned_output_inj cfg key1 v1 key2 v2 job1 job2 :
  Name v1 = key1 -> Name v2 = key2 ->
  job1 ∈ plan_woff2 cfg key1 v1 ++ plan_ttf cfg key1 v1 ->
  job2 ∈ plan_woff2 cfg key2 v2 ++ plan_ttf cfg key2 v2 ->
  outputPath job1 = outputPath job2 -> key1 = key2.
Proof.
  intros Hn1 Hn2 H1 H2 E.
  assert (Hout : forall key v job,
             Name v = key ->
             job ∈ plan_woff2 cfg key v ++ plan_ttf cfg key v ->
             outputPath job = Filepath.JoinConverted (StaticDir cfg) (key +:+ ".woff2")
             \/ outputPath job = Filepath.JoinConverted (StaticDir cfg) (key +:+ ".ttf")).
  { intros key v job Hn. unfold plan_woff2, plan_ttf, compress_job.
    destruct (Location v !! ".woff2"), (Location v !! ".ttf"), (Location v !! ".otf");
      simpl; repeat (match goal with |- context [decodeFilePath ?r] =>
                                       destruct (decodeFilePath r) end; simpl);
      rewrite ?Hn; intros Hj;
      repeat (apply elem_of_cons in Hj as [->|Hj]); try (by apply elem_of_nil in Hj);
      simpl; auto. }
  destruct (Hout _ _ _ Hn1 H1) as [E1|E1], (Hout _ _ _ Hn2 H2) as [E2|E2];
    rewrite E1, E2 in E.
  - unfold Filepath.JoinConverted in E.
    apply append_inv_head, append_inv_head in E. by apply append_inv_tail in E.
  - apply (f_equal Filepath.Ext) in E.
    by rewrite !Ext_converted, Ext_woff2, Ext_ttf in E.
  - apply (f_equal Filepath.Ext) in E.
    by rewrite !Ext_converted, Ext_woff2, Ext_ttf in E.
  - unfold Filepath.JoinConverted in E.
    apply append_inv_head, append_inv_head in E. by apply append_inv_tail in E.
Qed.

Lemma NoDup_fmap_inj_on {A B} (f g : A -> B) (l : list A) :
  (forall x y, x ∈ l -> y ∈ l -> g x = g y -> f x = f y) ->
  NoDup (f <$> l) -> NoDup (g <$> l).
Proof.
  induction l as [|a l IH]; [constructor|].
  intros Hinj [Ha Hnd]%NoDup_cons. csimpl. apply NoDup_cons. split.
  - intros (y & E & Hy)%list_elem_of_fmap. apply Ha.
    apply list_elem_of_fmap. exists y. split; [|done].
    apply Hinj; [left|by right|done].
  - apply IH; [|done]. intros x y Hx Hy. apply Hinj; by right.
Qed.

Lemma planned_jobs_length cfg done order woff2Jobs ttfJobs :
  planLoop cfg done 0 order [] [] = Ok (woff2Jobs, ttfJobs) ->
  length (woff2Jobs ++ ttfJobs) <= length order.
Proof.
  intros Hplan. destruct (planLoop_Ok _ _ _ _ _ _ _ _ Hplan) as [-> ->]. simpl.
  rewrite <- flat_map_app_perm.
  clear. induction order as [|[k v] l IH]; [done|]. simpl.
  rewrite length_app. pose proof (plan_at_most_one cfg k v). lia.
Qed.

(** X4. The jobs that the planner makes of a scanned directory, the two
    batches taken together, point to pairwise distinct variants and
    write to pairwise distinct output files: no variant is converted
    twice in a run and no two workers are given the same output. *)
Theorem planned_jobs_are_for_distinct_variants
    cfg rootPath root fs order done woff2Jobs ttfJobs :
  findFonts rootPath root = Ok fs ->
  order ≡ₚ map_to_list fs ->
  planLoop cfg done 0 order [] [] = Ok (woff2Jobs, ttfJobs) ->
  NoDup (variant <$> woff2Jobs ++ ttfJobs)
  /\ NoDup (outputPath <$> woff2Jobs ++ ttfJobs)
  /\ length (woff2Jobs ++ ttfJobs) <= size fs.
Proof.
  intros Hscan Horder Hplan.
  destruct (findFonts_Ok _ _ _ Hscan) as [_ Hsc].
  destruct (order_of_map _ _ Horder) as (Hnd & _ & Hmem).
  assert (Hvariants : NoDup (variant <$> woff2Jobs ++ ttfJobs)).
  { destruct (planLoop_Ok _ _ _ _ _ _ _ _ Hplan) as [-> ->]. simpl.
    rewrite <- flat_map_app_perm.
    apply (NoDup_flat_map_variant
             (fun k v => plan_woff2 cfg k v ++ plan_ttf cfg k v)); [|apply plan_at_most_one|done].
    intros k v job [?|?]%elem_of_app;
      eauto using plan_woff2_variant, plan_ttf_variant. }
  split; [done|]. split.
  - eapply NoDup_fmap_inj_on; [|exact Hvariants].
    intros j1 j2 Hj1 Hj2 E.
    destruct (planned_job_origin _ _ _ _ _ _ _ Horder Hplan Hj1) as (k1 & v1 & Hv1 & Hp1).
    destruct (planned_job_origin _ _ _ _ _ _ _ Horder Hplan Hj2) as (k2 & v2 & Hv2 & Hp2).
    assert (variant j1 = k1) as ->
      by (apply elem_of_app in Hp1 as [?|?];
          eauto using plan_woff2_variant, plan_ttf_variant).
    assert (variant j2 = k2) as ->
      by (apply elem_of_app in Hp2 as [?|?];
          eauto using plan_woff2_variant, plan_ttf_variant).
    destruct (Hsc _ _ Hv1) as [Hn1 _ _ _], (Hsc _ _ Hv2) as [Hn2 _ _ _].
    eapply planned_output_inj; eauto.
  - rewrite <- length_map_to_list, <- Horder. by eapply planned_jobs_length.
Qed.

Lemma demo_plan :
  planLoop demo_cfg (fun _ => false) 0 (map_to_list demo_fonts) [] []
  = Ok ([mkJob "Arial" "fonts/Arial.ttf" ".ttf" "static/converted/Arial.woff2";
         mkJob "Broken" "fonts/Broken.otf" ".otf" "static/converted/Broken.woff2"],
        [mkJob "Web" "fonts/Web.woff2" ".woff2" "static/converted/Web.ttf"]).
Proof. vm_compute. reflexivity. Qed.

Lemma planned_jobs_are_for_distinct_variants_witness :
  let woff2Jobs :=
    [mkJob "Arial" "fonts/Arial.ttf" ".ttf" "static/converted/Arial.woff2";
     mkJob "Broken" "fonts/Broken.otf" ".otf" "static/converted/Broken.woff2"] in
  let ttfJobs := [mkJob "Web" "fonts/Web.woff2" ".woff2" "static/converted/Web.ttf"] in
  NoDup (variant <$> woff2Jobs ++ ttfJobs)
  /\ NoDup (outputPath <$> woff2Jobs ++ ttfJobs)
  /\ length (woff2Jobs ++ ttfJobs) <= size demo_fonts.
Proof.
  exact (planned_jobs_are_for_distinct_variants
           demo_cfg "fonts" demo_root demo_fonts (map_to_list demo_fonts)
           (fun _ => false) _ _ demo_scan (reflexivity _) demo_plan).
Defined.

(** ** The results of a run *)

Lemma on_result_names job r (vs : gmap string FontVariant) key :
  Name <$> on_result job r vs !! key = Name <$> vs !! key.
Proof.
  destruct r as [path|e]; [|done]. simpl. unfold on_success.
  destruct (vs !! variant job) as [v|] eqn:E; [|done].
  destruct (decide (variant job = key)) as [<-|Hne].
  - by rewrite lookup_insert_eq, E.
  - by rewrite lookup_insert_ne.
Qed.

Lemma replay_names cs : forall (vs : gmap string FontVariant) key,
  Name <$> replay cs vs !! key = Name <$> vs !! key.
Proof.
  induction cs as [|[job r] cs IH]; [done|]. intros vs key.
  change (replay ((job, r) :: cs) vs) with (replay cs (on_result job r vs)).
  by rewrite IH, on_result_names.
Qed.

Lemma names_of_keyed (l : list (string * FontVariant)) :
  (forall kv, kv ∈ l -> Name kv.2 = kv.1) ->
  (preview_name ∘ to_preview) <$> l.*2 = l.*1.
Proof.
  induction l as [|kv l IH]; [done|]. intros Hall. csimpl.
  rewrite IH by (intros; apply Hall; by right).
  f_equal. apply Hall. left.
Qed.

Lemma map_keys_perm (m1 m2 : gmap string FontVariant) :
  (forall key, is_Some (m1 !! key) <-> is_Some (m2 !! key)) ->
  (map_to_list m1).*1 ≡ₚ (map_to_list m2).*1.
Proof.
  intros Hdom. apply NoDup_Permutation; try apply NoDup_fst_map_to_list.
  intros key. split.
  - intros ([k v] & -> & Hin%elem_of_map_to_list)%list_elem_of_fmap. simpl.
    destruct (proj1 (Hdom k) (mk_is_Some _ _ Hin)) as [v' Hv'].
    apply list_elem_of_fmap. exists (k, v'). split; [done|].
    by apply elem_of_map_to_list.
  - intros ([k v] & -> & Hin%elem_of_map_to_list)%list_elem_of_fmap. simpl.
    destruct (proj2 (Hdom k) (mk_is_Some _ _ Hin)) as [v' Hv'].
    apply list_elem_of_fmap. exists (k, v'). split; [done|].
    by apply elem_of_map_to_list.
Qed.

Lemma step_logged_from_converter {W}
    (converter : string -> string -> W -> result FontProcessError string * W)
    total σ σ' :
  step converter total σ σ' ->
  exists new,
    logged σ' = logged σ ++ new
    /\ forall job r, LogConverted job r ∈ new ->
         exists w w', converter (sourceFile job) (outputPath job) w = (r, w').
Proof.
  intros Hstep.
  destruct Hstep as [σ i job rest _ _|σ i _ _|σ i job _ _|σ i job _ _
                    |σ i job r w' _ Hc|σ i job current _ _ p|σ i job current _ _
                    |σ i job current _ _ _ p|σ p rest _|σ _]; simpl;
    try (exists []; rewrite app_nil_r; split; [done|];
         by intros ? ? ?%elem_of_nil);
    eexists [_]; (split; [done|]);
    intros j r' [=]%list_elem_of_singleton; subst; eauto.
Qed.

Lemma run_logged_from_converter {W}
    (converter : string -> string -> W -> result FontProcessError string * W)
    total σ σ' :
  rtc (step converter total) σ σ' ->
  exists new,
    logged σ' = logged σ ++ new
    /\ forall job r, LogConverted job r ∈ new ->
         exists w w', converter (sourceFile job) (outputPath job) w = (r, w').
Proof.
  induction 1 as [σ|σ1 σ2 σ3 Hstep _ (new2 & Hl2 & Hc2)].
  - exists []. rewrite app_nil_r. split; [done|]. by intros ? ? ?%elem_of_nil.
  - destruct (step_logged_from_converter _ _ _ _ Hstep) as (new1 & Hl1 & Hc1).
    exists (new1 ++ new2). rewrite Hl2, Hl1, app_assoc. split; [done|].
    intros job r [?|?]%elem_of_app; eauto.
Qed.

Section ResultFacts.
Variable mkdir_denied : string -> gmap string fsentry -> option oserr.
Variable run_tool :
  invocation -> gmap string fsentry -> option cause * gmap string fsentry.
Variable numCPU : Z.
Variable cfg : Config.

Lemma convertToWoff2_Ok src out w path w' :
  convertToWoff2 mkdir_denied run_tool src out w = (Ok path, w') -> path = out.
Proof.
  unfold convertToWoff2.
  destruct (MkdirAll mkdir_denied (Filepath.Dir out) w) as [[e|] w1]; [done|].
  destruct (stat_nonempty out w1); [congruence|].
  destruct (copyFile _ _ _ w1) as [[c|] w2]; [done|].
  destruct (run_command _ _ _ _ w2) as [[c|] w3]; [done|].
  destruct (stat_nonempty out w3); congruence.
Qed.

Lemma convertToTTF_converter_Ok src out w path w' :
  convertToTTF_converter mkdir_denied run_tool src out w = (Ok path, w') -> path = out.
Proof.
  unfold convertToTTF_converter.
  destruct (convertToTTF _ _ _ _ _) as [[e|] w1]; congruence.
Qed.

Lemma batch_logged_from_converter converter jobs (before after : pool World) :
  batch numCPU cfg converter jobs before after ->
  exists new,
    logged after = logged before ++ new
    /\ forall job r, LogConverted job r ∈ new ->
         exists w w', converter (sourceFile job) (outputPath job) w = (r, w').
Proof.
  destruct jobs as [|job jobs].
  - intros ->. exists []. rewrite app_nil_r. split; [done|].
    by intros ? ? ?%elem_of_nil.
  - intros [Hrun _]. by apply run_logged_from_converter in Hrun.
Qed.

(** What a run that returns results is made of. *)
Lemma ProcessFonts_results fontDir root w log results w' log' done fs :
  ProcessFonts mkdir_denied run_tool numCPU cfg fontDir root w log
               (Ok results) w' log' done ->
  findFonts fontDir root = Ok fs ->
  exists order doneP woff2Jobs ttfJobs new rest order',
    order ≡ₚ map_to_list fs
    /\ planLoop cfg doneP 0 order [] [] = Ok (woff2Jobs, ttfJobs)
    /\ log' = log ++ new
    /\ woff2Jobs ++ ttfJobs ≡ₚ (conversions new).*1 ++ rest
    /\ order' ≡ₚ map_to_list (replay (conversions new) fs)
    /\ results = to_preview <$> order'.*2
    /\ (forall job path, LogConverted job (Ok path) ∈ new -> path = outputPath job)
    /\ (forall key v, replay (conversions new) fs !! key = Some v ->
                      to_preview v ∈ results).
Proof.
  intros Hrun Hscan. inversion Hrun as [| | | |w1 fs' order doneP woff2Jobs ttfJobs
      done1 σ1 σ2 order' _ _ Hscan' Horder Hplan HA HB Horder' Hres Hw Hlog Hd].
  rewrite Hscan in Hscan'. injection Hscan' as <-.
  destruct (batch_summary _ _ _ _ _ _ HA) as (newA & restA & HlA & HvA & HpA & HdA).
  destruct (batch_summary _ _ _ _ _ _ HB) as (newB & restB & HlB & HvB & HpB & HdB).
  destruct (batch_logged_from_converter _ _ _ _ HA) as (newA' & HlA' & HcA).
  destruct (batch_logged_from_converter _ _ _ _ HB) as (newB' & HlB' & HcB).
  rewrite HlA in HlA'. apply app_inv_head in HlA' as <-.
  rewrite HlB in HlB'. apply app_inv_head in HlB' as <-.
  simpl in HlA, HvA, HdA.
  assert (Hfinal : variants σ2 = replay (conversions (newA ++ newB)) fs).
  { by rewrite conversions_app, replay_app, <- HvA, <- HvB. }
  exists order, doneP, woff2Jobs, ttfJobs, (newA ++ newB), (restA ++ restB), order'.
  rewrite <- Hfinal. repeat split; try done.
  - by rewrite HlB, HlA, app_assoc.
  - rewrite conversions_app, fmap_app, HpA, HpB. solve_Permutation.
  - intros job path [Hin|Hin]%elem_of_app.
    + destruct (HcA _ _ Hin) as (wa & wb & Hc). by apply convertToWoff2_Ok in Hc.
    + destruct (HcB _ _ Hin) as (wa & wb & Hc).
      by apply convertToTTF_converter_Ok in Hc.
  - intros key v Hv. apply list_elem_of_fmap. exists v. split; [done|].
    apply list_elem_of_fmap. exists (key, v). split; [done|].
    rewrite Horder'. by apply elem_of_map_to_list.
Qed.

(** X5. A run that returns results returns one entry for every variant
    that the scan found and no other: the names of the entries are the
    names of the scanned variants, each once, whatever was converted,
    failed or cancelled in between. *)
Theorem results_have_one_entry_per_scanned_variant
    fontDir root w log results w' log' done fs :
  ProcessFonts mkdir_denied run_tool numCPU cfg fontDir root w log
               (Ok results) w' log' done ->
  findFonts fontDir root = Ok fs ->
  preview_name <$> results ≡ₚ (map_to_list fs).*1
  /\ NoDup (preview_name <$> results)
  /\ length results = size fs.
Proof.
  intros Hrun Hscan.
  destruct (findFonts_Ok _ _ _ Hscan) as [_ Hsc].
  destruct (ProcessFonts_results _ _ _ _ _ _ _ _ _ Hrun Hscan)
    as (order & doneP & woff2Jobs & ttfJobs & new & rest & order'
        & _ & _ & _ & _ & Horder' & -> & _ & _).
  assert (Hnames : preview_name <$> (to_preview <$> order'.*2)
                   ≡ₚ (map_to_list fs).*1).
  { rewrite <- list_fmap_compose.
    assert (Hkeys : (preview_name ∘ to_preview) <$> order'.*2 = order'.*1).
    { assert (Hall : forall kv, kv ∈ order' -> Name kv.2 = kv.1).
      { intros [k v] Hin. rewrite Horder' in Hin.
        apply elem_of_map_to_list in Hin. simpl.
        pose proof (replay_names (conversions new) fs k) as Hn.
        rewrite Hin in Hn. destruct (fs !! k) as [v0|] eqn:E; [|done].
        destruct (Hsc _ _ E) as [Hname _ _ _]. simpl in Hn. congruence. }
      by apply names_of_keyed. }
    rewrite Hkeys, Horder'. apply map_keys_perm. intros key.
    by rewrite <- !(fmap_is_Some Name), replay_names. }
  split; [done|]. split.
  - rewrite Hnames. apply NoDup_fst_map_to_list.
  - apply Permutation_length in Hnames.
    rewrite !length_fmap, length_map_to_list in Hnames.
    by rewrite !length_fmap.
Qed.

Lemma planned_job_ext key v job :
  scanned_variant key v ->
  plan_woff2 cfg key v ++ plan_ttf cfg key v = [job] ->
  variant job = key
  /\ (Filepath.Ext (outputPath job) = ".woff2"
      \/ Filepath.Ext (outputPath job) = ".ttf")
  /\ Location v !! Filepath.Ext (outputPath job) = None.
Proof.
  intros Hsv Hplan. pose proof (plan_scanned_variant cfg key v Hsv) as Hcase.
  destruct (Location v !! ".woff2") eqn:E1, (Location v !! ".ttf") eqn:E2,
    (Location v !! ".otf") eqn:E3;
    repeat match goal with
           | H : exists _, _ |- _ => destruct H as (? & ? & ? & ?)
           | H : _ /\ _ |- _ => destruct H
           end;
    repeat match goal with H : plan_woff2 _ _ _ = _ |- _ => rewrite H in Hplan end;
    repeat match goal with H : plan_ttf _ _ _ = _ |- _ => rewrite H in Hplan end;
    try discriminate Hplan; injection Hplan as <-; simpl;
    rewrite Ext_converted, ?Ext_woff2, ?Ext_ttf; auto.
Qed.

(** The variant under [key] at the end of a run: as the scan left it, or
    with the reference of its one successful conversion added. *)
Lemma final_variant_of_key fs order doneP woff2Jobs ttfJobs
    (cs : list (ConversionJob * result FontProcessError string)) rest key v :
  scanned fs ->
  order ≡ₚ map_to_list fs ->
  planLoop cfg doneP 0 order [] [] = Ok (woff2Jobs, ttfJobs) ->
  woff2Jobs ++ ttfJobs ≡ₚ cs.*1 ++ rest ->
  fs !! key = Some v ->
  (replay cs fs !! key = Some v
   /\ forall job path, (job, Ok path) ∈ cs -> variant job <> key)
  \/ exists job path,
       (job, Ok path) ∈ cs /\ variant job = key
       /\ (forall job' r, (job', r) ∈ cs -> variant job' = key ->
                          job' = job /\ r = Ok path)
       /\ (Filepath.Ext (outputPath job) = ".woff2"
           \/ Filepath.Ext (outputPath job) = ".ttf")
       /\ Location v !! Filepath.Ext (outputPath job) = None
       /\ replay cs fs !! key
          = Some (mkVariant key
                    (<[Filepath.Ext (outputPath job) :=
                         "/download?path=" +:+ Url.QueryEscape path
                         +:+ "&filename=" +:+ Url.QueryEscape key
                         +:+ Filepath.Ext (outputPath job)]> (Location v))
                    (PreviewPath v)).
Proof.
  intros Hsc Horder Hplan Hperm Hv.
  assert (Hmem : forall job r, (job, r) ∈ cs -> variant job = key ->
                   (job, r) ∈ filter (fun c => variant c.1 = key) cs)
    by (intros; by apply list_elem_of_filter).
  destruct (conversions_of_key cfg fs order doneP _ _ _ rest key v
              Hsc Horder Hplan Hperm Hv) as [Hnone|(job & [path|e] & Hone & Hj)].
  - left. rewrite replay_key, Hnone. split; [done|].
    intros job path Hin Hkey. specialize (Hmem _ _ Hin Hkey).
    rewrite Hnone in Hmem. by apply elem_of_nil in Hmem.
  - right. exists job, path.
    destruct (planned_job_ext key v job (Hsc _ _ Hv) Hj) as (Hkey & Hext & Hfree).
    assert (Hin : (job, Ok path) ∈ filter (fun c => variant c.1 = key) cs)
      by (rewrite Hone; left).
    apply list_elem_of_filter in Hin as [_ Hin].
    split; [done|]. split; [done|]. split.
    { intros job' r Hin' Hkey'. specialize (Hmem _ _ Hin' Hkey').
      rewrite Hone in Hmem. by apply list_elem_of_singleton in Hmem as [= -> ->]. }
    split; [done|]. split; [done|].
    rewrite replay_key, Hone.
    change (replay [(job, Ok path)] fs) with (on_success job path fs).
    unfold on_success. rewrite Hkey, Hv, lookup_insert_eq.
    destruct (Hsc _ _ Hv) as [Hname Hprev _ _]. rewrite Hname.
    by rewrite (bool_decide_eq_false_2 (PreviewPath v = "")), andb_false_r by done.
  - left. rewrite replay_key, Hone. split; [done|].
    intros job' path Hin Hkey. specialize (Hmem _ _ Hin Hkey).
    rewrite Hone in Hmem. by apply list_elem_of_singleton in Hmem.
Qed.

(** X6. Whatever a run converts, the entry of a scanned variant keeps
    the preview and every reference that the scan recorded, and the
    only format a run can add to it is [.woff2] or [.ttf]. *)
Theorem run_keeps_the_scanned_references
    fontDir root w log results w' log' done fs key v :
  ProcessFonts mkdir_denied run_tool numCPU cfg fontDir root w log
               (Ok results) w' log' done ->
  findFonts fontDir root = Ok fs ->
  fs !! key = Some v ->
  exists entry,
    entry ∈ results /\ preview_name entry = key
    /\ Preview entry = PreviewPath v
    /\ (forall ext ref, Location v !! ext = Some ref ->
                        Formats entry !! ext = Some ref)
    /\ (forall ext, is_Some (Formats entry !! ext) ->
                    is_Some (Location v !! ext) \/ ext = ".woff2" \/ ext = ".ttf").
Proof.
  intros Hrun Hscan Hv.
  destruct (findFonts_Ok _ _ _ Hscan) as [_ Hsc].
  destruct (ProcessFonts_results _ _ _ _ _ _ _ _ _ Hrun Hscan)
    as (order & doneP & woff2Jobs & ttfJobs & new & rest & order'
        & Horder & Hplan & _ & Hperm & _ & _ & _ & Hin).
  destruct (Hsc _ _ Hv) as [Hname _ _ _].
  destruct (final_variant_of_key fs order doneP _ _ _ rest key v
              Hsc Horder Hplan Hperm Hv)
    as [[Hsame _]|(job & path & _ & _ & _ & Hext & Hfree & Hfinal)].
  - exists (to_preview v). split; [by apply (Hin key)|].
    repeat split; try done. intros ext Hext. by left.
  - eexists. split; [apply (Hin key), Hfinal|]. simpl.
    repeat split; try done.
    + intros ext ref Href. rewrite lookup_insert_ne; [done|]. congruence.
    + intros ext Hsome.
      destruct (decide (Filepath.Ext (outputPath job) = ext)) as [<-|Hne].
      * right. done.
      * left. by rewrite lookup_insert_ne in Hsome.
Qed.

(** X7. A conversion that the log reports as successful, in either
    batch, returned the output path of its job; the variant of the job
    had no reference under the extension of that output, [.woff2] or
    [.ttf], and is in the results with the reference to the output
    file added under it, its other references and its preview as
    the scan left them. *)
Theorem converted_reference_points_to_the_output
    fontDir root w log results w' log' done fs new job path :
  ProcessFonts mkdir_denied run_tool numCPU cfg fontDir root w log
               (Ok results) w' log' done ->
  findFonts fontDir root = Ok fs ->
  log' = log ++ new ->
  LogConverted job (Ok path) ∈ new ->
  let key := variant job in
  let ext := Filepath.Ext (outputPath job) in
  let url := "/download?path=" +:+ Url.QueryEscape (outputPath job)
             +:+ "&filename=" +:+ Url.QueryEscape key +:+ ext in
  path = outputPath job
  /\ (ext = ".woff2" \/ ext = ".ttf")
  /\ exists v,
       fs !! key = Some v /\ Location v !! ext = None
       /\ mkPreview key (PreviewPath v) (<[ext := url]> (Location v)) ∈ results.
Proof.
  intros Hrun Hscan Hlog Hconv key ext url.
  destruct (findFonts_Ok _ _ _ Hscan) as [_ Hsc].
  destruct (ProcessFonts_results _ _ _ _ _ _ _ _ _ Hrun Hscan)
    as (order & doneP & woff2Jobs & ttfJobs & new' & rest & order'
        & Horder & Hplan & Hlog' & Hperm & _ & _ & Hpath & Hin).
  rewrite Hlog in Hlog'. apply app_inv_head in Hlog' as <-.
  pose proof (Hpath _ _ Hconv) as ->. split; [done|].
  apply conversions_elem in Hconv.
  assert (Hjob : job ∈ woff2Jobs ++ ttfJobs).
  { rewrite Hperm. apply elem_of_app. left.
    apply list_elem_of_fmap. by exists (job, Ok (outputPath job)). }
  destruct (planned_job_origin _ _ _ _ _ _ _ Horder Hplan Hjob)
    as (key' & v & Hv & Hfrom).
  assert (key = key') as <-.
  { apply elem_of_app in Hfrom as [?|?];
      eauto using plan_woff2_variant, plan_ttf_variant. }
  destruct (final_variant_of_key fs order doneP _ _ _ rest key v
              Hsc Horder Hplan Hperm Hv)
    as [[_ Hnot]|(job' & path' & _ & _ & Hone & Hext & Hfree & Hfinal)].
  { by destruct (Hnot _ _ Hconv). }
  destruct (Hone _ _ Hconv eq_refl) as [<- [= <-]].
  split; [done|]. exists v. split; [done|]. split; [done|].
  apply (Hin key) in Hfinal. exact Hfinal.
Qed.

End ResultFacts.

Lemma results_have_one_entry_per_scanned_variant_witness :
  NoDup (preview_name <$> demo_results) /\ length demo_results = size demo_fonts.
Proof.
  exact (proj2 (results_have_one_entry_per_scanned_variant
                  (fun _ _ => None) demo_tool 8 demo_cfg
                  "fonts" demo_root demo_world [] demo_results
                  demo_run.1.2 demo_run.2 false demo_fonts
                  demo_run_results demo_scan)).
Defined.

Lemma run_keeps_the_scanned_references_witness :
  exists entry,
    entry ∈ demo_results /\ preview_name entry = "Web"
    /\ Preview entry = downloadURL "fonts/Web.woff2"
    /\ Formats entry !! ".woff2" = Some (downloadURL "fonts/Web.woff2").
Proof.
  set (v := mkVariant "Web" {[ ".woff2" := downloadURL "fonts/Web.woff2" ]}
                      (downloadURL "fonts/Web.woff2")).
  assert (Hv : demo_fonts !! "Web" = Some v) by (vm_compute; reflexivity).
  destruct (run_keeps_the_scanned_references
              (fun _ _ => None) demo_tool 8 demo_cfg
              "fonts" demo_root demo_world [] demo_results
              demo_run.1.2 demo_run.2 false demo_fonts "Web" v
              demo_run_results demo_scan Hv)
    as (entry & Hin & Hname & Hprev & Hkeep & _).
  exists entry. split; [done|]. split; [done|]. split; [done|].
  by apply Hkeep.
Defined.

Lemma converted_reference_points_to_the_output_witness :
  mkPreview "Web" (downloadURL "fonts/Web.woff2")
    (<[ ".ttf" := "/download?path=" +:+ Url.QueryEscape "static/converted/Web.ttf"
                  +:+ "&filename=" +:+ Url.QueryEscape "Web" +:+ ".ttf" ]>
       {[ ".woff2" := downloadURL "fonts/Web.woff2" ]})
  ∈ demo_results.
Proof.
  set (job := mkJob "Web" "fonts/Web.woff2" ".woff2" "static/converted/Web.ttf").
  assert (Hlog : LogConverted job (Ok "static/converted/Web.ttf") ∈ demo_run.2)
    by (apply list_elem_of_In; vm_compute; tauto).
  destruct (converted_reference_points_to_the_output
              (fun _ _ => None) demo_tool 8 demo_cfg
              "fonts" demo_root demo_world [] demo_results
              demo_run.1.2 demo_run.2 false demo_fonts demo_run.2 job
              "static/converted/Web.ttf" demo_run_results demo_scan eq_refl Hlog)
    as (_ & _ & v & Hv & _ & Hin).
  assert (Hv' : demo_fonts !! "Web"
                = Some (mkVariant "Web" {[ ".woff2" := downloadURL "fonts/Web.woff2" ]}
                                  (downloadURL "fonts/Web.woff2")))
    by (vm_compute; reflexivity).
  change (variant job) with "Web" in Hv. rewrite Hv' in Hv.
  injection Hv as <-. exact Hin.
Defined.

(** ** Runs that fail *)

Lemma planLoop_Failed cfg done : forall vs i woff2Jobs ttfJobs e,
  planLoop cfg done i vs woff2Jobs ttfJobs = Failed e ->
  e = mkError "process" "" (Errorf "operation cancelled")
  /\ exists k, k < length vs /\ done (i + k) = true.
Proof.
  induction vs as [|[key v] vs IH]; intros i a b e; simpl; [done|].
  destruct (done i) eqn:E.
  - intros [= <-]. split; [done|]. exists 0. rewrite Nat.add_0_r. split; [lia|done].
  - intros (-> & k & Hk & Hd)%IH. split; [done|]. exists (S k).
    rewrite Nat.add_succ_r. split; [lia|done].
Qed.

Section FailureFacts.
Variable mkdir_denied : string -> gmap string fsentry -> option oserr.
Variable run_tool :
  invocation -> gmap string fsentry -> option cause * gmap string fsentry.
Variable numCPU : Z.
Variable cfg : Config.

(** X8. A run of [ProcessFonts] that returns an error has written
    nothing to the log, has started no external program and has taken
    no file away; its error is one of [validate], [create_dirs], [scan]
    and [process], and once the directory is valid, the converted
    directory is there and the scan has found fonts, the only error
    left is the cancellation met by the planner. *)
Theorem failed_run_has_converted_nothing fontDir root w log e w' log' done :
  ProcessFonts mkdir_denied run_tool numCPU cfg fontDir root w log
               (Failed e) w' log' done ->
  log' = log
  /\ invocations w' = invocations w
  /\ (forall path entry, files w !! path = Some entry -> files w' !! path = Some entry)
  /\ (Op e = "validate" \/ Op e = "create_dirs" \/ Op e = "scan" \/ Op e = "process")
  /\ (forall fs, findFonts fontDir root = Ok fs ->
        validate fontDir root = None ->
        (ensureConvertedDir mkdir_denied cfg w).1 = None ->
        e = mkError "process" "" (Errorf "operation cancelled") /\ done = true).
Proof.
  intros Hrun.
  inversion Hrun as [e0 d Hval|e0 w1 d Hval Hdir|w1 e0 d Hval Hdir Hscan
                    |w1 fs order d e0 Hval Hdir Hscan Horder Hplan|]; subst.
  - split; [done|]. split; [done|]. split; [done|]. split.
    + unfold validate in Hval. destruct root as [p [| | | | |]|p|p r l];
        try discriminate Hval; injection Hval as <-; auto.
    + intros fs _ Hval'. congruence.
  - destruct (MkdirAll_keeps _ _ _ _ _ Hdir) as [Hinv Hkeep].
    split; [done|]. split; [done|]. split; [done|]. split; [auto|].
    intros fs _ _ Hd. by rewrite Hdir in Hd.
  - destruct (MkdirAll_keeps _ _ _ _ _ Hdir) as [Hinv Hkeep].
    split; [done|]. split; [done|]. split; [done|]. split; [auto|].
    intros fs Hscan'. congruence.
  - destruct (MkdirAll_keeps _ _ _ _ _ Hdir) as [Hinv Hkeep].
    destruct (planLoop_Failed _ _ _ _ _ _ _ Hplan) as [-> _].
    split; [done|]. split; [done|]. split; [done|]. split; [auto|]. done.
Qed.

End FailureFacts.

Lemma failed_run_has_converted_nothing_witness :
  let e := mkError "validate" "fonts/Arial.ttf" (Errorf "path is not a directory") in
  ([] : list logline) = []
  /\ invocations demo_world = invocations demo_world
  /\ (Op e = "validate" \/ Op e = "create_dirs" \/ Op e = "scan" \/ Op e = "process").
Proof.
  intros e.
  assert (Hrun : ProcessFonts (fun _ _ => None) demo_tool 8 demo_cfg
                   "fonts/Arial.ttf" (File "fonts/Arial.ttf") demo_world []
                   (Failed e) demo_world [] false)
    by (by apply ProcessFonts_invalid).
  pose proof (failed_run_has_converted_nothing
                (fun _ _ => None) demo_tool 8 demo_cfg
                "fonts/Arial.ttf" (File "fonts/Arial.ttf") demo_world [] e
                demo_world [] false Hrun)
    as (Hlog & Hinv & _ & Hop & _).
  exact (conj Hlog (conj Hinv Hop)).
Defined.

(** ** More on the worker pool *)

Lemma flat_map_insert {A B} (f : A -> list B) (l : list A) (i : nat) (x y : A) :
  l !! i = Some x ->
  f x ++ flat_map f (<[i := y]> l) ≡ₚ f y ++ flat_map f l.
Proof.
  intros Hi. pose proof (lookup_lt_Some _ _ _ Hi) as Hlt.
  rewrite insert_take_drop by done.
  rewrite <- (take_drop_middle l i x Hi) at 3.
  change (y :: drop (S i) l) with ([y] ++ drop (S i) l).
  change (x :: drop (S i) l) with ([x] ++ drop (S i) l).
  rewrite !flat_map_app. simpl. rewrite !app_nil_r. solve_Permutation.
Qed.

Lemma reporting_insert (ws : list worker) (i : nat) w w' :
  ws !! i = Some w ->
  reporting [w] ++ reporting (<[i := w']> ws) ≡ₚ reporting [w'] ++ reporting ws.
Proof.
  intros Hi. unfold reporting. simpl. rewrite !app_nil_r.
  by apply (flat_map_insert
              (fun w => match w with Reporting _ current => [current] | _ => [] end)).
Qed.

Lemma returned_count_insert (ws : list worker) (i : nat) w w' :
  ws !! i = Some w ->
  returned_count (<[i := w']> ws) + match w with Returned => 1 | _ => 0 end
  = returned_count ws + match w' with Returned => 1 | _ => 0 end.
Proof.
  unfold returned_count.
  revert i. induction ws as [|x ws IH]; intros [|i] Hi; try done.
  - injection Hi as ->. csimpl. lia.
  - csimpl in *. specialize (IH i Hi). lia.
Qed.

Lemma returned_count_le ws : returned_count ws <= length ws.
Proof.
  unfold returned_count. induction ws as [|[] ws IH]; csimpl; lia.
Qed.

Lemma returned_count_replicate n : returned_count (replicate n Ranging) = 0.
Proof. unfold returned_count. induction n; [done|]. csimpl. lia. Qed.

Lemma progress_events_snoc log l :
  progress_events (log ++ [l])
  = progress_events log
    ++ match l with LogProgress p | LogSkipped p => [p] | _ => [] end.
Proof. unfold progress_events. rewrite flat_map_app. simpl. by rewrite app_nil_r. Qed.

Lemma reporting_replicate_Ranging n : reporting (replicate n Ranging) = [].
Proof. induction n; [done|]. simpl. done. Qed.

Lemma reporting_returned ws : Forall (eq Returned) ws -> reporting ws = [].
Proof. induction 1 as [|w ws <- _ IH]; [done|]. done. Qed.

Lemma progress_of_stage total job current vs :
  Total (progress_of total job current vs) = total
  /\ Current (progress_of total job current vs) = current
  /\ conversion_stage (Stage (progress_of total job current vs)).
Proof.
  split; [done|]. split; [done|]. unfold conversion_stage. simpl.
  unfold conversionType. destruct (GoString.HasSuffix _ _); [by right|by left].
Qed.

Lemma numWorkers_min numCPU cfg :
  numWorkers numCPU cfg = Z.min (Z.max 1 (numCPU ÷ 2)) (MaxConcurrent cfg).
Proof.
  unfold numWorkers.
  destruct (Z.ltb_spec (numCPU ÷ 2) 1);
    match goal with |- context [(?a >? ?b)%Z] => destruct (Z.gtb_spec a b) end; lia.
Qed.

Lemma in_flight_length ws : length (in_flight ws) <= length ws.
Proof.
  induction ws as [|[] ws IH]; simpl; lia.
Qed.

Section PoolMore.
Context {W : Type}.
Variable converter : string -> string -> W -> result FontProcessError string * W.
Variable jobs : list ConversionJob.
Variable n : nat.
Variable vs0 : gmap string FontVariant.
Variable w0 : W.
Variable chan0 : list ConversionProgress.
Variable log0 : list logline.

Lemma cancelled_inv_step total σ σ' :
  step converter total σ σ' -> cancelled_inv vs0 w0 log0 σ -> cancelled_inv vs0 w0 log0 σ'.
Proof.
  intros Hstep (Hd & Hidle & Hc & Hvs & Hw & new & Hlog & Hconv & Hev & Hcount).
  assert (Hat : forall i w, workers σ !! i = Some w -> idle w = true)
    by (intros i w Hi; by apply (Forall_lookup_1 _ _ _ _ Hidle Hi)).
  destruct Hstep as [σ i job rest Hi Hq|σ i Hi Hq|σ i job Hi Hd'|σ i job Hi Hd'
                    |σ i job r w' Hi Hconv'|σ i job cur Hi Hroom p|σ i job cur Hi Hd'
                    |σ i job cur Hi Hfull Hd' p|σ p rest Hq|σ Hd']; simpl in *;
    try congruence; try (by specialize (Hat _ _ Hi)).
  - repeat split; try done; [by apply Forall_insert|].
    exists new. repeat split; try done.
    pose proof (returned_count_insert _ i _ (Received job) Hi). simpl in *. lia.
  - repeat split; try done; [by apply Forall_insert|].
    exists new. repeat split; try done.
    pose proof (returned_count_insert _ i _ Returned Hi). simpl in *. lia.
  - repeat split; try done; [by apply Forall_insert|].
    exists (new ++ [LogCancelled job]).
    rewrite conversions_snoc, progress_events_snoc, cancelled_jobs_snoc, !app_nil_r,
      length_app, Hlog, app_assoc.
    repeat split; try done.
    pose proof (returned_count_insert _ i _ Returned Hi). simpl in *. lia.
  - repeat split; try done. exists new. repeat split; done.
Qed.

Lemma cancelled_inv_run total σ :
  rtc (step converter total) (pool_start jobs n vs0 w0 chan0 true log0) σ ->
  cancelled_inv vs0 w0 log0 σ.
Proof.
  intros Hrun. eapply (rtc_ind_r (cancelled_inv vs0 w0 log0)); [|clear Hrun|exact Hrun].
  - repeat split; try done; simpl.
    + by apply Forall_replicate.
    + exists []. rewrite app_nil_r, returned_count_replicate. repeat split; done.
  - intros σ1 σ2 _ Hstep IH. by eapply cancelled_inv_step.
Qed.

Lemma progress_inv_step total σ σ' :
  step converter total σ σ' -> progress_inv log0 total σ -> progress_inv log0 total σ'.
Proof.
  intros Hstep (new & Hlog & Hall & Hnd & Hle & Hcount).
  destruct Hstep as [σ i job rest Hi Hq|σ i Hi Hq|σ i job Hi Hd|σ i job Hi Hd
                    |σ i job r w' Hi Hconv|σ i job cur Hi Hroom p|σ i job cur Hi Hd
                    |σ i job cur Hi Hfull Hd p|σ p rest Hq|σ Hd]; simpl in *.
  - pose proof (reporting_insert _ i _ (Received job) Hi) as Hp. simpl in Hp.
    exists new. simpl. split; [done|]. split; [done|].
    split; [by rewrite Hp|]. split; [by rewrite Hp|].
    intros Hd. rewrite (Permutation_length Hp). by apply Hcount.
  - pose proof (reporting_insert _ i _ Returned Hi) as Hp. simpl in Hp.
    exists new. simpl. split; [done|]. split; [done|].
    split; [by rewrite Hp|]. split; [by rewrite Hp|].
    intros Hd. rewrite (Permutation_length Hp). by apply Hcount.
  - pose proof (reporting_insert _ i _ Returned Hi) as Hp. simpl in Hp.
    exists (new ++ [LogCancelled job]). simpl.
    rewrite progress_events_snoc, app_nil_r.
    split; [by rewrite Hlog, app_assoc|]. split; [done|].
    split; [by rewrite Hp|]. split; [by rewrite Hp|].
    intros Hd'. congruence.
  - pose proof (reporting_insert _ i _ (Converting job) Hi) as Hp. simpl in Hp.
    exists new. simpl. split; [done|]. split; [done|].
    split; [by rewrite Hp|]. split; [by rewrite Hp|].
    intros Hd'. rewrite (Permutation_length Hp). by apply Hcount.
  - pose proof (reporting_insert _ i _ (Reporting job (S (completed σ))) Hi) as Hp.
    simpl in Hp.
    exists (new ++ [LogConverted job r]). simpl.
    rewrite progress_events_snoc, app_nil_r.
    split; [by rewrite Hlog, app_assoc|]. split; [done|]. split; [|split].
    + rewrite Hp. simpl. apply NoDup_cons. split; [|done].
      intros Hin. rewrite Forall_forall in Hle. specialize (Hle _ Hin).
      simpl in Hle. lia.
    + rewrite Hp. simpl. apply Forall_cons. split; [lia|].
      eapply Forall_impl; [exact Hle|]. simpl. intros; lia.
    + intros Hd. rewrite (Permutation_length Hp). simpl.
      specialize (Hcount Hd). lia.
  - pose proof (reporting_insert _ i _ Ranging Hi) as Hp. simpl in Hp.
    destruct (progress_of_stage total job cur (variants σ)) as (Ht & Hc & Hs).
    fold p in Ht, Hc, Hs.
    assert (Hperm : reporting (<[i := Ranging]> (workers σ))
                      ++ (Current <$> progress_events new) ++ [cur]
                    ≡ₚ reporting (workers σ) ++ (Current <$> progress_events new)).
    { rewrite <- Hp. solve_Permutation. }
    exists (new ++ [LogProgress p]). simpl.
    rewrite progress_events_snoc, fmap_app. simpl. rewrite ?Hc.
    split; [by rewrite Hlog, app_assoc|]. split; [|split; [|split]].
    + apply Forall_app. split; [done|]. by apply Forall_singleton.
    + by rewrite Hperm.
    + by rewrite Hperm.
    + intros Hd. specialize (Hcount Hd). apply Permutation_length in Hp.
      simpl in Hp. rewrite length_app. simpl. lia.
  - pose proof (reporting_insert _ i _ Returned Hi) as Hp. simpl in Hp.
    exists new. simpl. rewrite <- Hp in Hnd, Hle. simpl in Hnd, Hle.
    apply NoDup_cons in Hnd as [_ Hnd]. apply Forall_cons in Hle as [_ Hle].
    split; [done|]. split; [done|]. split; [done|]. split; [done|].
    intros Hd'. congruence.
  - pose proof (reporting_insert _ i _ Ranging Hi) as Hp. simpl in Hp.
    destruct (progress_of_stage total job cur (variants σ)) as (Ht & Hc & Hs).
    fold p in Ht, Hc, Hs.
    assert (Hperm : reporting (<[i := Ranging]> (workers σ))
                      ++ (Current <$> progress_events new) ++ [cur]
                    ≡ₚ reporting (workers σ) ++ (Current <$> progress_events new)).
    { rewrite <- Hp. solve_Permutation. }
    exists (new ++ [LogSkipped p]). simpl.
    rewrite progress_events_snoc, fmap_app. simpl. rewrite ?Hc.
    split; [by rewrite Hlog, app_assoc|]. split; [|split; [|split]].
    + apply Forall_app. split; [done|]. by apply Forall_singleton.
    + by rewrite Hperm.
    + by rewrite Hperm.
    + intros _. specialize (Hcount Hd). apply Permutation_length in Hp.
      simpl in Hp. rewrite length_app. simpl. lia.
  - exists new. repeat split; done.
  - exists new. split; [done|]. split; [done|]. split; [done|]. split; [done|].
    intros Hd'. discriminate Hd'.
Qed.

Lemma progress_inv_run done0 total σ :
  rtc (step converter total) (pool_start jobs n vs0 w0 chan0 done0 log0) σ ->
  progress_inv log0 total σ.
Proof.
  intros Hrun. eapply (rtc_ind_r (progress_inv log0 total)); [|clear Hrun|exact Hrun].
  - exists []. simpl. rewrite app_nil_r, reporting_replicate_Ranging.
    repeat split; try done; constructor.
  - intros σ1 σ2 _ Hstep IH. by eapply progress_inv_step.
Qed.

End PoolMore.

(** From any state the pool can run on until every worker has returned,
    without the context being cancelled on the way. *)
Lemma run_can_return {W}
    (converter : string -> string -> W -> result FontProcessError string * W)
    total (σ : pool W) :
  exists σ', rtc (step converter total) σ σ' /\ returned σ'
             /\ ctxDone σ' = ctxDone σ.
Proof.
  remember (pool_measure σ) as m eqn:Hm. revert σ Hm.
  induction m as [m IH] using lt_wf_ind. intros σ ->.
  destruct (busy_worker (workers σ)) as [Hret|(i & w & Hi & Hw)].
  - exists σ. by split; [apply rtc_refl|].
  - assert (Hbusy : ~ returned σ).
    { intros Hret. unfold returned in Hret.
      by pose proof (Forall_lookup_1 _ _ _ _ Hret Hi). }
    destruct (step_available converter total σ Hbusy) as (σ1 & Hstep & Hd).
    destruct (IH (pool_measure σ1) (step_measure converter _ _ _ Hstep) σ1 eq_refl)
      as (σ' & Hrun & Hret & Hd').
    exists σ'. split; [by eapply rtc_l|]. split; [done|]. congruence.
Qed.

(** X9. A pool that is started when the context is already done converts
    nothing: the counter stays at zero, the variants and the files are
    not touched, and no conversion and no progress event is logged.
    Each worker takes at most one job out of the channel and returns,
    so at most as many jobs as there are workers are logged as
    cancelled; when every worker has returned the other jobs are still
    in the channel.  Such a pool can always run on until every worker
    has returned. *)
Theorem pool_started_cancelled_converts_nothing {W}
    (converter : string -> string -> W -> result FontProcessError string * W)
    total jobs n vs (w : W) chan log σ :
  rtc (step converter total) (pool_start jobs n vs w chan true log) σ ->
  completed σ = 0 /\ variants σ = vs /\ world σ = w
  /\ (exists new,
        logged σ = log ++ new
        /\ conversions new = [] /\ progress_events new = []
        /\ length (cancelled_jobs new) <= n
        /\ (returned σ -> jobs ≡ₚ cancelled_jobs new ++ jobsChan σ))
  /\ exists σ', rtc (step converter total) σ σ' /\ returned σ'.
Proof.
  intros Hrun.
  destruct (cancelled_inv_run converter jobs n vs w chan log _ _ Hrun)
    as (_ & _ & Hc & Hvs & Hw & new & Hlog & Hconv & Hev & Hcount).
  destruct (pool_inv_run converter jobs n vs w chan true log _ _ Hrun)
    as (new' & Hlog' & _ & _ & Hjobs & Hlen & _).
  rewrite Hlog in Hlog'. apply app_inv_head in Hlog' as <-.
  split; [done|]. split; [done|]. split; [done|]. split.
  - exists new. split; [done|]. split; [done|]. split; [done|]. split.
    + pose proof (returned_count_le (workers σ)). lia.
    + intros Hret. rewrite Hjobs, Hconv, (in_flight_returned _ Hret). simpl.
      solve_Permutation.
  - destruct (run_can_return converter total σ) as (σ' & ? & ? & _). eauto.
Qed.

Lemma pool_started_cancelled_converts_nothing_witness :
  let job := mkJob "Arial" "fonts/Arial.ttf" ".ttf" "static/converted/Arial.woff2" in
  let converter (src dst : string) (w : nat) : result FontProcessError string * nat :=
    (Ok dst, S w) in
  let σ := mkPool [job] [Returned] 0 (∅ : gmap string FontVariant) 0 [] true
                  [LogCancelled job] in
  completed σ = 0 /\ variants σ = ∅ /\ world σ = 0.
Proof.
  intros job converter σ.
  assert (Hrun : rtc (step converter 2) (pool_start [job; job] 1 ∅ 0 [] true []) σ).
  { eapply rtc_l.
    { apply (step_receive converter 2 (pool_start [job; job] 1 ∅ 0 [] true [])
                          0 job [job]); reflexivity. }
    eapply rtc_l; [|apply rtc_refl].
    apply (step_cancelled converter 2
             (mkPool [job] [Received job] 0 ∅ 0 [] true []) 0 job); reflexivity. }
  pose proof (pool_started_cancelled_converts_nothing
                converter 2 [job; job] 1 ∅ 0 [] [] σ Hrun) as (H1 & H2 & H3 & _).
  exact (conj H1 (conj H2 H3)).
Defined.

(** X10. With a configuration that [Validate] refuses for its
    [MaxConcurrent], the pool starts no worker: [wg.Wait()] returns at
    once, every job is left in the channel, nothing is converted,
    counted or logged. *)
Theorem pool_without_workers_converts_nothing {W} (numCPU : Z) (cfg : Config)
    (jobs : list ConversionJob)
    (converter : string -> string -> W -> result FontProcessError string * W)
    (vs : gmap string FontVariant) (w : W) (chan : list ConversionProgress)
    (done : bool) (log : list logline) (σ : pool W) :
  Validate cfg = false ->
  rtc (step converter (length jobs))
      (pool_start jobs (Z.to_nat (numWorkers numCPU cfg)) vs w chan done log) σ ->
  returned σ /\ jobsChan σ = jobs /\ completed σ = 0
  /\ variants σ = vs /\ world σ = w /\ logged σ = log.
Proof.
  intros Hval Hrun.
  assert (Hnone : Z.to_nat (numWorkers numCPU cfg) = 0).
  { unfold Validate in Hval. apply negb_false_iff, Z.ltb_lt in Hval.
    rewrite numWorkers_min. lia. }
  rewrite Hnone in Hrun.
  assert (Hinv : workers σ = [] /\ jobsChan σ = jobs /\ completed σ = 0
                 /\ variants σ = vs /\ world σ = w /\ logged σ = log).
  { eapply (rtc_ind_r (fun σ => workers σ = [] /\ jobsChan σ = jobs
                                /\ completed σ = 0 /\ variants σ = vs
                                /\ world σ = w /\ logged σ = log)
                        (pool_start jobs 0 vs w chan done log));
      [by repeat split|clear Hrun|exact Hrun].
    intros σ1 σ2 _ Hstep (Hws & Hq & Hc & Hvs & Hw & Hlog).
    destruct Hstep as [σa i job rest Hi _|σa i Hi _|σa i job Hi _|σa i job Hi _
                      |σa i job r w' Hi _|σa i job cur Hi _ p|σa i job cur Hi _
                      |σa i job cur Hi _ _ p|σa p rest _|σa _]; simpl in *;
      try (rewrite Hws in Hi; discriminate Hi); done. }
  destruct Hinv as (Hws & ?). split; [|done]. unfold returned. rewrite Hws.
  constructor.
Qed.

Lemma pool_without_workers_converts_nothing_witness :
  let job := mkJob "Arial" "fonts/Arial.ttf" ".ttf" "static/converted/Arial.woff2" in
  let converter (src dst : string) (w : nat) : result FontProcessError string * nat :=
    (Ok dst, S w) in
  let σ := pool_start [job] 0 (∅ : gmap string FontVariant) 0 [] false [] in
  returned σ /\ jobsChan σ = [job] /\ completed σ = 0.
Proof.
  intros job converter σ.
  pose proof (pool_without_workers_converts_nothing
                8 (mkConfig "static" 0) [job] converter ∅ 0 [] false [] σ
                eq_refl (rtc_refl _ _)) as (H1 & H2 & H3 & _).
  exact (conj H1 (conj H2 H3)).
Defined.

(** X11. The number of workers is half the number of CPUs, at least
    one, capped by [MaxConcurrent]; with a validated configuration it is
    between one and [MaxConcurrent], the pool has that many workers at
    any time, and never more than [MaxConcurrent] jobs are held by
    workers that have not finished converting them. *)
Theorem workers_are_bounded_by_MaxConcurrent {W} (numCPU : Z) (cfg : Config)
    (jobs : list ConversionJob)
    (converter : string -> string -> W -> result FontProcessError string * W)
    (vs : gmap string FontVariant) (w : W) (chan : list ConversionProgress)
    (done : bool) (log : list logline) (σ : pool W) :
  Validate cfg = true ->
  rtc (step converter (length jobs))
      (pool_start jobs (Z.to_nat (numWorkers numCPU cfg)) vs w chan done log) σ ->
  numWorkers numCPU cfg = Z.min (Z.max 1 (numCPU ÷ 2)) (MaxConcurrent cfg)
  /\ (1 <= numWorkers numCPU cfg <= MaxConcurrent cfg)%Z
  /\ Z.of_nat (length (workers σ)) = numWorkers numCPU cfg
  /\ (Z.of_nat (length (in_flight (workers σ))) <= MaxConcurrent cfg)%Z.
Proof.
  intros Hval Hrun.
  destruct (pool_inv_run converter jobs _ vs w chan done log _ _ Hrun)
    as (new & _ & _ & _ & _ & Hlen & _).
  pose proof (numWorkers_min numCPU cfg) as Hmin.
  unfold Validate in Hval. apply negb_true_iff, Z.ltb_ge in Hval.
  pose proof (in_flight_length (workers σ)).
  split; [done|]. repeat split; lia.
Qed.

Lemma workers_are_bounded_by_MaxConcurrent_witness :
  let jobs := [mkJob "Arial" "fonts/Arial.ttf" ".ttf" "static/converted/Arial.woff2";
               mkJob "Bold" "fonts/Bold.otf" ".otf" "static/converted/Bold.woff2"] in
  let converter (src dst : string) (w : nat) : result FontProcessError string * nat :=
    (Ok dst, S w) in
  numWorkers 16 (mkConfig "static" 4) = 4%Z
  /\ Z.of_nat (length (workers (served converter jobs 4 ∅ 0 [] []))) = 4%Z.
Proof.
  intros jobs converter.
  assert (Hrun : rtc (step converter (length jobs))
                     (pool_start jobs (Z.to_nat (numWorkers 16 (mkConfig "static" 4)))
                                 ∅ 0 [] false [])
                     (served converter jobs 4 ∅ 0 [] [])).
  { apply (run_served converter jobs 4 ∅ 0 [] [] (length jobs)); [simpl; lia|done]. }
  pose proof (workers_are_bounded_by_MaxConcurrent
                16 (mkConfig "static" 4) jobs converter ∅ 0 [] false []
                (served converter jobs 4 ∅ 0 [] []) eq_refl Hrun)
    as (H1 & _ & H3 & _).
  exact (conj H1 H3).
Defined.

(** X12. The progress events of a batch, sent or skipped: each carries
    the number of jobs of the batch as its total, a count between one
    and that total, and one of the two stages that the forwarder knows;
    no two events carry the same count; and when every worker has
    returned and the context is not done, every count from one to the
    total was reported exactly once. *)
Theorem progress_events_count_the_jobs {W}
    (converter : string -> string -> W -> result FontProcessError string * W)
    jobs n vs (w : W) chan done log σ :
  rtc (step converter (length jobs)) (pool_start jobs n vs w chan done log) σ ->
  exists new,
    logged σ = log ++ new
    /\ (forall p, p ∈ progress_events new ->
          Total p = length jobs
          /\ 1 <= Current p <= completed σ /\ completed σ <= length jobs
          /\ conversion_stage (Stage p))
    /\ NoDup (Current <$> progress_events new)
    /\ (returned σ -> ctxDone σ = false -> 0 < n ->
        Current <$> progress_events new ≡ₚ seq 1 (length jobs)).
Proof.
  intros Hrun.
  destruct (progress_inv_run converter jobs n vs w chan log done _ _ Hrun)
    as (new & Hlog & Hall & Hnd & Hle & Hcount).
  destruct (pool_inv_run converter jobs n vs w chan done log _ _ Hrun)
    as (new' & Hlog' & _ & Hc & Hjobs & _ & _).
  rewrite Hlog in Hlog'. apply app_inv_head in Hlog' as <-.
  assert (Hmax : completed σ <= length jobs).
  { rewrite Hc. apply Permutation_length in Hjobs.
    rewrite !length_app, length_fmap in Hjobs. lia. }
  apply NoDup_app in Hnd as (_ & _ & Hnd). apply Forall_app in Hle as [_ Hle].
  exists new. split; [done|]. split; [|split; [done|]].
  - intros p Hp. rewrite Forall_forall in Hall. destruct (Hall _ Hp) as [Ht Hs].
    rewrite Forall_forall in Hle.
    assert (Hin : Current p ∈ Current <$> progress_events new)
      by (apply list_elem_of_fmap; eauto).
    specialize (Hle _ Hin). simpl in Hle. repeat split; try done; lia.
  - intros Hret Hd Hn.
    destruct (pool_returned converter jobs n vs w chan done log _ _ Hrun Hret Hd Hn)
      as (new' & Hlog' & _ & _ & Hall').
    specialize (Hcount Hd). rewrite (reporting_returned _ Hret) in Hcount.
    simpl in Hcount.
    apply NoDup_Permutation_bis.
    + by apply NoDup_ListNoDup.
    + rewrite length_seq, length_fmap. lia.
    + intros c Hin%list_elem_of_In. rewrite Forall_forall in Hle.
      specialize (Hle _ Hin). simpl in Hle. apply list_elem_of_In, elem_of_seq. lia.
Qed.

Lemma progress_events_count_the_jobs_witness :
  let jobs := [mkJob "Arial" "fonts/Arial.ttf" ".ttf" "static/converted/Arial.woff2";
               mkJob "Bold" "fonts/Bold.otf" ".otf" "static/converted/Bold.woff2"] in
  let converter (src dst : string) (w : nat) : result FontProcessError string * nat :=
    (Ok dst, S w) in
  exists new,
    logged (served converter jobs 2 ∅ 0 [] []) = [] ++ new
    /\ Current <$> progress_events new ≡ₚ seq 1 2.
Proof.
  intros jobs converter.
  destruct (run_served converter jobs 2 ∅ 0 [] [] (length jobs))
    as (Hrun & Hret & Hd); [simpl; lia|done|].
  destruct (progress_events_count_the_jobs converter jobs 2 ∅ 0 [] false []
              (served converter jobs 2 ∅ 0 [] []) Hrun)
    as (new & Hlog & _ & _ & Hall).
  exists new. split; [done|]. apply Hall; [done|done|simpl; lia].
Defined.

(** ** More on the executors *)

Section ExecutorMore.
Variable mkdir_denied : string -> gmap string fsentry -> option oserr.
Variable run_tool :
  invocation -> gmap string fsentry -> option cause * gmap string fsentry.

(** What [os.MkdirAll] can leave at a path where there was nothing. *)
Lemma MkdirAll_fresh dir w err w' path :
  MkdirAll mkdir_denied dir w = (err, w') ->
  files w !! path = None ->
  files w' !! path = None \/ exists size, files w' !! path = Some (Folder size).
Proof.
  unfold MkdirAll. destruct (files w !! dir) as [[c|sz]|] eqn:E.
  - intros [= <- <-]. by left.
  - intros [= <- <-]. by left.
  - destruct (mkdir_denied dir (files w)); intros [= <- <-]; [by left|].
    simpl. intros Hp. destruct (decide (dir = path)) as [<-|Hne].
    + right. exists 4096%Z. by rewrite lookup_insert_eq.
    + left. by rewrite lookup_insert_ne.
Qed.

Lemma copyFile_invocations src dst w err w' :
  copyFile mkdir_denied src dst w = (err, w') -> invocations w' = invocations w.
Proof.
  unfold copyFile. destruct (files w !! src) as [source|]; [|by intros [= <- <-]].
  destruct (MkdirAll mkdir_denied (Filepath.Dir dst) w) as [[e|] w1] eqn:Hdir;
    destruct (MkdirAll_keeps _ _ _ _ _ Hdir) as [Hinv _].
  - by intros [= <- <-].
  - destruct (files w1 !! dst) as [[c|sz]|], source as [content|size];
      by intros [= <- <-].
Qed.

Lemma copyFile_Ok src dst w w' :
  copyFile mkdir_denied src dst w = (None, w') ->
  exists content,
    files w !! src = Some (RegularFile content)
    /\ files w' !! dst
       = Some (RegularFile (if bool_decide (src = dst) then "" else content))
    /\ forall path entry, files w !! path = Some entry -> path <> dst ->
                          files w' !! path = Some entry.
Proof.
  unfold copyFile. destruct (files w !! src) as [source|] eqn:Hsrc; [|done].
  destruct (MkdirAll mkdir_denied (Filepath.Dir dst) w) as [[e|] w1] eqn:Hdir;
    [done|].
  destruct (MkdirAll_keeps _ _ _ _ _ Hdir) as [_ Hkeep].
  destruct (files w1 !! dst) as [[c|sz]|], source as [content|size];
    try done; intros [= <-]; exists content; simpl;
    rewrite lookup_insert_eq; (split; [done|]); (split; [done|]);
    intros path entry Hp Hne; rewrite lookup_insert_ne by done; by apply Hkeep.
Qed.


Lemma stat_nonempty_Remove path other w :
  other <> path -> stat_nonempty path (Remove other w) = stat_nonempty path w.
Proof.
  intros Hne. unfold stat_nonempty, Remove. simpl. by rewrite lookup_delete_ne.
Qed.

(** X14. [convertToWoff2] runs the external program at most once, as
    [woff2_compress] on the base name of the staged copy in the
    directory of the output, and whenever it ran the program the staged
    copy is gone afterwards, whether the program succeeded or not.  A
    success returns the output path, and the output is then a non-empty
    file (when the staged copy is not the output itself); a failure is
    one of [create_dir], [copy], [woff2_compress] and [verify]. *)
Theorem convertToWoff2_runs_the_tool_at_most_once src out w res w' :
  convertToWoff2 mkdir_denied run_tool src out w = (res, w') ->
  let tmp := GoString.TrimSuffix out ".woff2" +:+ Filepath.Ext src in
  (invocations w' = invocations w
   \/ (invocations w'
       = invocations w
         ++ [mkInvocation "woff2_compress" (Filepath.Dir out) (Filepath.Base tmp)]
       /\ files w' !! tmp = None))
  /\ match res with
     | Ok path => path = out /\ (tmp <> out -> stat_nonempty out w' = true)
     | Failed e =>
         Op e = "create_dir" \/ Op e = "copy" \/ Op e = "woff2_compress"
         \/ Op e = "verify"
     end.
Proof.
  intros Hconv tmp. unfold convertToWoff2 in Hconv. cbv zeta in Hconv.
  fold tmp in Hconv.
  destruct (MkdirAll mkdir_denied (Filepath.Dir out) w) as [[e|] w1] eqn:Hdir;
    destruct (MkdirAll_keeps _ _ _ _ _ Hdir) as [Hinv1 _].
  { injection Hconv as <- <-. split; [by left|]. by left. }
  destruct (stat_nonempty out w1) eqn:Hstat.
  { injection Hconv as <- <-. split; [by left|]. done. }
  destruct (copyFile mkdir_denied src tmp w1) as [[c|] w2] eqn:Hcopy;
    pose proof (copyFile_invocations _ _ _ _ _ Hcopy) as Hinv2.
  { injection Hconv as <- <-. split; [left; congruence|]. right. by left. }
  unfold run_command in Hconv.
  destruct (run_tool _ (files w2)) as [err files3] eqn:Htool.
  injection Hconv as <- <-. split.
  - right. simpl. rewrite lookup_delete_eq. split; [congruence|done].
  - destruct err as [c|]; [right; right; by left|].
    match goal with |- context [if ?b then _ else _] => destruct b eqn:Hout end;
      [|right; right; by right].
    split; [done|]. intros Hne. by rewrite stat_nonempty_Remove.
Qed.

(** X15. [convertToTTF] runs the external program at most once, as
    [woff2_decompress] on the base name of the staged copy in the
    directory of the output, and removes the staged copy whenever it
    ran the program.  When it returns no error the output is a
    non-empty file (when the staged copy is not the output itself); an
    error is one of [create_dir], [check_source], [copy],
    [woff2_decompress] and [verify]. *)
Theorem convertToTTF_runs_the_tool_at_most_once src out w res w' :
  convertToTTF mkdir_denied run_tool src out w = (res, w') ->
  let tmp := Filepath.Dir out +:+ "/" +:+ Filepath.Base src in
  (invocations w' = invocations w
   \/ (invocations w'
       = invocations w
         ++ [mkInvocation "woff2_decompress" (Filepath.Dir out) (Filepath.Base tmp)]
       /\ files w' !! tmp = None))
  /\ match res with
     | None => tmp <> out -> stat_nonempty out w' = true
     | Some e =>
         Op e = "create_dir" \/ Op e = "check_source" \/ Op e = "copy"
         \/ Op e = "woff2_decompress" \/ Op e = "verify"
     end.
Proof.
  intros Hconv tmp. unfold convertToTTF in Hconv. cbv zeta in Hconv.
  fold tmp in Hconv.
  destruct (MkdirAll mkdir_denied (Filepath.Dir out) w) as [[e|] w1] eqn:Hdir;
    destruct (MkdirAll_keeps _ _ _ _ _ Hdir) as [Hinv1 _].
  { injection Hconv as <- <-. split; [by left|]. by left. }
  destruct (stat_nonempty out w1) eqn:Hstat.
  { injection Hconv as <- <-. split; [by left|]. done. }
  destruct (stat_ok src w1) eqn:Hsrc; simpl in Hconv.
  2: { injection Hconv as <- <-. split; [by left|]. right. by left. }
  destruct (copyFile mkdir_denied src tmp w1) as [[c|] w2] eqn:Hcopy;
    pose proof (copyFile_invocations _ _ _ _ _ Hcopy) as Hinv2.
  { injection Hconv as <- <-. split; [left; congruence|]. right. right. by left. }
  unfold run_command in Hconv.
  destruct (run_tool _ (files w2)) as [err files3] eqn:Htool.
  injection Hconv as <- <-. split.
  - right. simpl. rewrite lookup_delete_eq. split; [congruence|done].
  - destruct err as [c|]; [right; right; right; by left|].
    match goal with |- context [if ?b then _ else _] => destruct b eqn:Hout end;
      [|right; right; right; by right].
    intros Hne. by rewrite stat_nonempty_Remove.
Qed.

(** X16. Neither converter starts the external program for a source
    that is not there: [convertToWoff2] returns the output that already
    exists or fails in [create_dir] or in [copy] of the source;
    [convertToTTF] returns for an output that already exists or fails
    in [create_dir], [check_source] or [copy]. *)
Theorem missing_source_never_starts_the_tool src out w :
  files w !! src = None ->
  (forall res w',
      convertToWoff2 mkdir_denied run_tool src out w = (res, w') ->
      invocations w' = invocations w
      /\ match res with
         | Ok path => path = out
         | Failed e => Op e = "create_dir" \/ (Op e = "copy" /\ Path e = src)
         end)
  /\ (forall res w',
        convertToTTF mkdir_denied run_tool src out w = (res, w') ->
        invocations w' = invocations w
        /\ match res with
           | None => True
           | Some e => Op e = "create_dir"
                       \/ (Op e = "check_source" /\ Path e = src)
                       \/ (Op e = "copy" /\ Path e = src)
           end).
Proof.
  intros Hmissing.
  assert (Hno_copy : forall w1 err dir dst w2,
             MkdirAll mkdir_denied dir w = (err, w1) ->
             copyFile mkdir_denied src dst w1 = (None, w2) -> False).
  { intros w1 err dir dst w2 Hdir Hcopy.
    destruct (copyFile_Ok _ _ _ _ Hcopy) as (content & Hsrc & _).
    destruct (MkdirAll_fresh _ _ _ _ _ Hdir Hmissing) as [Hn|[size Hf]]; congruence. }
  split; intros res w'.
  - unfold convertToWoff2.
    destruct (MkdirAll mkdir_denied (Filepath.Dir out) w) as [[e|] w1] eqn:Hdir;
      destruct (MkdirAll_keeps _ _ _ _ _ Hdir) as [Hinv1 _].
    { intros [= <- <-]. split; [done|]. by left. }
    destruct (stat_nonempty out w1); [by intros [= <- <-]|].
    destruct (copyFile mkdir_denied src _ w1) as [[c|] w2] eqn:Hcopy.
    + pose proof (copyFile_invocations _ _ _ _ _ Hcopy).
      intros [= <- <-]. split; [congruence|]. by right.
    + by destruct (Hno_copy _ _ _ _ _ Hdir Hcopy).
  - unfold convertToTTF.
    destruct (MkdirAll mkdir_denied (Filepath.Dir out) w) as [[e|] w1] eqn:Hdir;
      destruct (MkdirAll_keeps _ _ _ _ _ Hdir) as [Hinv1 _].
    { intros [= <- <-]. split; [done|]. by left. }
    destruct (stat_nonempty out w1); [by intros [= <- <-]|].
    destruct (stat_ok src w1); simpl.
    2: { intros [= <- <-]. split; [done|]. right. by left. }
    destruct (copyFile mkdir_denied src _ w1) as [[c|] w2] eqn:Hcopy.
    + pose proof (copyFile_invocations _ _ _ _ _ Hcopy).
      intros [= <- <-]. split; [congruence|]. right. by right.
    + by destruct (Hno_copy _ _ _ _ _ Hdir Hcopy).
Qed.

End ExecutorMore.


Lemma convertToWoff2_runs_the_tool_at_most_once_witness :
  let r := convertToWoff2 (fun _ _ => None) demo_tool "fonts/Arial.ttf"
                          "static/converted/Arial.woff2" demo_world in
  r.1 = Ok "static/converted/Arial.woff2"
  /\ stat_nonempty "static/converted/Arial.woff2" r.2 = true.
Proof.
  intros r.
  assert (Hres : r.1 = Ok "static/converted/Arial.woff2") by (vm_compute; reflexivity).
  assert (Hne : GoString.TrimSuffix "static/converted/Arial.woff2" ".woff2"
                +:+ Filepath.Ext "fonts/Arial.ttf"
                <> "static/converted/Arial.woff2") by (vm_compute; discriminate).
  pose proof (convertToWoff2_runs_the_tool_at_most_once
                (fun _ _ => None) demo_tool "fonts/Arial.ttf"
                "static/converted/Arial.woff2" demo_world r.1 r.2
                (surjective_pairing r)) as Hok.
  cbv zeta in Hok. destruct Hok as [_ Hok]. rewrite Hres in Hok. split; [done|]. by apply Hok.
Defined.

Lemma convertToTTF_runs_the_tool_at_most_once_witness :
  let r := convertToTTF (fun _ _ => None) demo_tool "fonts/Web.woff2"
                        "static/converted/Web.ttf" demo_world in
  r.1 = None /\ stat_nonempty "static/converted/Web.ttf" r.2 = true.
Proof.
  intros r.
  assert (Hres : r.1 = None) by (vm_compute; reflexivity).
  assert (Hne : Filepath.Dir "static/converted/Web.ttf" +:+ "/"
                +:+ Filepath.Base "fonts/Web.woff2"
                <> "static/converted/Web.ttf") by (vm_compute; discriminate).
  pose proof (convertToTTF_runs_the_tool_at_most_once
                (fun _ _ => None) demo_tool "fonts/Web.woff2"
                "static/converted/Web.ttf" demo_world r.1 r.2
                (surjective_pairing r)) as Hok.
  cbv zeta in Hok. destruct Hok as [_ Hok]. rewrite Hres in Hok. split; [done|]. by apply Hok.
Defined.

Lemma missing_source_never_starts_the_tool_witness :
  let r := convertToTTF (fun _ _ => None) demo_tool "fonts/Gone.woff2"
                        "static/converted/Gone.ttf" demo_world in
  invocations r.2 = invocations demo_world.
Proof.
  intros r.
  assert (Hmissing : files demo_world !! "fonts/Gone.woff2" = None)
    by (vm_compute; reflexivity).
  exact (proj1 (proj2 (missing_source_never_starts_the_tool
                         (fun _ _ => None) demo_tool "fonts/Gone.woff2"
                         "static/converted/Gone.ttf" demo_world Hmissing)
                      r.1 r.2 (surjective_pairing r))).
Defined.

(** ** The programs that a run starts *)

Lemma step_invocations
    (converter : string -> string -> World -> result FontProcessError string * World)
    (P : invocation -> Prop) total σ σ' :
  (forall src out w r w',
      converter src out w = (r, w') ->
      exists calls, invocations w' = invocations w ++ calls
                    /\ length calls <= 1 /\ Forall P calls) ->
  step converter total σ σ' ->
  exists calls,
    invocations (world σ') = invocations (world σ) ++ calls
    /\ length calls + completed σ <= completed σ' /\ Forall P calls.
Proof.
  intros Hconv Hstep.
  destruct Hstep as [σ i job rest _ _|σ i _ _|σ i job _ _|σ i job _ _
                    |σ i job r w' _ Hc|σ i job current _ _ p|σ i job current _ _
                    |σ i job current _ _ _ p|σ p rest _|σ _]; simpl;
    try (exists []; rewrite app_nil_r; split; [done|]; split; [simpl; lia|constructor]).
  destruct (Hconv _ _ _ _ _ Hc) as (calls & Hinv & Hlen & HP).
  exists calls. split; [done|]. split; [lia|done].
Qed.

Lemma run_invocations
    (converter : string -> string -> World -> result FontProcessError string * World)
    (P : invocation -> Prop) total σ σ' :
  (forall src out w r w',
      converter src out w = (r, w') ->
      exists calls, invocations w' = invocations w ++ calls
                    /\ length calls <= 1 /\ Forall P calls) ->
  rtc (step converter total) σ σ' ->
  exists calls,
    invocations (world σ') = invocations (world σ) ++ calls
    /\ length calls + completed σ <= completed σ' /\ Forall P calls.
Proof.
  intros Hconv. induction 1 as [σ|σ1 σ2 σ3 Hstep _ (calls2 & Hinv2 & Hlen2 & HP2)].
  - exists []. rewrite app_nil_r. split; [done|]. split; [simpl; lia|constructor].
  - destruct (step_invocations _ P _ _ _ Hconv Hstep) as (calls1 & Hinv1 & Hlen1 & HP1).
    exists (calls1 ++ calls2). rewrite Hinv2, Hinv1, app_assoc, length_app.
    split; [done|]. split; [lia|]. by apply Forall_app.
Qed.

Section InvocationFacts.
Variable mkdir_denied : string -> gmap string fsentry -> option oserr.
Variable run_tool :
  invocation -> gmap string fsentry -> option cause * gmap string fsentry.
Variable numCPU : Z.
Variable cfg : Config.

Lemma convertToWoff2_calls src out w r w' :
  convertToWoff2 mkdir_denied run_tool src out w = (r, w') ->
  exists calls, invocations w' = invocations w ++ calls
                /\ length calls <= 1
                /\ Forall (fun call => program call = "woff2_compress"
                                       /\ workdir call = Filepath.Dir out) calls.
Proof.
  intros Hconv. unfold convertToWoff2 in Hconv. cbv zeta in Hconv.
  destruct (MkdirAll mkdir_denied (Filepath.Dir out) w) as [[e|] w1] eqn:Hdir;
    destruct (MkdirAll_keeps _ _ _ _ _ Hdir) as [Hinv1 _].
  { injection Hconv as <- <-. exists []. rewrite app_nil_r.
    split; [done|]. split; [simpl; lia|constructor]. }
  destruct (stat_nonempty out w1) eqn:Hstat.
  { injection Hconv as <- <-. exists []. rewrite app_nil_r.
    split; [done|]. split; [simpl; lia|constructor]. }
  destruct (copyFile mkdir_denied src _ w1) as [[c|] w2] eqn:Hcopy;
    pose proof (copyFile_invocations _ _ _ _ _ _ Hcopy) as Hinv2.
  { injection Hconv as <- <-. exists []. rewrite app_nil_r.
    split; [congruence|]. split; [simpl; lia|constructor]. }
  unfold run_command in Hconv.
  destruct (run_tool _ (files w2)) as [err files3] eqn:Htool.
  injection Hconv as <- <-. eexists [_]. simpl.
  split; [by rewrite Hinv2, Hinv1|]. split; [lia|]. by apply Forall_singleton.
Qed.

Lemma convertToTTF_calls src out w r w' :
  convertToTTF_converter mkdir_denied run_tool src out w = (r, w') ->
  exists calls, invocations w' = invocations w ++ calls
                /\ length calls <= 1
                /\ Forall (fun call => program call = "woff2_decompress"
                                       /\ workdir call = Filepath.Dir out) calls.
Proof.
  unfold convertToTTF_converter.
  destruct (convertToTTF mkdir_denied run_tool src out w) as [res w2] eqn:Hconv.
  intros Hres. assert (w2 = w') as -> by (destruct res; congruence). clear Hres.
  unfold convertToTTF in Hconv. cbv zeta in Hconv.
  destruct (MkdirAll mkdir_denied (Filepath.Dir out) w) as [[e|] w1] eqn:Hdir;
    destruct (MkdirAll_keeps _ _ _ _ _ Hdir) as [Hinv1 _].
  { injection Hconv as <- <-. exists []. rewrite app_nil_r.
    split; [done|]. split; [simpl; lia|constructor]. }
  destruct (stat_nonempty out w1) eqn:Hstat.
  { injection Hconv as <- <-. exists []. rewrite app_nil_r.
    split; [done|]. split; [simpl; lia|constructor]. }
  destruct (stat_ok src w1) eqn:Hsrc; simpl in Hconv.
  2: { injection Hconv as <- <-. exists []. rewrite app_nil_r.
       split; [done|]. split; [simpl; lia|constructor]. }
  destruct (copyFile mkdir_denied src _ w1) as [[c|] w2] eqn:Hcopy;
    pose proof (copyFile_invocations _ _ _ _ _ _ Hcopy) as Hinv2.
  { injection Hconv as <- <-. exists []. rewrite app_nil_r.
    split; [congruence|]. split; [simpl; lia|constructor]. }
  unfold run_command in Hconv.
  destruct (run_tool _ (files w2)) as [err files3] eqn:Htool.
  injection Hconv as <- <-. eexists [_]. simpl.
  split; [by rewrite Hinv2, Hinv1|]. split; [lia|]. by apply Forall_singleton.
Qed.

Lemma batch_invocations converter (P : invocation -> Prop) jobs
    (before after : pool World) :
  (forall src out w r w',
      converter src out w = (r, w') ->
      exists calls, invocations w' = invocations w ++ calls
                    /\ length calls <= 1 /\ Forall P calls) ->
  batch numCPU cfg converter jobs before after ->
  exists calls,
    invocations (world after) = invocations (world before) ++ calls
    /\ length calls <= length jobs /\ Forall P calls.
Proof.
  intros Hconv. destruct jobs as [|job jobs].
  - intros ->. exists []. rewrite app_nil_r. split; [done|].
    split; [simpl; lia|constructor].
  - intros [Hrun _].
    destruct (run_invocations _ P _ _ _ Hconv Hrun) as (calls & Hinv & Hlen & HP).
    destruct (pool_inv_run _ _ _ _ _ _ _ _ _ _ Hrun)
      as (new & _ & _ & Hc & Hjobs & _ & _).
    exists calls. split; [done|]. split; [|done].
    apply Permutation_length in Hjobs.
    rewrite !length_app, length_fmap in Hjobs. simpl in Hlen. lia.
Qed.

(** X17. What a run of [ProcessFonts] starts: first some
    [woff2_compress], then some [woff2_decompress], all of the first
    batch before any of the second, and nothing else; at most one
    program for each variant that the scan found. *)
Theorem run_starts_at_most_one_program_per_variant
    fontDir root w log res w' log' done :
  ProcessFonts mkdir_denied run_tool numCPU cfg fontDir root w log
               res w' log' done ->
  exists compressions decompressions,
    invocations w' = invocations w ++ compressions ++ decompressions
    /\ Forall (fun call => program call = "woff2_compress") compressions
    /\ Forall (fun call => program call = "woff2_decompress") decompressions
    /\ forall fs, findFonts fontDir root = Ok fs ->
                  length (compressions ++ decompressions) <= size fs.
Proof.
  intros Hrun.
  assert (Hnone : forall w1 : World,
             invocations w1 = invocations w ->
             exists compressions decompressions,
               invocations w1 = invocations w ++ compressions ++ decompressions
               /\ Forall (fun call => program call = "woff2_compress") compressions
               /\ Forall (fun call => program call = "woff2_decompress") decompressions
               /\ forall fs, findFonts fontDir root = Ok fs ->
                             length (compressions ++ decompressions) <= size fs).
  { intros w1 Hinv. exists [], []. rewrite !app_nil_r.
    split; [done|]. split; [constructor|]. split; [constructor|].
    intros; simpl; lia. }
  inversion Hrun as [e0 d Hval|e0 w1 d Hval Hdir|w1 e0 d Hval Hdir Hscan
                    |w1 fs order d e0 Hval Hdir Hscan Horder Hplan
                    |w1 fs order doneP woff2Jobs ttfJobs done1 σ1 σ2 order'
                       Hval Hdir Hscan Horder Hplan HA HB Horder']; subst;
    try (apply Hnone; first [done|by destruct (MkdirAll_keeps _ _ _ _ _ Hdir)]).
  destruct (MkdirAll_keeps _ _ _ _ _ Hdir) as [Hinv1 _].
  assert (HcA : forall src out wa r wb,
             convertToWoff2 mkdir_denied run_tool src out wa = (r, wb) ->
             exists calls, invocations wb = invocations wa ++ calls
                           /\ length calls <= 1
                           /\ Forall (fun call => program call = "woff2_compress")
                                     calls).
  { intros src out wa r wb Hc.
    destruct (convertToWoff2_calls _ _ _ _ _ Hc) as (calls & ? & ? & HP).
    exists calls. repeat split; try done.
    eapply Forall_impl; [exact HP|by intros ? [? _]]. }
  assert (HcB : forall src out wa r wb,
             convertToTTF_converter mkdir_denied run_tool src out wa = (r, wb) ->
             exists calls, invocations wb = invocations wa ++ calls
                           /\ length calls <= 1
                           /\ Forall (fun call => program call = "woff2_decompress")
                                     calls).
  { intros src out wa r wb Hc.
    destruct (convertToTTF_calls _ _ _ _ _ Hc) as (calls & ? & ? & HP).
    exists calls. repeat split; try done.
    eapply Forall_impl; [exact HP|by intros ? [? _]]. }
  destruct (batch_invocations _ _ _ _ _ HcA HA) as (callsA & HinvA & HlenA & HPA).
  destruct (batch_invocations _ _ _ _ _ HcB HB) as (callsB & HinvB & HlenB & HPB).
  simpl in HinvA. exists callsA, callsB.
  split; [by rewrite HinvB, HinvA, Hinv1, app_assoc|].
  split; [done|]. split; [done|].
  intros fs' Hscan'. rewrite Hscan in Hscan'. injection Hscan' as <-.
  pose proof (planned_jobs_length _ _ _ _ _ Hplan) as Hlen.
  rewrite Horder, length_map_to_list in Hlen.
  rewrite length_app in *. lia.
Qed.

End InvocationFacts.

Lemma run_starts_at_most_one_program_per_variant_witness :
  exists compressions decompressions,
    invocations demo_run.1.2 = invocations demo_world ++ compressions ++ decompressions
    /\ length (compressions ++ decompressions) <= size demo_fonts.
Proof.
  destruct (run_starts_at_most_one_program_per_variant
              (fun _ _ => None) demo_tool 8 demo_cfg
              "fonts" demo_root demo_world [] (Ok demo_results)
              demo_run.1.2 demo_run.2 false demo_run_results)
    as (compressions & decompressions & Hinv & _ & _ & Hlen).
  exists compressions, decompressions. split; [done|]. apply Hlen, demo_scan.
Defined.

(** ** The stem of a font file *)

Lemma cut_suffix_Some s : forall suffix stem,
  GoString.cut_suffix s suffix = Some stem -> s = stem +:+ suffix.
Proof.
  induction s as [|c s IH]; intros suffix stem.
  - destruct suffix; simpl; [by intros [= <-]|done].
  - change (GoString.cut_suffix (String c s) suffix)
      with (if String.eqb (String c s) suffix then Some ""
            else String c <$> GoString.cut_suffix s suffix).
    destruct (String.eqb_spec (String c s) suffix) as [<-|]; [by intros [= <-]|].
    destruct (GoString.cut_suffix s suffix) as [st|] eqn:E; [|done].
    intros [= <-]. apply IH in E. rewrite E at 1. done.
Qed.

Lemma length_append (a b : string) :
  String.length (a +:+ b) = String.length a + String.length b.
Proof. induction a as [|c a IH]; [done|]. simpl. by rewrite <- IH. Qed.

Lemma cut_suffix_append stem suffix :
  GoString.cut_suffix (stem +:+ suffix) suffix = Some stem.
Proof.
  induction stem as [|c stem IH].
  - change ("" +:+ suffix) with suffix. destruct suffix; simpl.
    + done.
    + by rewrite Ascii.eqb_refl, String.eqb_refl.
  - change (String c stem +:+ suffix) with (String c (stem +:+ suffix)).
    change (GoString.cut_suffix (String c (stem +:+ suffix)) suffix)
      with (if String.eqb (String c (stem +:+ suffix)) suffix then Some ""
            else String c <$> GoString.cut_suffix (stem +:+ suffix) suffix).
    destruct (String.eqb_spec (String c (stem +:+ suffix)) suffix) as [E|_].
    + apply (f_equal String.length) in E. simpl in E.
      rewrite length_append in E. lia.
    + by rewrite IH.
Qed.

Lemma length_ToLower s : String.length (GoString.ToLower s) = String.length s.
Proof. induction s as [|c s IH]; [done|]. simpl. by rewrite IH. Qed.

Lemma last_elem_acc r : forall acc, exists front, Filepath.last_elem r acc = front ++ acc.
Proof.
  induction r as [|c r IH]; intros acc; simpl.
  - by exists [].
  - destruct (Filepath.IsPathSeparator c); [by exists []|].
    destruct (IH (c :: acc)) as [front ->]. exists (front ++ [c]).
    by rewrite <- app_assoc.
Qed.

Lemma last_elem_ext r : forall acc,
  Filepath.ext_loop r acc <> [] ->
  exists front, Filepath.last_elem r acc = front ++ Filepath.ext_loop r acc.
Proof.
  induction r as [|c r IH]; intros acc; simpl; [done|].
  destruct (Filepath.IsPathSeparator c); [done|].
  destruct (Ascii.eqb c "."); [|by apply IH].
  intros _. apply (last_elem_acc r (c :: acc)).
Qed.

Lemma string_of_list_ascii_app (a b : list ascii) :
  string_of_list_ascii (a ++ b) = string_of_list_ascii a +:+ string_of_list_ascii b.
Proof. induction a as [|c a IH]; [done|]. simpl. by rewrite IH. Qed.

(** The last element of a path ends with the extension of the path. *)
Lemma Base_Ext path :
  exists front, Filepath.Base path = front +:+ Filepath.Ext path.
Proof.
  destruct (decide (Filepath.Ext path = "")) as [E|Hext].
  { rewrite E. exists (Filepath.Base path).
    rewrite <- (string_of_list_ascii_of_string (Filepath.Base path)) at 1.
    rewrite <- (app_nil_r (list_ascii_of_string (Filepath.Base path))) at 1.
    by rewrite string_of_list_ascii_app, string_of_list_ascii_of_string. }
  unfold Filepath.Ext, Filepath.Base in *.
  destruct path as [|c0 path0]; [done|].
  remember (rev (list_ascii_of_string (String c0 path0))) as rp eqn:Hrp.
  clear Hrp. destruct rp as [|c r]; [done|].
  assert (Hsep : Filepath.IsPathSeparator c = false).
  { destruct (Filepath.IsPathSeparator c) eqn:Hc; [|done]. simpl in Hext.
    by rewrite Hc in Hext. }
  change (Filepath.strip_seps (c :: r))
    with (if Filepath.IsPathSeparator c then Filepath.strip_seps r else c :: r).
  rewrite Hsep.
  destruct (last_elem_ext (c :: r) []) as [front Hfront].
  { intros E. by rewrite E in Hext. }
  exists (string_of_list_ascii front).
  by rewrite Hfront, string_of_list_ascii_app.
Qed.

(** X18. The stem under which the scanner files a font file is its file
    name without the extension only when the extension is written in
    lower case: the scanner cuts the lowered extension off the file
    name, so a font file whose extension has an upper-case letter keeps
    its whole file name as its stem, while it is still filed under the
    lowered extension. *)
Theorem stem_keeps_an_extension_that_is_not_lower_case path :
  isFontExt (fontExt path) = true ->
  (Filepath.Ext path = fontExt path ->
   Filepath.Base path = baseName path +:+ Filepath.Ext path)
  /\ (Filepath.Ext path <> fontExt path -> baseName path = Filepath.Base path).
Proof.
  intros _.
  destruct (Base_Ext path) as [front Hbase]. unfold baseName, GoString.TrimSuffix.
  split.
  - intros <-. rewrite Hbase. by rewrite cut_suffix_append.
  - intros Hne. destruct (GoString.cut_suffix _ _) as [stem|] eqn:E; [|done].
    apply cut_suffix_Some in E. exfalso. apply Hne.
    rewrite Hbase in E. pose proof (f_equal String.length E) as Hlen.
    rewrite !length_append in Hlen. unfold fontExt in *.
    rewrite length_ToLower in Hlen.
    assert (String.length front = String.length stem) by lia.
    apply (f_equal list_ascii_of_string) in E.
    rewrite !list_ascii_of_string_app in E.
    apply app_inj_1 in E as [_ E].
    + apply (f_equal string_of_list_ascii) in E.
      by rewrite !string_of_list_ascii_of_string in E.
    + clear -H. revert stem H. induction front as [|a front IH]; intros [|b stem];
        simpl; try done. intros [= Hl]. f_equal. by apply IH.
Qed.

Lemma stem_keeps_an_extension_that_is_not_lower_case_witness :
  baseName "fonts/Arial.TTF" = "Arial.TTF" /\ fontExt "fonts/Arial.TTF" = ".ttf".
Proof.
  split; [|reflexivity].
  apply (proj2 (stem_keeps_an_extension_that_is_not_lower_case
                  "fonts/Arial.TTF" eq_refl)).
  vm_compute. discriminate.
Defined.

(** ** The download handlers *)

Lemma lower_byte_idemp c : GoString.lower_byte (GoString.lower_byte c) = GoString.lower_byte c.
Proof. destruct c as [[] [] [] [] [] [] [] []]; vm_compute; reflexivity. Qed.

Lemma ToLower_idemp s : GoString.ToLower (GoString.ToLower s) = GoString.ToLower s.
Proof.
  induction s as [|c s IH]; [done|]. simpl. by rewrite lower_byte_idemp, IH.
Qed.

(** X19. [getMIMEType] gives a font type exactly for the extensions that
    the scanner accepts, whatever their case, and the fallback
    [application/octet-stream] for every other extension; for a file
    that the scanner accepts the type is [font/] followed by the lowered
    extension without its dot. *)
Theorem getMIMEType_agrees_with_the_scanner (ext : string) :
  (getMIMEType ext = "application/octet-stream"
   <-> isFontExt (GoString.ToLower ext) = false)
  /\ getMIMEType (GoString.ToLower ext) = getMIMEType ext
  /\ (isFontExt (GoString.ToLower ext) = true ->
      getMIMEType ext
      = "font/" +:+ GoString.TrimPrefix (GoString.ToLower ext) ".").
Proof.
  unfold getMIMEType, isFontExt. cbv zeta. rewrite ToLower_idemp.
  split; [|split; [done|]].
  - repeat case_bool_decide; simpl; split; intros; done.
  - repeat case_bool_decide; simpl; intros; try done;
      match goal with H : GoString.ToLower ext = _ |- _ => by rewrite H end.
Qed.

Lemma getMIMEType_agrees_with_the_scanner_witness :
  getMIMEType (Filepath.Ext "fonts/Arial.TTF") = "font/ttf".
Proof.
  exact (proj2 (proj2 (getMIMEType_agrees_with_the_scanner
                         (Filepath.Ext "fonts/Arial.TTF"))) eq_refl).
Defined.

Lemma fold_left_invariant {A B} (P : A -> Prop) (f : A -> B -> A) (l : list B) :
  (forall a x, x ∈ l -> P a -> P (f a x)) ->
  forall a, P a -> P (fold_left f l a).
Proof.
  induction l as [|x l IH]; intros Hstep a Ha; [done|]. simpl.
  apply IH.
  - intros a' y Hy. apply Hstep. by right.
  - apply Hstep; [left|done].
Qed.

(** X20. The archive that [handleDownloadAll] builds never has two
    entries of the same name: an entry is created only for a name that
    was not met before, every name that was given an entry is
    remembered, and each entry is named after a font of the request, its
    spaces replaced by underscores, followed by one of its formats, and
    is filled from the file found for the reference of that format. *)
Theorem archive_entries_have_distinct_names
    (locate : string -> option string) (create_fails : string -> bool)
    (fonts : list RequestFont) :
  let a := add_fonts locate create_fails fonts in
  NoDup (zip_entries a).*1
  /\ (forall name, name ∈ (zip_entries a).*1 -> name ∈ existingFiles a)
  /\ (forall name found,
        (name, found) ∈ zip_entries a ->
        exists font format ref,
          font ∈ fonts /\ (format, ref) ∈ request_formats font
          /\ name = sanitize (request_name font) +:+ format
          /\ locate ref = Some found /\ create_fails name = false).
Proof.
  set (P := fun a : Archive =>
    NoDup (zip_entries a).*1
    /\ (forall name, name ∈ (zip_entries a).*1 -> name ∈ existingFiles a)
    /\ (forall name found,
          (name, found) ∈ zip_entries a ->
          exists font format ref,
            font ∈ fonts /\ (format, ref) ∈ request_formats font
            /\ name = sanitize (request_name font) +:+ format
            /\ locate ref = Some found /\ create_fails name = false)).
  change (P (add_fonts locate create_fails fonts)).
  unfold add_fonts. apply (fold_left_invariant P).
  - intros a font Hfont. unfold add_font. apply (fold_left_invariant P).
    clear a. intros a [format ref] Hformat (Hnd & Hseen & Horigin).
    unfold add_format. destruct (locate ref) as [found|] eqn:Hfound; [|done].
    case_bool_decide as Hmet; [done|].
    destruct (create_fails _) eqn:Hcreate.
    + unfold P. simpl. split; [done|]. split; [|done]. intros name Hname.
      apply elem_of_union_r. by apply Hseen.
    + unfold P. simpl. rewrite fmap_app. simpl. split; [|split].
      * apply NoDup_app. split; [done|]. split; [|apply NoDup_singleton].
        intros name Hname Heq%list_elem_of_singleton. subst name.
        by apply Hmet, Hseen.
      * intros name [Hname|Heq%list_elem_of_singleton]%elem_of_app.
        -- apply elem_of_union_r. by apply Hseen.
        -- subst name. apply elem_of_union_l. by apply elem_of_singleton.
      * intros name found' [Hin|Heq%list_elem_of_singleton]%elem_of_app.
        -- by apply Horigin.
        -- injection Heq as -> ->. exists font, format, ref. repeat split; done.
  - split; [constructor|]. split; intros ? ; [by intros ?%elem_of_nil|].
    by intros ? ?%elem_of_nil.
Qed.

(** ** A run always returns *)

Section RunFacts.
Variable mkdir_denied : string -> gmap string fsentry -> option oserr.
Variable run_tool :
  invocation -> gmap string fsentry -> option cause * gmap string fsentry.
Variable numCPU : Z.
Variable cfg : Config.

(** X21. For a validated configuration and an external program that
    exits on every invocation, [ProcessFonts] has, for every directory
    and every state of the files, a run that returns without the context
    being cancelled; and when the directory is valid, the converted
    directory can be made and the scan finds fonts, that run returns
    results, whatever the conversions do.  A program that never exits is
    not among the behaviours that [run_tool] describes:
    [cmd.CombinedOutput] has no timeout, so it blocks its worker, and
    with it [wg.Wait], for ever. *)
Theorem ProcessFonts_returns (tool : tool_behaviour) fontDir root w log :
  Validate cfg = true ->
  always_exits tool run_tool ->
  exists res w' log',
    ProcessFonts mkdir_denied run_tool numCPU cfg fontDir root w log
                 res w' log' false
    /\ (forall fs,
          validate fontDir root = None ->
          (ensureConvertedDir mkdir_denied cfg w).1 = None ->
          findFonts fontDir root = Ok fs ->
          is_ok res = true).
Proof.
  intros Hval _.
  destruct (ProcessFonts_sequential mkdir_denied run_tool numCPU cfg fontDir root
                                    w log) as [[res w'] log'] eqn:Hseq.
  exists res, w', log'. split; [by apply ProcessFonts_sequential_run|].
  intros fs Hvalid Hdir Hscan. unfold ProcessFonts_sequential in Hseq.
  rewrite Hvalid in Hseq.
  destruct (ensureConvertedDir mkdir_denied cfg w) as [[e|] w1]; [done|].
  rewrite Hscan, planLoop_not_cancelled in Hseq. by injection Hseq as <- _ _.
Qed.

End RunFacts.

Lemma ProcessFonts_returns_witness :
  exists res w' log',
    ProcessFonts (fun _ _ => None) demo_tool 8 demo_cfg "fonts" demo_root
                 demo_world [] res w' log' false
    /\ is_ok res = true.
Proof.
  assert (Hexits : always_exits (fun call fs => Some (demo_tool call fs)) demo_tool)
    by (intros call fs; reflexivity).
  destruct (ProcessFonts_returns (fun _ _ => None) demo_tool 8 demo_cfg
              (fun call fs => Some (demo_tool call fs))
              "fonts" demo_root demo_world [] eq_refl Hexits)
    as (res & w' & log' & Hrun & Hok).
  exists res, w', log'. split; [done|].
  apply (Hok demo_fonts); [reflexivity|vm_compute; reflexivity|apply demo_scan].
Defined.

(** * Runs in a row *)

(** ** The paths of the staged copies and of the outputs *)


















(** ** What the conversions leave in place *)


Section Outputs.
Variable mkdir_denied : string -> gmap string fsentry -> option oserr.
Variable run_tool :
  invocation -> gmap string fsentry -> option cause * gmap string fsentry.









End Outputs.




(** ** One run after another *)



Section TwoRuns.
Variable mkdir_denied : string -> gmap string fsentry -> option oserr.
Variable run_tool :
  invocation -> gmap string fsentry -> option cause * gmap string fsentry.
Variable numCPU : Z.
Variable cfg : Config.





End TwoRuns.


(** ** The two runs on concrete directories *)




